(** * solar-system-3d: a shallow embedding of [app.js]

    The program is one setup script (scene, catalog, orbit graph), a frame
    callback [animate] and four DOM listeners.  The embedding keeps

    - JavaScript numbers behind the interface [JsNumber], with two instances:
      IEEE-754 binary64 (Rocq's primitive floats, the arithmetic the script
      runs on) and the exact rationals [Qc];
    - every [THREE.Object3D] as a record in a heap indexed by reference, so
      that [planetOrbits], [hoverablePlanets] and the scene graph alias the
      same objects, as they do in the script;
    - the part of three.js the script calls but does not contain (camera,
      orbit controls, ray construction, the per-mesh geometric test) behind
      the interface [Three];
    - the module-level variables of the script as one record [World], threaded
      through a small state monad. *)

From Stdlib Require Import ZArith QArith Qcanon Floats Ring_theory.
From stdpp Require Import gmap strings list.

(** ** JavaScript numbers *)

Class JsNumber (num : Type) := {
  lit : Q → num;                 (* a numeric literal of the source text   *)
  nadd : num → num → num;        (* a + b *)
  nsub : num → num → num;        (* a - b *)
  nmul : num → num → num;        (* a * b *)
  ndiv : num → num → num;        (* a / b *)
  nneg : num → num;              (* -a    *)
  nltb : num → num → bool;       (* a < b *)
  nleb : num → num → bool;       (* a <= b *)
}.

Declare Scope num_scope.
Delimit Scope num_scope with num.
Infix "⊕" := nadd (at level 50, left associativity) : num_scope.
Infix "⊖" := nsub (at level 50, left associativity) : num_scope.
Infix "⊗" := nmul (at level 40, left associativity) : num_scope.
Infix "⊘" := ndiv (at level 40, left associativity) : num_scope.

(** Binary64.  A literal [n/d] with [n] and [d] below 2^53 is read as the
    correctly rounded quotient, which is the double nearest to the decimal
    literal: the value JavaScript's parser gives it. *)
Definition Z2F (z : Z) : float :=
  match z with
  | Z0 => 0%float
  | Zpos _ => PrimFloat.of_uint63 (Uint63.of_Z z)
  | Zneg p => PrimFloat.opp (PrimFloat.of_uint63 (Uint63.of_Z (Zpos p)))
  end.

Definition float_lit (q : Q) : float :=
  PrimFloat.div (Z2F (Qnum q)) (Z2F (Zpos (Qden q))).

#[export] Instance float_number : JsNumber float := {|
  lit := float_lit;
  nadd := PrimFloat.add;
  nsub := PrimFloat.sub;
  nmul := PrimFloat.mul;
  ndiv := PrimFloat.div;
  nneg := PrimFloat.opp;
  nltb := PrimFloat.ltb;
  nleb := PrimFloat.leb;
|}.

(** Exact rationals: the arithmetic the specification reasons in. *)
Definition Qc_ltb (a b : Qc) : bool :=
  match (a ?= b)%Qc with Lt => true | _ => false end.

Definition Qc_leb (a b : Qc) : bool :=
  match (a ?= b)%Qc with Gt => false | _ => true end.

#[export] Instance Qc_number : JsNumber Qc := {|
  lit := Q2Qc;
  nadd := Qcplus;
  nsub := Qcminus;
  nmul := Qcmult;
  ndiv := Qcdiv;
  nneg := Qcopp;
  nltb := Qc_ltb;
  nleb := Qc_leb;
|}.

(** ** The scene graph *)

Record Vector2 (num : Type) := mkVector2 { v2x : num; v2y : num }.
Record Vector3 (num : Type) := mkVector3 { vx : num; vy : num; vz : num }.
Arguments mkVector2 {num}. Arguments v2x {num}. Arguments v2y {num}.
Arguments mkVector3 {num}. Arguments vx {num}. Arguments vy {num}. Arguments vz {num}.

Inductive Geometry (num : Type) :=
| SphereGeometry (radius : num) (widthSegments heightSegments : nat)
| RingGeometry (innerRadius outerRadius : num) (thetaSegments : nat).
Arguments SphereGeometry {num}. Arguments RingGeometry {num}.

(** [color] is a 24-bit RGB value; the catalog writes [null] for Earth. *)
Inductive Material (num : Type) :=
| MeshBasicMaterial (color : Z) (doubleSide transparent : bool) (opacity : num)
| MeshStandardMaterialColor (color : option Z)
| MeshStandardMaterialMap (map_url : string).
Arguments MeshBasicMaterial {num}. Arguments MeshStandardMaterialColor {num}.
Arguments MeshStandardMaterialMap {num}.

Inductive Kind (num : Type) :=
| KScene
| KLight
| KObject3D
| KMesh (geometry : Geometry num) (material : Material num).
Arguments KScene {num}. Arguments KLight {num}. Arguments KObject3D {num}.
Arguments KMesh {num}.

Record UserData := mkUserData { ud_name : string; ud_funFact : string }.

(** [userData = None] is the empty object [{}] every Object3D starts with. *)
Record Object3D (num : Type) := mkObject3D {
  kind : Kind num;
  position : Vector3 num;
  rotation : Vector3 num;
  children : list nat;
  userData : option UserData;
}.
Arguments mkObject3D {num}. Arguments kind {num}. Arguments position {num}.
Arguments rotation {num}. Arguments children {num}. Arguments userData {num}.

(** ** The catalog *)

Record PlanetData (num : Type) := mkPlanetData {
  name : string;
  orbitRadius : num;
  planetRadius : num;
  color : option Z;
  rotationSpeed : num;
  texture : option string;
  funFact : string;
  hasMoon : bool;
  hasRings : bool;
}.
Arguments mkPlanetData {num}. Arguments name {num}. Arguments orbitRadius {num}.
Arguments planetRadius {num}. Arguments color {num}. Arguments rotationSpeed {num}.
Arguments texture {num}. Arguments funFact {num}. Arguments hasMoon {num}.
Arguments hasRings {num}.

Definition earthTexture : string :=
  "https://threejs.org/examples/textures/land_ocean_ice_cloud_2048.jpg".
Definition moonTexture : string :=
  "https://threejs.org/examples/textures/moon_1024.jpg".

Definition planetsData {num} `{JsNumber num} : list (PlanetData num) := [
  mkPlanetData "Mercury" (lit 8) (lit 0.5) (Some 0xaaaaaa%Z) (lit 0.02) None
    "Mercury is the smallest planet and closest to the Sun." false false;
  mkPlanetData "Venus" (lit 11) (lit 0.7) (Some 0xeed5b7%Z) (lit 0.015) None
    "Venus has a thick atmosphere and is the hottest planet." false false;
  mkPlanetData "Earth" (lit 14) (lit 1) None (lit 0.01) (Some earthTexture)
    "Earth is our home and the only planet known to support life." true false;
  mkPlanetData "Mars" (lit 17) (lit 0.53) (Some 0xff4500%Z) (lit 0.008) None
    "Mars is known as the Red Planet, home to the tallest volcano." false false;
  mkPlanetData "Jupiter" (lit 22) (lit 2) (Some 0xffa500%Z) (lit 0.005) None
    "Jupiter is the largest planet and features the Great Red Spot." false false;
  mkPlanetData "Saturn" (lit 28) (lit 1.7) (Some 0xffd27f%Z) (lit 0.003) None
    "Saturn is famous for its spectacular rings." false true;
  mkPlanetData "Uranus" (lit 34) (lit 1.2) (Some 0x66ccff%Z) (lit 0.002) None
    "Uranus rotates on its side, giving it extreme seasons." false false;
  mkPlanetData "Neptune" (lit 40) (lit 1.2) (Some 0x3366ff%Z) (lit 0.001) None
    "Neptune has supersonic winds and a deep blue color." false false
].

(** ** The DOM side: events, tooltip, overlay *)

Record MouseEvent (num : Type) := mkMouseEvent { clientX : num; clientY : num }.
Arguments mkMouseEvent {num}. Arguments clientX {num}. Arguments clientY {num}.

(** What the event loop can deliver to the script.  [Resize] carries the new
    [window.innerWidth] and [window.innerHeight]; [Frame] carries the value
    [clock.getDelta()] returns in that frame; [Elapse ms] lets [ms]
    milliseconds pass, running the [setTimeout] callbacks that fall due. *)
Inductive Event (num : Type) :=
| MouseDown
| MouseUp
| MouseMove (e : MouseEvent num)
| Click (e : MouseEvent num)
| Resize (innerWidth innerHeight : num)
| Frame (delta : num)
| Elapse (ms : N).
Arguments MouseDown {num}. Arguments MouseUp {num}. Arguments MouseMove {num}.
Arguments Click {num}. Arguments Resize {num}. Arguments Frame {num}.
Arguments Elapse {num}.

(** The value of [element.style.display]. *)
Inductive Display := display_unset | display_block | display_none.

Record Tooltip (num : Type) := mkTooltip {
  tt_display : Display;
  tt_innerHTML : string;
  tt_left : num;     (* style.left, in px *)
  tt_top : num;      (* style.top, in px *)
}.
Arguments mkTooltip {num}. Arguments tt_display {num}.
Arguments tt_innerHTML {num}. Arguments tt_left {num}. Arguments tt_top {num}.

(** ** The part of three.js the script relies on

    [Camera] stands for the perspective camera together with the state of
    its [OrbitControls]; [raycastMesh ray heap id] is [Mesh.raycast] for the
    mesh [id]: the distances along [ray] at which its geometry, placed by the
    transforms of [heap], is entered.  [recursiveDefault] is the value
    [Raycaster.intersectObjects] gives its parameter [recursive] when the
    caller omits it, as both listeners do: three.js declares
    [intersectObjects(objects, recursive = true, intersects = [])]; its
    releases of 2021 and before left the parameter undefined, hence false.
    The concrete scenes below take [true]. *)
Class Three (num : Type) := {
  Camera : Type;
  Ray : Type;
  newCamera : num → Camera;
  setAspect : num → Camera → Camera;
  controlsUpdate : Camera → Camera;
  controlsEvent : Event num → Camera → Camera;
  setFromCamera : Vector2 num → Camera → Ray;
  raycastMesh : Ray → gmap nat (Object3D num) → nat → list num;
  recursiveDefault : bool;
}.

(** ** The module-level state of the script *)

Record OrbitItem (num : Type) := mkOrbitItem { group : nat; speed : num }.
Arguments mkOrbitItem {num}. Arguments group {num}. Arguments speed {num}.

Record Intersection (num : Type) := mkIntersection { distance : num; object : nat }.
Arguments mkIntersection {num}. Arguments distance {num}. Arguments object {num}.

Record World (num : Type) `{Three num} := mkWorld {
  heap : gmap nat (Object3D num);       (* every Object3D created so far   *)
  nextId : nat;                         (* three.js numbers its objects    *)
  scene : nat;
  sun : nat;
  planetOrbits : list (OrbitItem num);
  hoverablePlanets : list nat;
  animationActive : bool;
  camera : Camera;
  mouse : Vector2 num;
  raycaster : option Ray;               (* raycaster.ray, once it was set  *)
  tooltip : Tooltip num;
  gifOverlay : option Display;          (* None: no such element yet       *)
  timers : list N;                      (* due times of pending callbacks  *)
  now : N;                              (* milliseconds since page load    *)
  innerWidth : num;
  innerHeight : num;
}.
Arguments mkWorld {num _}. Arguments heap {num _}. Arguments nextId {num _}.
Arguments scene {num _}. Arguments sun {num _}. Arguments planetOrbits {num _}.
Arguments hoverablePlanets {num _}. Arguments animationActive {num _}.
Arguments camera {num _}. Arguments mouse {num _}. Arguments raycaster {num _}.
Arguments tooltip {num _}. Arguments gifOverlay {num _}. Arguments timers {num _}.
Arguments now {num _}. Arguments innerWidth {num _}. Arguments innerHeight {num _}.

Section App.
Context {num : Type} {NUM : JsNumber num} {THREE : Three num}.
Local Open Scope num_scope.

(** *** Field updates *)

Definition set_heap (f : gmap nat (Object3D num) → gmap nat (Object3D num))
    (w : World num) : World num :=
  mkWorld (f (heap w)) (nextId w) (scene w) (sun w) (planetOrbits w)
    (hoverablePlanets w) (animationActive w) (camera w) (mouse w) (raycaster w)
    (tooltip w) (gifOverlay w) (timers w) (now w) (innerWidth w) (innerHeight w).

Definition set_nextId (n : nat) (w : World num) : World num :=
  mkWorld (heap w) n (scene w) (sun w) (planetOrbits w)
    (hoverablePlanets w) (animationActive w) (camera w) (mouse w) (raycaster w)
    (tooltip w) (gifOverlay w) (timers w) (now w) (innerWidth w) (innerHeight w).

Definition set_scene (s : nat) (w : World num) : World num :=
  mkWorld (heap w) (nextId w) s (sun w) (planetOrbits w)
    (hoverablePlanets w) (animationActive w) (camera w) (mouse w) (raycaster w)
    (tooltip w) (gifOverlay w) (timers w) (now w) (innerWidth w) (innerHeight w).

Definition set_sun (s : nat) (w : World num) : World num :=
  mkWorld (heap w) (nextId w) (scene w) s (planetOrbits w)
    (hoverablePlanets w) (animationActive w) (camera w) (mouse w) (raycaster w)
    (tooltip w) (gifOverlay w) (timers w) (now w) (innerWidth w) (innerHeight w).

Definition set_planetOrbits (l : list (OrbitItem num)) (w : World num) : World num :=
  mkWorld (heap w) (nextId w) (scene w) (sun w) l
    (hoverablePlanets w) (animationActive w) (camera w) (mouse w) (raycaster w)
    (tooltip w) (gifOverlay w) (timers w) (now w) (innerWidth w) (innerHeight w).

Definition set_hoverablePlanets (l : list nat) (w : World num) : World num :=
  mkWorld (heap w) (nextId w) (scene w) (sun w) (planetOrbits w)
    l (animationActive w) (camera w) (mouse w) (raycaster w)
    (tooltip w) (gifOverlay w) (timers w) (now w) (innerWidth w) (innerHeight w).

Definition set_animationActive (b : bool) (w : World num) : World num :=
  mkWorld (heap w) (nextId w) (scene w) (sun w) (planetOrbits w)
    (hoverablePlanets w) b (camera w) (mouse w) (raycaster w)
    (tooltip w) (gifOverlay w) (timers w) (now w) (innerWidth w) (innerHeight w).

Definition set_camera (c : Camera) (w : World num) : World num :=
  mkWorld (heap w) (nextId w) (scene w) (sun w) (planetOrbits w)
    (hoverablePlanets w) (animationActive w) c (mouse w) (raycaster w)
    (tooltip w) (gifOverlay w) (timers w) (now w) (innerWidth w) (innerHeight w).

Definition set_mouse (m : Vector2 num) (w : World num) : World num :=
  mkWorld (heap w) (nextId w) (scene w) (sun w) (planetOrbits w)
    (hoverablePlanets w) (animationActive w) (camera w) m (raycaster w)
    (tooltip w) (gifOverlay w) (timers w) (now w) (innerWidth w) (innerHeight w).

Definition set_raycaster (r : option Ray) (w : World num) : World num :=
  mkWorld (heap w) (nextId w) (scene w) (sun w) (planetOrbits w)
    (hoverablePlanets w) (animationActive w) (camera w) (mouse w) r
    (tooltip w) (gifOverlay w) (timers w) (now w) (innerWidth w) (innerHeight w).

Definition set_tooltip (t : Tooltip num) (w : World num) : World num :=
  mkWorld (heap w) (nextId w) (scene w) (sun w) (planetOrbits w)
    (hoverablePlanets w) (animationActive w) (camera w) (mouse w) (raycaster w)
    t (gifOverlay w) (timers w) (now w) (innerWidth w) (innerHeight w).

Definition set_gifOverlay (o : option Display) (w : World num) : World num :=
  mkWorld (heap w) (nextId w) (scene w) (sun w) (planetOrbits w)
    (hoverablePlanets w) (animationActive w) (camera w) (mouse w) (raycaster w)
    (tooltip w) o (timers w) (now w) (innerWidth w) (innerHeight w).

Definition set_timers (l : list N) (w : World num) : World num :=
  mkWorld (heap w) (nextId w) (scene w) (sun w) (planetOrbits w)
    (hoverablePlanets w) (animationActive w) (camera w) (mouse w) (raycaster w)
    (tooltip w) (gifOverlay w) l (now w) (innerWidth w) (innerHeight w).

Definition set_now (t : N) (w : World num) : World num :=
  mkWorld (heap w) (nextId w) (scene w) (sun w) (planetOrbits w)
    (hoverablePlanets w) (animationActive w) (camera w) (mouse w) (raycaster w)
    (tooltip w) (gifOverlay w) (timers w) t (innerWidth w) (innerHeight w).

Definition set_window (iw ih : num) (w : World num) : World num :=
  mkWorld (heap w) (nextId w) (scene w) (sun w) (planetOrbits w)
    (hoverablePlanets w) (animationActive w) (camera w) (mouse w) (raycaster w)
    (tooltip w) (gifOverlay w) (timers w) (now w) iw ih.

(** *** The state monad the script runs in *)

Definition M (A : Type) : Type := World num → A * World num.

Definition ret {A} (a : A) : M A := λ w, (a, w).

Definition bind {A B} (m : M A) (k : A → M B) : M B :=
  λ w, k (m w).1 (m w).2.

Definition exec {A} (m : M A) (w : World num) : World num := (m w).2.

Definition modify (f : World num → World num) : M unit := λ w, (tt, f w).

Local Notation "'let!' x ':=' m 'in' k" := (bind m (λ x, k))
  (at level 10, x name, m at level 100, k at level 200).
Local Notation "'run!' m 'in' k" := (bind m (λ _, k))
  (at level 10, m at level 100, k at level 200).

Fixpoint forEach {A} (l : list A) (f : A → M unit) : M unit :=
  match l with
  | [] => ret tt
  | a :: l' => run! f a in forEach l' f
  end.

Definition when (b : bool) (m : M unit) : M unit := if b then m else ret tt.

(** *** Object3D operations *)

Definition zero3 : Vector3 num := mkVector3 (lit 0) (lit 0) (lit 0).

Definition newObject (k : Kind num) : Object3D num :=
  mkObject3D k zero3 zero3 [] None.

(** [new THREE.X(...)]: the object gets the next id and enters the heap. *)
Definition alloc (k : Kind num) : M nat :=
  λ w, (nextId w,
        set_nextId (S (nextId w)) (set_heap (<[nextId w := newObject k]>) w)).

Definition update (id : nat) (f : Object3D num → Object3D num) : M unit :=
  modify (set_heap (alter f id)).

Definition position_set (p : Vector3 num) (o : Object3D num) : Object3D num :=
  mkObject3D (kind o) p (rotation o) (children o) (userData o).

Definition rotation_set (r : Vector3 num) (o : Object3D num) : Object3D num :=
  mkObject3D (kind o) (position o) r (children o) (userData o).

Definition userData_set (u : UserData) (o : Object3D num) : Object3D num :=
  mkObject3D (kind o) (position o) (rotation o) (children o) (Some u).

Definition push_child (c : nat) (o : Object3D num) : Object3D num :=
  mkObject3D (kind o) (position o) (rotation o) (children o ++ [c]) (userData o).

(** [parent.add(child)]; every child the script adds is fresh, so the
    detaching from an earlier parent that three.js does first never applies. *)
Definition add (parent child : nat) : M unit := update parent (push_child child).

Definition Math_PI : num := lit 3.141592653589793.

(** *** Setup: scene, lights, sun (lines 8-57) *)

Definition blankTooltip : Tooltip num :=
  mkTooltip display_unset "" (lit 0) (lit 0).

(** The state before the first statement runs; [scene] and [sun] are bound
    when their [const] declarations execute. *)
Definition blank (iw ih : num) : World num :=
  mkWorld ∅ 0 0 0 [] [] true (newCamera (iw ⊘ ih)) (mkVector2 (lit 0) (lit 0))
    None blankTooltip None [] 0%N iw ih.

Definition createScene : M unit :=
  let! s := alloc KScene in
  run! modify (set_scene s) in
  let! ambientLight := alloc KLight in
  run! add s ambientLight in
  let! directionalLight := alloc KLight in
  run! update directionalLight
         (position_set (mkVector3 (lit 50) (lit 50) (lit 50))) in
  add s directionalLight.

(** Lines 44-51. *)
Definition createPlanetOrbit (orbitRadius : num) (planetMesh : nat) : M nat :=
  let! orbitGroup := alloc KObject3D in
  run! update planetMesh (position_set (mkVector3 orbitRadius (lit 0) (lit 0))) in
  run! add orbitGroup planetMesh in
  let! s := (λ w, (scene w, w)) in
  run! add s orbitGroup in
  ret orbitGroup.

Definition createSun : M unit :=
  let! s := alloc (KMesh (SphereGeometry (lit 4) 32 32)
                         (MeshBasicMaterial 0xffff00 false false (lit 1))) in
  run! modify (set_sun s) in
  let! sc := (λ w, (scene w, w)) in
  add sc s.

(** *** The catalog loop (lines 134-183) *)

(** [if (planetData.texture)]: a missing or empty string is falsy. *)
Definition planetMaterial (planetData : PlanetData num) : Material num :=
  match texture planetData with
  | Some (String c url) => MeshStandardMaterialMap (String c url)
  | _ => MeshStandardMaterialColor (color planetData)
  end.

Definition addMoon (planetMesh : nat) : M unit :=
  let! moonMesh := alloc (KMesh (SphereGeometry (lit 0.27) 32 32)
                                (MeshStandardMaterialMap moonTexture)) in
  let! moonOrbit := alloc KObject3D in
  run! update moonMesh (position_set (mkVector3 (lit 2) (lit 0) (lit 0))) in
  run! add moonOrbit moonMesh in
  run! add planetMesh moonOrbit in
  modify (λ w, set_planetOrbits
                 (planetOrbits w ++ [mkOrbitItem moonOrbit (lit 0.05)]) w).

Definition addRings (planetData : PlanetData num) (planetMesh : nat) : M unit :=
  let! ringMesh := alloc (KMesh
      (RingGeometry (planetRadius planetData ⊗ lit 1.2)
                    (planetRadius planetData ⊗ lit 1.8) 32)
      (MeshBasicMaterial 0x8d6e63 true true (lit 0.7))) in
  run! update ringMesh
         (λ o, rotation_set (mkVector3 (Math_PI ⊘ lit 2) (vy (rotation o))
                                       (vz (rotation o))) o) in
  add planetMesh ringMesh.

Definition buildPlanet (planetData : PlanetData num) : M unit :=
  let! planetMesh := alloc (KMesh (SphereGeometry (planetRadius planetData) 32 32)
                                  (planetMaterial planetData)) in
  run! update planetMesh
         (userData_set (mkUserData (name planetData) (funFact planetData))) in
  run! modify (λ w, set_hoverablePlanets (hoverablePlanets w ++ [planetMesh]) w) in
  let! orbitGroup := createPlanetOrbit (orbitRadius planetData) planetMesh in
  run! modify (λ w, set_planetOrbits
         (planetOrbits w ++ [mkOrbitItem orbitGroup (rotationSpeed planetData)]) w) in
  run! when (hasMoon planetData) (addMoon planetMesh) in
  when (hasRings planetData) (addRings planetData planetMesh).

Definition buildSystem (catalog : list (PlanetData num)) : M unit :=
  forEach catalog buildPlanet.

(** The whole script up to line 186, run in a window of the given size. *)
Definition setup (catalog : list (PlanetData num)) (iw ih : num) : World num :=
  exec (run! createScene in
        run! createSun in
        run! buildSystem catalog in
        modify (set_animationActive true))
       (blank iw ih).

(** *** The frame callback (lines 197-209) *)

Definition spin (item : OrbitItem num) (delta : num) (o : Object3D num)
    : Object3D num :=
  rotation_set (mkVector3 (vx (rotation o))
                          (vy (rotation o) ⊕ speed item ⊗ delta ⊗ lit 60)
                          (vz (rotation o))) o.

(** [renderer.render] only refreshes data derived from the local transforms
    (the world matrices the ray test reads); the heap holds the transforms
    themselves, so rendering leaves it as it is. *)
Definition animate (delta : num) : M unit :=
  run! (λ w, when (animationActive w)
               (forEach (planetOrbits w)
                  (λ item, update (group item) (spin item delta))) w) in
  modify (λ w, set_camera (controlsUpdate (camera w)) w).

(** *** Raycaster.intersectObjects (three.js) *)

(** The comparator three.js sorts hits with. *)
Definition ascSort (a b : Intersection num) : num := distance a ⊖ distance b.

(** [Array.prototype.sort] is stable: [a], which stood before every element
    of [l], moves behind [b] only when the comparator is positive.  This is
    the order the method gives under a consistent comparator, which
    [ascSort] is as long as every distance is a number.  With a NaN among
    the distances the comparator is not consistent and ECMAScript leaves the
    order to the engine; what is proved of the order below is proved of
    distances that are numbers. *)
Fixpoint insert_hit (a : Intersection num) (l : list (Intersection num))
    : list (Intersection num) :=
  match l with
  | [] => [a]
  | b :: l' =>
      if nltb (lit 0) (ascSort a b) then b :: insert_hit a l' else a :: b :: l'
  end.

Definition sort_hits (l : list (Intersection num)) : list (Intersection num) :=
  foldr insert_hit [] l.

(** [object.raycast(raycaster, intersects)]: only meshes test themselves,
    the method of a plain Object3D, a light or the scene is empty. *)
Definition raycast (ray : Ray) (h : gmap nat (Object3D num)) (id : nat)
    : list (Intersection num) :=
  match h !! id with
  | Some o =>
      match kind o with
      | KMesh _ _ => (λ d, mkIntersection d id) <$> raycastMesh ray h id
      | _ => []
      end
  | None => []
  end.

(** three.js's [intersect(object, raycaster, intersects, recursive)]: the
    object itself, then its descendants when [recursive] holds.  [fuel]
    bounds the depth of the descent. *)
Fixpoint intersect (fuel : nat) (ray : Ray) (h : gmap nat (Object3D num))
    (recursive : bool) (id : nat) : list (Intersection num) :=
  raycast ray h id ++
  (if recursive then
     match fuel, h !! id with
     | S fuel', Some o => flat_map (intersect fuel' ray h recursive) (children o)
     | _, _ => []
     end
   else []).

Definition intersectObjects (ray : Ray) (h : gmap nat (Object3D num))
    (objects : list nat) (recursive : bool) : list (Intersection num) :=
  sort_hits (flat_map (intersect (size h) ray h recursive) objects).

(** *** The listeners (lines 188-193, 213-278) *)

(** The pointer position in normalized device coordinates. *)
Definition normalized (w : World num) (event : MouseEvent num) : Vector2 num :=
  mkVector2 (clientX event ⊘ innerWidth w ⊗ lit 2 ⊖ lit 1)
            (nneg (clientY event ⊘ innerHeight w) ⊗ lit 2 ⊕ lit 1).

(** The first four statements of [onMouseMove] and of [onClick]. *)
Definition pick (event : MouseEvent num) : M (list (Intersection num)) :=
  run! modify (λ w, set_mouse (normalized w event) w) in
  λ w, let ray := setFromCamera (mouse w) (camera w) in
       (intersectObjects ray (heap w) (hoverablePlanets w) recursiveDefault,
        set_raycaster (Some ray) w).

(** [intersected.userData.name]; [None] is JavaScript's [undefined]. *)
Definition userData_name (w : World num) (id : nat) : option string :=
  ud_name <$> (heap w !! id ≫= userData).

Definition userData_funFact (w : World num) (id : nat) : option string :=
  ud_funFact <$> (heap w !! id ≫= userData).

(** How a template literal prints a value that may be [undefined]. *)
Definition interpolate (s : option string) : string := default "undefined" s.

Definition onMouseMove (event : MouseEvent num) : M unit :=
  let! intersects := pick event in
  match intersects with
  | hit :: _ =>
      modify (λ w, set_tooltip
        (mkTooltip display_block
           ("<strong>" +:+ interpolate (userData_name w (object hit)) +:+
            "</strong><br>" +:+ interpolate (userData_funFact w (object hit)))
           (clientX event ⊕ lit 10) (clientY event ⊕ lit 10)) w)
  | [] =>
      modify (λ w, set_tooltip
        (mkTooltip display_none (tt_innerHTML (tooltip w))
           (tt_left (tooltip w)) (tt_top (tooltip w))) w)
  end.

(** The callback handed to [setTimeout]. *)
Definition hideGifOverlay : M unit := modify (set_gifOverlay (Some display_none)).

Definition showGifOverlay : M unit :=
  run! modify (λ w, match gifOverlay w with
                    | None => set_gifOverlay (Some display_unset) w
                    | Some _ => w
                    end) in
  run! modify (set_gifOverlay (Some display_block)) in
  modify (λ w, set_timers (timers w ++ [(now w + 5000)%N]) w).

Definition onClick (event : MouseEvent num) : M unit :=
  let! intersects := pick event in
  match intersects with
  | hit :: _ =>
      λ w, when (bool_decide (userData_name w (object hit) = Some "Mars"))
             showGifOverlay w
  | [] => ret tt
  end.

Definition onResize : M unit :=
  modify (λ w, set_camera (setAspect (innerWidth w ⊘ innerHeight w) (camera w)) w).

(** The clock reaches [t]: the callbacks due by then run, oldest first (all
    delays are equal, so [timers] is in due order), and leave the queue. *)
Definition runTimers (t : N) : M unit :=
  λ w, forEach (List.filter (λ d, (d <=? t)%N) (timers w)) (λ _, hideGifOverlay)
         (set_timers (List.filter (λ d, negb (d <=? t)%N) (timers w))
            (set_now t w)).

(** One turn of the event loop.  The listeners OrbitControls put on the
    canvas run before the script's own, which sit on [window]. *)
Definition dispatch (ev : Event num) : M unit :=
  run! modify (λ w, set_camera (controlsEvent ev (camera w)) w) in
  match ev with
  | MouseDown => modify (set_animationActive false)
  | MouseUp => modify (set_animationActive true)
  | MouseMove e => onMouseMove e
  | Click e => onClick e
  | Resize iw ih => run! modify (set_window iw ih) in onResize
  | Frame delta => animate delta
  | Elapse ms => λ w, runTimers (now w + ms) w
  end.

Definition step (w : World num) (ev : Event num) : World num :=
  exec (dispatch ev) w.

Definition run (evs : list (Event num)) (w : World num) : World num :=
  foldl step w evs.

(** *** Observations *)

Definition rotation_y (w : World num) (id : nat) : option num :=
  (λ o, vy (rotation o)) <$> heap w !! id.

Definition overlayVisible (w : World num) : bool :=
  match gifOverlay w with Some display_block => true | _ => false end.

Inductive AnimationState := Running | Paused.

Definition animationState (w : World num) : AnimationState :=
  if animationActive w then Running else Paused.

Definition isMesh (w : World num) (id : nat) : bool :=
  match kind <$> heap w !! id with Some (KMesh _ _) => true | _ => false end.

Definition isRing (w : World num) (id : nat) : bool :=
  match kind <$> heap w !! id with
  | Some (KMesh (RingGeometry _ _ _) _) => true
  | _ => false
  end.

Definition isMoon (w : World num) (id : nat) : bool :=
  match kind <$> heap w !! id with
  | Some (KMesh _ (MeshStandardMaterialMap url)) => bool_decide (url = moonTexture)
  | _ => false
  end.

Definition isOrbitNode (w : World num) (id : nat) : bool :=
  match kind <$> heap w !! id with Some KObject3D => true | _ => false end.

(** The orbit nodes that hang directly under the scene: the planets'. *)
Definition rootNodes (w : World num) : list nat :=
  List.filter (isOrbitNode w) (default [] (children <$> heap w !! scene w)).

(** *** Specification vocabulary *)

(** The heap after the loop of [animate]: one [rotation.y +=] per entry. *)
Definition spinAll (items : list (OrbitItem num)) (delta : num)
    (h : gmap nat (Object3D num)) : gmap nat (Object3D num) :=
  foldl (λ h item, alter (spin item delta) (group item) h) h items.

(** [o'] is [o] except, possibly, for [rotation.y]. *)
Definition sameButRotationY (o o' : Object3D num) : Prop :=
  kind o' = kind o ∧ position o' = position o ∧ children o' = children o ∧
  userData o' = userData o ∧
  vx (rotation o') = vx (rotation o) ∧ vz (rotation o') = vz (rotation o).


(** What the listeners and the frame callback only read: the two registries
    and the references bound during setup. *)
Definition registries (w : World num)
    : list (OrbitItem num) * list nat * nat * nat * nat :=
  (planetOrbits w, hoverablePlanets w, scene w, sun w, nextId w).

(** The speed of an entry is not negative. *)
Definition nonnegSpeed (item : OrbitItem num) : Prop :=
  nltb (speed item) (lit 0) = false.

(** What [pick] hands to the listener: the hit it would use, if any. *)
Definition picked (event : MouseEvent num) (w : World num) : option nat :=
  object <$> head (pick event w).1.


(** The click [event], delivered in [w], is on Mars: the hit its listener
    uses is on the mesh named Mars. *)
Definition clicksMars (w : World num) (event : MouseEvent num) : Prop :=
  ∃ hit,
    head (pick event
            (set_camera (controlsEvent (Click event) (camera w)) w)).1
      = Some hit ∧
    userData_name w (object hit) = Some "Mars"%string.

(** The object at [id] exists and satisfies [P]. *)
Definition has (id : nat) (P : Object3D num → Prop)
    (h : gmap nat (Object3D num)) : Prop :=
  ∃ o, h !! id = Some o ∧ P o.

(** Properties of an object that do not depend on its children or on its
    rotation. *)
Definition rigid (P : Object3D num → Prop) : Prop :=
  ∀ o c r, P o → P (mkObject3D (kind o) (position o) r c (userData o)).

(** What the loop makes of a catalog entry: a sphere of the entry's radius
    and material, tagged with its name and fun fact, offset along X by its
    orbit radius. *)
Definition planetBuilt (planetData : PlanetData num) (o : Object3D num) : Prop :=
  kind o = KMesh (SphereGeometry (planetRadius planetData) 32 32)
                 (planetMaterial planetData) ∧
  userData o = Some (mkUserData (name planetData) (funFact planetData)) ∧
  position o = mkVector3 (orbitRadius planetData) (lit 0) (lit 0).

(** The number of objects the loop body creates for an entry. *)
Definition allocated (planetData : PlanetData num) : nat :=
  2 + (if hasMoon planetData then 2 else 0)
    + (if hasRings planetData then 1 else 0).

(** The speeds an entry contributes to [planetOrbits]: its own, then the
    moon's when it has one. *)
Definition entrySpeeds (planetData : PlanetData num) : list num :=
  rotationSpeed planetData :: (if hasMoon planetData then [lit 0.05] else []).




(** No hit of [l] is strictly nearer than [m]. *)
Definition nearest (m : Intersection num) (l : list (Intersection num)) : Prop :=
  ∀ hit, hit ∈ l → nltb (distance hit) (distance m) = false.

(** The hits of the ray on the registry members themselves. *)
Definition memberHits (event : MouseEvent num) (w : World num)
    : list (Intersection num) :=
  flat_map (raycast (setFromCamera (normalized w event) (camera w)) (heap w))
           (hoverablePlanets w).


(** *** Further vocabulary *)

(** Every pending dismissal falls due within the next 5000 ms, and a visible
    overlay has one pending. *)
Definition overlayInv (w : World num) : Prop :=
  (∀ d, d ∈ timers w → (now w < d ≤ now w + 5000)%N) ∧
  (overlayVisible w = true → timers w ≠ []).

(** All the hits [intersectObjects] collects before it sorts them. *)
Definition candidateHits (event : MouseEvent num) (w : World num)
    : list (Intersection num) :=
  flat_map (intersect (size (heap w))
              (setFromCamera (normalized w event) (camera w)) (heap w)
              recursiveDefault)
           (hoverablePlanets w).

(** The state in which the script's own listener for [ev] runs: the
    listeners of the orbit controls have run before it. *)
Definition delivered (ev : Event num) (w : World num) : World num :=
  set_camera (controlsEvent ev (camera w)) w.


(** *** What the loop allocates

    Object ids are handed out in creation order, so the objects of one entry
    follow its planet's mesh: the orbit node, then the moon's mesh and orbit
    node when it has a moon, then the ring when it has rings. *)

Definition orbitOf (planetMesh : nat) : nat := planetMesh + 1.
Definition moonOf (planetMesh : nat) : nat := planetMesh + 2.
Definition moonOrbitOf (planetMesh : nat) : nat := planetMesh + 3.
Definition ringOf (planetData : PlanetData num) (planetMesh : nat) : nat :=
  planetMesh + 2 + (if hasMoon planetData then 2 else 0).

(** The ids of the planets' meshes when the first is [first]. *)
Fixpoint meshIds (first : nat) (catalog : list (PlanetData num)) : list nat :=
  match catalog with
  | [] => []
  | planetData :: catalog' =>
      first :: meshIds (first + allocated planetData) catalog'
  end.

(** The entries lines 151 and 163 push on [planetOrbits] for one planet. *)
Definition entryItems (planetData : PlanetData num) (planetMesh : nat)
    : list (OrbitItem num) :=
  mkOrbitItem (orbitOf planetMesh) (rotationSpeed planetData) ::
  (if hasMoon planetData
   then [mkOrbitItem (moonOrbitOf planetMesh) (lit 0.05)] else []).

(** The moon's mesh, an orbit node holding [child], and the ring of an
    entry, as the loop leaves them. *)
Definition moonObject : Object3D num :=
  mkObject3D (KMesh (SphereGeometry (lit 0.27) 32 32)
                    (MeshStandardMaterialMap moonTexture))
             (mkVector3 (lit 2) (lit 0) (lit 0)) zero3 [] None.

Definition orbitObject (child : nat) : Object3D num :=
  mkObject3D KObject3D zero3 zero3 [child] None.

Definition ringObject (planetData : PlanetData num) : Object3D num :=
  mkObject3D (KMesh (RingGeometry (planetRadius planetData ⊗ lit 1.2)
                                  (planetRadius planetData ⊗ lit 1.8) 32)
                    (MeshBasicMaterial 0x8d6e63 true true (lit 0.7)))
             zero3 (mkVector3 (Math_PI ⊘ lit 2) (lit 0) (lit 0)) [] None.

(** The children a planet's mesh ends up with: the moon's orbit node, then
    the ring. *)
Definition satellites (planetData : PlanetData num) (planetMesh : nat)
    : list nat :=
  (if hasMoon planetData then [moonOrbitOf planetMesh] else []) ++
  (if hasRings planetData then [ringOf planetData planetMesh] else []).

Definition planetObject (planetData : PlanetData num) (planetMesh : nat)
    : Object3D num :=
  mkObject3D (KMesh (SphereGeometry (planetRadius planetData) 32 32)
                    (planetMaterial planetData))
             (mkVector3 (orbitRadius planetData) (lit 0) (lit 0)) zero3
             (satellites planetData planetMesh)
             (Some (mkUserData (name planetData) (funFact planetData))).

(** The heap [h] holds what the loop body makes of the entry [planetData]
    whose mesh is [planetMesh]. *)
Definition entryBuilt (h : gmap nat (Object3D num))
    (planetMesh : nat) (planetData : PlanetData num) : Prop :=
  h !! planetMesh = Some (planetObject planetData planetMesh) ∧
  h !! orbitOf planetMesh = Some (orbitObject planetMesh) ∧
  (hasMoon planetData = true →
     h !! moonOf planetMesh = Some moonObject ∧
     h !! moonOrbitOf planetMesh = Some (orbitObject (moonOf planetMesh))) ∧
  (hasRings planetData = true →
     h !! ringOf planetData planetMesh = Some (ringObject planetData)).

(** The parts of the page the loop has no business with. *)
Definition page (w : World num)
    : bool * Tooltip num * option Display * list N * N * (num * num) :=
  (animationActive w, tooltip w, gifOverlay w, timers w, now w,
   (innerWidth w, innerHeight w)).


(** The hits of a ray on a planet, on its moon and on its ring, in the order
    the descent of [intersect] meets them. *)
Definition entryHits (ray : Ray) (h : gmap nat (Object3D num))
    (planetData : PlanetData num) (planetMesh : nat)
    : list (Intersection num) :=
  raycast ray h planetMesh ++
  (if hasMoon planetData then raycast ray h (moonOf planetMesh) else []) ++
  (if hasRings planetData
   then raycast ray h (ringOf planetData planetMesh) else []).


(** [h] holds the objects of [h0], changed at most in [rotation.y]. *)
Definition kept (h0 h : gmap nat (Object3D num)) : Prop :=
  ∀ id o, h0 !! id = Some o → ∃ o', h !! id = Some o' ∧ sameButRotationY o o'.


(** The two lights and the sun, as lines 27-32 and 54-57 leave them. *)
Definition ambientLightObject : Object3D num :=
  mkObject3D KLight zero3 zero3 [] None.

Definition directionalLightObject : Object3D num :=
  mkObject3D KLight (mkVector3 (lit 50) (lit 50) (lit 50)) zero3 [] None.

Definition sunObject : Object3D num :=
  mkObject3D (KMesh (SphereGeometry (lit 4) 32 32)
                    (MeshBasicMaterial 0xffff00 false false (lit 1)))
             zero3 zero3 [] None.


Definition isResize (ev : Event num) : bool :=
  match ev with Resize _ _ => true | _ => false end.

End App.

(** ** Concrete libraries for running the model

    A ray is given by what it hits: for every object of the scene, the
    distances at which it enters that object.  The camera sends every pointer
    position to the same ray [r]. *)
Definition oracle (num : Type) (r : Object3D num → list num) (recursive : bool)
    : Three num := {|
  Camera := unit;
  Ray := Object3D num → list num;
  newCamera _ := tt;
  setAspect _ c := c;
  controlsUpdate c := c;
  controlsEvent _ c := c;
  setFromCamera _ _ := r;
  raycastMesh ray h id := default [] (ray <$> h !! id);
  recursiveDefault := recursive;
|}.

(** ** Laws an arithmetic may obey

    The rationals obey all four sets of laws.  Binary64 obeys the second
    and the fourth; it does not obey the first (its sum rounds, so it is not
    associative) nor the third (a NaN is neither below nor above any
    number).  All of this is proved below. *)

(** [+] and [*] form a commutative semiring. *)
Definition ExactArith (num : Type) `{JsNumber num} : Prop :=
  semi_ring_theory (lit 0) (lit 1) nadd nmul eq.

(** [+] and [*] respect the order on the nonnegative side.  The laws speak
    of "not below" rather than of "at or above", so that they hold of every
    binary64 value under round to nearest, NaN and the infinities included
    (a NaN is below nothing, and nothing is below it), as well as of the
    rationals: rounding is monotone, so adding what is not negative to [r']
    gives nothing below what [r'] was not below. *)
Record OrderedArith (num : Type) `{JsNumber num} : Prop := {
  not_below_self : ∀ a, nltb a a = false;
  nleb_not_below : ∀ a b, nleb a b = true → nltb b a = false;
  lit_not_negative : ∀ q, (0 <= q)%Q → nltb (lit q) (lit 0) = false;
  nmul_not_negative : ∀ a b,
    nltb a (lit 0) = false → nltb b (lit 0) = false →
    nltb (nmul a b) (lit 0) = false;
  nadd_not_below : ∀ r r' a,
    nltb r' r = false → nltb a (lit 0) = false → nltb (nadd r' a) r = false;
}.

(** [<] is a strict weak order (as on the rationals, and on the doubles
    other than NaN), and the sign of a difference tells the order. *)
Record StrictWeakOrder (num : Type) `{JsNumber num} : Prop := {
  nltb_asym : ∀ a b, nltb a b = true → nltb b a = false;
  nltb_negtrans : ∀ a b c,
    nltb a b = true → nltb a c = true ∨ nltb c b = true;
  nsub_pos : ∀ a b, nltb (lit 0) (nsub a b) = nltb b a;
}.

(** [x] is a number: JavaScript's [x <= x], false of NaN alone. *)
Definition isNumber {num : Type} `{JsNumber num} (x : num) : bool := nleb x x.

(** [<] orders the numbers (the values other than NaN, the infinities
    included) as a strict weak order, and between numbers the sign of a
    difference tells the order. *)
Record NumberOrder (num : Type) `{JsNumber num} : Prop := {
  number_asym : ∀ a b, nltb a b = true → nltb b a = false;
  number_negtrans : ∀ a b c,
    isNumber c = true → nltb a b = true →
    nltb a c = true ∨ nltb c b = true;
  number_sub_pos : ∀ a b,
    isNumber a = true → isNumber b = true →
    nltb (lit 0) (nsub a b) = nltb b a;
}.

(** ** Binary64 by value

    The vocabulary in which the laws of order are proved of binary64, over
    the Standard Library's specification of the primitive numbers
    ([SpecFloat]; [FloatAxioms] ties the primitive operations to it). *)

(** The value of a finite binary64 number with mantissa [m] and exponent
    [e], in units of the least subnormal, 2^-1074. *)
Definition units (m : positive) (e : Z) : Z := (Zpos m * 2 ^ (e + 1074))%Z.

(** The value of a number other than NaN, in the same units; the infinities
    lie beyond every finite value. *)
Definition SFval (x : spec_float) : Z :=
  match x with
  | S754_zero _ | S754_nan => 0%Z
  | S754_infinity s => cond_Zopp s (2 ^ 2098)%Z
  | S754_finite s m e => cond_Zopp s (units m e)
  end.

Definition SFnan (x : spec_float) : bool :=
  match x with S754_nan => true | _ => false end.

(** The sign bit of a value other than NaN is [s]. *)
Definition SFsigned (s : bool) (x : spec_float) : Prop :=
  match x with
  | S754_nan => True
  | S754_zero s' | S754_infinity s' | S754_finite s' _ _ => s' = s
  end.

(** A NaN, a zero of either sign, or a positive value. *)
Definition SFnotneg (x : spec_float) : Prop :=
  match x with
  | S754_infinity true | S754_finite true _ _ => False
  | _ => True
  end.

Section Rounding.
Local Open Scope Z_scope.

(** [n] shifts divide by 2^n, and lose nothing when 2^n divides. *)
Definition shifted (n : Z) (mrs mrs' : shr_record) : Prop :=
  shr_m mrs' = Z.div (shr_m mrs) (2 ^ n) ∧
  (Z.modulo (shr_m mrs) (2 ^ n) = 0 → shr_r mrs = false → shr_s mrs = false →
   shr_r mrs' = false ∧ shr_s mrs' = false).

(** The bits of [X] beyond 53, which rounding drops. *)
Definition rshift (X : Z) : Z := Z.max (Z.log2 X + 1 - 53) 0.

(** [z] is [X] units rounded, with sign [s]: a multiple [q] of
    2^[rshift X] next to [X], [X] itself where that is exact; an infinity
    only beyond the largest finite number. *)
Definition rounded (s : bool) (X : Z) (z : spec_float) : Prop :=
  ∃ q, (Z.div X (2 ^ rshift X) ≤ q ≤ Z.div X (2 ^ rshift X) + 1) ∧
       (Z.modulo X (2 ^ rshift X) = 0 → q = Z.div X (2 ^ rshift X)) ∧
       ((z = S754_infinity s ∧ 2 ^ 2098 ≤ q * 2 ^ rshift X) ∨
        (∃ m e, z = S754_finite s m e ∧ bounded 53 1024 m e = true ∧
                units m e = q * 2 ^ rshift X)).

End Rounding.

(** ** Concrete scenes *)

(** Rays, by what they hit. *)
Definition missesAll {num : Type} : Object3D num → list num := λ _, [].

Definition hitsPlanet {num : Type} (n : string) (d : num)
    : Object3D num → list num :=
  λ o, if bool_decide (ud_name <$> userData o = Some n) then [d] else [].

Definition hitsMoonOnly {num : Type} (d : num) : Object3D num → list num :=
  λ o, match kind o with
       | KMesh _ (MeshStandardMaterialMap url) =>
           if bool_decide (url = moonTexture) then [d] else []
       | _ => []
       end.

(** The ray enters the moon at [d1] and Earth, behind it, at [d2]. *)
Definition hitsMoonThenEarth {num : Type} (d1 d2 : num)
    : Object3D num → list num :=
  λ o, hitsMoonOnly d1 o ++ hitsPlanet "Earth" d2 o.

(** The ray crosses Saturn's ring, and nothing else, at [d]. *)
Definition hitsRingOnly {num : Type} (d : num) : Object3D num → list num :=
  λ o, match kind o with
       | KMesh (RingGeometry _ _ _) _ => [d]
       | _ => []
       end.

(** The stock scene in an 800 x 600 window, on binary64 and on rationals. *)
Definition stockFloat (r : Object3D float → list float) (recursive : bool)
    : @World float (oracle float r recursive) :=
  @setup float _ (oracle float r recursive) planetsData (lit 800) (lit 600).

Definition stockQc (r : Object3D Qc → list Qc) (recursive : bool)
    : @World Qc (oracle Qc r recursive) :=
  @setup Qc _ (oracle Qc r recursive) planetsData (lit 800) (lit 600).







(** The stock scene under rays through Mars, through the moon, through the
    moon with Earth behind it, and through Saturn's ring, with the descent
    into children that [intersectObjects] makes by default. *)
Definition marsWorld := stockFloat (hitsPlanet "Mars" (lit 70)) true.
Definition moonWorld := stockFloat (hitsMoonOnly (lit 60)) true.
Definition moonEarthWorld := stockFloat (hitsMoonThenEarth (lit 60) (lit 65)) true.
Definition ringWorld := stockFloat (hitsRingOnly (lit 50)) true.

(** A pointer event in the 800 x 600 window. *)
Definition pointer : MouseEvent float := mkMouseEvent (lit 410) (lit 290).

(** * Properties *)

Section Frame.
Context {num : Type} {NUM : JsNumber num} {THREE : Three num}.

(** ** What [forEach] over [update] does to the world *)

Lemma set_heap_id (w : World num) : set_heap (λ h, h) w = w.
Proof. by destruct w. Qed.

Lemma forEach_update (items : list (OrbitItem num)) (delta : num) (w : World num) :
  exec (forEach items (λ item, update (group item) (spin item delta))) w
  = set_heap (spinAll items delta) w.
Proof.
  revert w. induction items as [|item items IH]; intros w.
  - unfold exec; simpl. symmetry. apply set_heap_id.
  - unfold exec in *. simpl. unfold bind. simpl. rewrite IH.
    reflexivity.
Qed.

Lemma animate_running (delta : num) (w : World num) :
  animationActive w = true →
  exec (animate delta) w
  = set_camera (controlsUpdate (camera w))
      (set_heap (spinAll (planetOrbits w) delta) w).
Proof.
  intros Hact. unfold animate, exec, bind, when. simpl. rewrite Hact.
  change ((forEach (planetOrbits w)
            (λ item, update (group item) (spin item delta)) w).2)
    with (exec (forEach (planetOrbits w)
            (λ item, update (group item) (spin item delta))) w).
  rewrite forEach_update. reflexivity.
Qed.

Lemma animate_paused (delta : num) (w : World num) :
  animationActive w = false →
  exec (animate delta) w = set_camera (controlsUpdate (camera w)) w.
Proof.
  intros Hact. unfold animate, exec, bind, when. simpl. by rewrite Hact.
Qed.

Lemma forEach_hide (l : list N) (w : World num) :
  exec (forEach l (λ _, hideGifOverlay)) w
  = match l with [] => w | _ :: _ => set_gifOverlay (Some display_none) w end.
Proof.
  revert w. induction l as [|d l IH]; intros w; [done|].
  unfold exec in *. simpl. unfold bind. simpl. rewrite IH.
  by destruct l.
Qed.

Lemma runTimers_unfold (t : N) (w : World num) :
  exec (runTimers t) w
  = match List.filter (λ d, (d <=? t)%N) (timers w) with
    | [] => set_timers (List.filter (λ d, negb (d <=? t)%N) (timers w)) (set_now t w)
    | _ :: _ =>
        set_gifOverlay (Some display_none)
          (set_timers (List.filter (λ d, negb (d <=? t)%N) (timers w)) (set_now t w))
    end.
Proof.
  unfold runTimers, exec.
  change ((forEach ?l ?f ?w').2) with (exec (forEach l f) w').
  apply forEach_hide.
Qed.

(** ** What a frame leaves alone *)


Lemma sameButRotationY_refl (o : Object3D num) : sameButRotationY o o.
Proof. by repeat split. Qed.

Lemma sameButRotationY_spin (item : OrbitItem num) (delta : num)
    (o o' : Object3D num) :
  sameButRotationY o o' → sameButRotationY o (spin item delta o').
Proof. intros (?&?&?&?&?&?). by repeat split. Qed.

Lemma spinAll_lookup_None items delta (h : gmap nat (Object3D num)) id :
  h !! id = None → spinAll items delta h !! id = None.
Proof.
  revert h. induction items as [|item items IH]; intros h Hid; [done|].
  simpl. apply IH. rewrite lookup_alter. case_decide; [subst|done].
  by rewrite Hid.
Qed.

Lemma spinAll_lookup_Some items delta (h : gmap nat (Object3D num)) id o :
  h !! id = Some o →
  ∃ o', spinAll items delta h !! id = Some o' ∧ sameButRotationY o o'.
Proof.
  revert h o. induction items as [|item items IH]; intros h o Hid.
  - exists o. split; [done|apply sameButRotationY_refl].
  - simpl. destruct (decide (group item = id)) as [->|Hne].
    + destruct (IH (alter (spin item delta) id h) (spin item delta o))
        as (o' & Ho' & Hsame).
      { by rewrite lookup_alter_eq, Hid. }
      exists o'. split; [done|].
      destruct Hsame as (?&?&?&?&?&?). by repeat split.
    + apply IH. by rewrite lookup_alter_ne.
Qed.

Lemma spinAll_lookup_other items delta (h : gmap nat (Object3D num)) id :
  id ∉ group <$> items → spinAll items delta h !! id = h !! id.
Proof.
  revert h. induction items as [|item items IH]; intros h Hid; [done|].
  simpl in *. apply not_elem_of_cons in Hid as [Hne Hid].
  rewrite IH by done. by rewrite lookup_alter_ne.
Qed.

(** ** The pause flag *)

Lemma animationActive_animate delta (w : World num) :
  animationActive (exec (animate delta) w) = animationActive w.
Proof.
  destruct (animationActive w) eqn:Hact.
  - by rewrite animate_running.
  - by rewrite animate_paused.
Qed.

Lemma animationActive_runTimers t (w : World num) :
  animationActive (exec (runTimers t) w) = animationActive w.
Proof. rewrite runTimers_unfold. by destruct (List.filter _ _). Qed.

Lemma animationActive_onMouseMove e (w : World num) :
  animationActive (exec (onMouseMove e) w) = animationActive w.
Proof.
  unfold onMouseMove, exec, bind. simpl.
  by destruct (intersectObjects _ _ _ _).
Qed.

Lemma animationActive_onClick e (w : World num) :
  animationActive (exec (onClick e) w) = animationActive w.
Proof.
  unfold onClick, exec, bind. simpl.
  destruct (intersectObjects _ _ _ _) as [|hit hits]; [done|].
  unfold when. case_bool_decide; [|done].
  unfold showGifOverlay, bind. simpl. by destruct (gifOverlay _).
Qed.

(** ** C6: the pause state machine *)

(** C6.  The animation state is [Running] or [Paused] and nothing else (it
    is read off the boolean [animationActive]); the script starts in
    [Running], whatever the catalog and the window; [mousedown] leads to
    [Paused] and [mouseup] to [Running] from every state; a pointer move, a
    click, a resize, a frame or a timer callback leave the state as it is. *)
Theorem pause_state_machine :
  (∀ w : World num, animationState w = Running ∨ animationState w = Paused) ∧
  (∀ catalog iw ih, animationState (setup catalog iw ih) = Running) ∧
  (∀ w : World num, animationState (step w MouseDown) = Paused) ∧
  (∀ w : World num, animationState (step w MouseUp) = Running) ∧
  (∀ (w : World num) ev, ev ≠ MouseDown → ev ≠ MouseUp →
     animationState (step w ev) = animationState w).
Proof.
  split; [|split; [|split; [|split]]].
  - intros w. unfold animationState. destruct (animationActive w); auto.
  - intros catalog iw ih. reflexivity.
  - intros w. reflexivity.
  - intros w. reflexivity.
  - intros w ev Hdown Hup. unfold animationState, step.
    enough (animationActive (exec (dispatch ev) w) = animationActive w) as ->
      by done.
    destruct ev as [| |e|e|iw ih|delta|ms]; try done.
    + apply (animationActive_onMouseMove e (set_camera _ w)).
    + apply (animationActive_onClick e (set_camera _ w)).
    + apply (animationActive_animate delta (set_camera _ w)).
    + apply (animationActive_runTimers _ (set_camera _ w)).
Qed.

(** ** C4: frames while paused *)

Lemma step_Frame_paused delta (w : World num) :
  animationActive w = false →
  heap (step w (Frame delta)) = heap w ∧
  animationActive (step w (Frame delta)) = false.
Proof.
  intros Hact.
  change (step w (Frame delta))
    with (exec (animate delta)
            (set_camera (controlsEvent (Frame delta) (camera w)) w)).
  by rewrite animate_paused.
Qed.

Lemma run_Frames_paused deltas (w : World num) :
  animationActive w = false →
  heap (run (Frame <$> deltas) w) = heap w.
Proof.
  revert w. induction deltas as [|delta deltas IH]; intros w Hact; [done|].
  destruct (step_Frame_paused delta w Hact) as [Hheap Hact'].
  change (run (Frame <$> delta :: deltas) w)
    with (run (Frame <$> deltas) (step w (Frame delta))).
  rewrite IH by done. exact Hheap.
Qed.

(** C4.  While [animationActive] is false, any number of frames, with any
    values of [clock.getDelta()], leaves the rotation angle of every node
    where it was (the whole heap is left as it is). *)
Theorem pause_invariant (w : World num) (deltas : list num) :
  animationActive w = false →
  ∀ id, rotation_y (run (Frame <$> deltas) w) id = rotation_y w id.
Proof.
  intros Hact id. unfold rotation_y. by rewrite run_Frames_paused.
Qed.

(** ** C9: what a frame may change *)

(** C9.  The frame callback keeps the animation entries (nodes and speeds),
    the pickable registry, the pause flag and the shape of the heap; an
    object no entry lists is untouched, and a listed one changes at most in
    [rotation.y]: its kind, position offset, children, user data and its
    rotation about the other two axes stay. *)
Theorem animate_frame (delta : num) (w : World num) :
  planetOrbits (exec (animate delta) w) = planetOrbits w ∧
  hoverablePlanets (exec (animate delta) w) = hoverablePlanets w ∧
  animationActive (exec (animate delta) w) = animationActive w ∧
  (∀ id, id ∉ group <$> planetOrbits w →
     heap (exec (animate delta) w) !! id = heap w !! id) ∧
  (∀ id o, heap w !! id = Some o →
     ∃ o', heap (exec (animate delta) w) !! id = Some o' ∧
           sameButRotationY o o') ∧
  (∀ id, heap w !! id = None → heap (exec (animate delta) w) !! id = None).
Proof.
  destruct (animationActive w) eqn:Hact.
  - rewrite animate_running by done. simpl. repeat split; try done.
    + intros id Hid. by apply spinAll_lookup_other.
    + intros id o Hid. by apply spinAll_lookup_Some.
    + intros id Hid. by apply spinAll_lookup_None.
  - rewrite animate_paused by done. simpl. repeat split; try done.
    intros id o Hid. exists o. split; [done|apply sameButRotationY_refl].
Qed.


(** ** The registries are built once *)

Lemma registries_step (w : World num) (ev : Event num) :
  registries (step w ev) = registries w.
Proof.
  unfold step.
  destruct ev as [| |e|e|iw ih|delta|ms]; try reflexivity.
  - unfold dispatch, onMouseMove, exec, bind. simpl.
    by destruct (intersectObjects _ _ _ _).
  - unfold dispatch, onClick, exec, bind. simpl.
    destruct (intersectObjects _ _ _ _) as [|hit hits]; [done|].
    unfold when. case_bool_decide; [|done].
    unfold showGifOverlay, bind. simpl. by destruct (gifOverlay _).
  - change (exec (dispatch (Frame delta)) w)
      with (exec (animate delta)
              (set_camera (controlsEvent (Frame delta) (camera w)) w)).
    destruct (animationActive w) eqn:Hact.
    + by rewrite animate_running.
    + by rewrite animate_paused.
  - change (exec (dispatch (Elapse ms)) w)
      with (exec (runTimers (now w + ms))
              (set_camera (controlsEvent (Elapse ms) (camera w)) w)).
    rewrite runTimers_unfold. by destruct (List.filter _ _).
Qed.

Lemma registries_run (evs : list (Event num)) (w : World num) :
  registries (run evs w) = registries w.
Proof.
  revert w. induction evs as [|ev evs IH]; intros w; [done|].
  change (run (ev :: evs) w) with (run evs (step w ev)).
  by rewrite IH, registries_step.
Qed.

Lemma planetOrbits_run (evs : list (Event num)) (w : World num) :
  planetOrbits (run evs w) = planetOrbits w.
Proof.
  pose proof (registries_run evs w) as Hreg. unfold registries in Hreg.
  congruence.
Qed.

Lemma hoverablePlanets_run (evs : list (Event num)) (w : World num) :
  hoverablePlanets (run evs w) = hoverablePlanets w.
Proof.
  pose proof (registries_run evs w) as Hreg. unfold registries in Hreg.
  congruence.
Qed.


(** ** C8: picking is a function of pointer, camera and scene *)

Lemma pick_result (event : MouseEvent num) (w : World num) :
  (pick event w).1
  = intersectObjects (setFromCamera (normalized w event) (camera w))
      (heap w) (hoverablePlanets w) recursiveDefault.
Proof. reflexivity. Qed.

Lemma pick_frame (event : MouseEvent num) (w : World num) :
  camera (exec (pick event) w) = camera w ∧
  heap (exec (pick event) w) = heap w ∧
  hoverablePlanets (exec (pick event) w) = hoverablePlanets w ∧
  innerWidth (exec (pick event) w) = innerWidth w ∧
  innerHeight (exec (pick event) w) = innerHeight w.
Proof. by repeat split. Qed.

Lemma pick_congruence (w1 w2 : World num) (e1 e2 : MouseEvent num) :
  camera w1 = camera w2 →
  heap w1 = heap w2 →
  hoverablePlanets w1 = hoverablePlanets w2 →
  normalized w1 e1 = normalized w2 e2 →
  (pick e1 w1).1 = (pick e2 w2).1.
Proof.
  intros Hcam Hheap Hreg Hptr. rewrite !pick_result.
  by rewrite Hcam, Hheap, Hreg, Hptr.
Qed.

(** A call right after another one, with the same event, repeats it: the
    [mouse] vector and the ray the first call left behind are overwritten
    before they are read. *)
Lemma pick_twice (event : MouseEvent num) (w : World num) :
  (pick event (exec (pick event) w)).1 = (pick event w).1.
Proof.
  destruct (pick_frame event w) as (Hcam & Hheap & Hreg & Hiw & Hih).
  by apply pick_congruence.
Qed.

(** C8.  Two calls of [pick] made with the same camera, the same scene
    objects and registry, and pointer positions with the same normalized
    coordinates return the same list of hits, hence the same body or both
    none; whatever else differs between the two states (the stale [mouse]
    vector and ray of an earlier call, tooltip, overlay, timers, pause flag)
    has no influence. *)
Theorem pick_deterministic (w1 w2 : World num) (e1 e2 : MouseEvent num) :
  camera w1 = camera w2 →
  heap w1 = heap w2 →
  hoverablePlanets w1 = hoverablePlanets w2 →
  normalized w1 e1 = normalized w2 e2 →
  (pick e1 w1).1 = (pick e2 w2).1 ∧ picked e1 w1 = picked e2 w2.
Proof.
  intros Hcam Hheap Hreg Hptr.
  pose proof (pick_congruence w1 w2 e1 e2 Hcam Hheap Hreg Hptr) as Hsame.
  split; [exact Hsame|]. unfold picked. by rewrite Hsame.
Qed.

(** ** C1: the overlay timer *)

Lemma showGifOverlay_unfold (w : World num) :
  exec showGifOverlay w
  = set_timers (timers w ++ [(now w + 5000)%N])
      (set_gifOverlay (Some display_block) w).
Proof.
  unfold showGifOverlay, exec, bind. simpl. by destruct (gifOverlay w).
Qed.

Lemma runTimers_due (t d : N) (w : World num) :
  d ∈ timers w → (d ≤ t)%N →
  gifOverlay (exec (runTimers t) w) = Some display_none.
Proof.
  intros Hd Hle. rewrite runTimers_unfold.
  destruct (List.filter _ (timers w)) as [|d' l] eqn:Hdue; [|done].
  assert (In d (List.filter (λ d, (d <=? t)%N) (timers w))) as Hin.
  { apply filter_In. split; [by apply list_elem_of_In|by apply N.leb_le]. }
  rewrite Hdue in Hin. destruct Hin.
Qed.

Lemma runTimers_pending (t d : N) (w : World num) :
  d ∈ timers w → (t < d)%N → d ∈ timers (exec (runTimers t) w).
Proof.
  intros Hd Hlt.
  assert (d ∈ List.filter (λ d, negb (d <=? t)%N) (timers w)) as Hin.
  { apply list_elem_of_In, filter_In. split; [by apply list_elem_of_In|].
    apply negb_true_iff, N.leb_gt. done. }
  rewrite runTimers_unfold. by destruct (List.filter (λ d, (d <=? t)%N) _).
Qed.

Lemma now_runTimers (t : N) (w : World num) : now (exec (runTimers t) w) = t.
Proof. rewrite runTimers_unfold. by destruct (List.filter _ _). Qed.

Lemma step_Click_clicksMars (w : World num) (event : MouseEvent num) :
  clicksMars w event →
  gifOverlay (step w (Click event)) = Some display_block ∧
  timers (step w (Click event)) = timers w ++ [(now w + 5000)%N] ∧
  now (step w (Click event)) = now w.
Proof.
  intros (hit & Hhead & Hname).
  unfold step, dispatch, exec, onClick, pick, bind. simpl.
  unfold pick, bind in Hhead. simpl in Hhead.
  destruct (intersectObjects _ _ _ _) as [|hit' hits]; [done|].
  injection Hhead as ->. unfold when.
  change (userData_name _ (object hit)) with (userData_name w (object hit)).
  rewrite Hname, bool_decide_eq_true_2 by done.
  unfold showGifOverlay, bind. simpl. by destruct (gifOverlay w).
Qed.

Lemma step_Elapse (w : World num) (ms : N) :
  gifOverlay (step w (Elapse ms))
    = match List.filter (λ d, (d <=? now w + ms)%N) (timers w) with
      | [] => gifOverlay w
      | _ :: _ => Some display_none
      end ∧
  timers (step w (Elapse ms))
    = List.filter (λ d, negb (d <=? now w + ms)%N) (timers w) ∧
  now (step w (Elapse ms)) = (now w + ms)%N.
Proof.
  change (step w (Elapse ms))
    with (exec (runTimers (now w + ms))
            (set_camera (controlsEvent (Elapse ms) (camera w)) w)).
  rewrite runTimers_unfold. simpl. by destruct (List.filter _ _).
Qed.

(** C1, as amended.  With no dismissal pending, let a click on Mars show the
    overlay and a second click on Mars come [d1] < 5000 ms later.  The
    second click adds a dismissal of its own and leaves the first one
    pending; the overlay is visible after it; [d2] ms later the overlay is
    still visible if less than 5000 ms have passed since the first click,
    and hidden as soon as 5000 ms have passed since the first click,
    whatever the time since the second. *)
Theorem overlay_timer_not_rearmed (w : World num) (e1 e2 : MouseEvent num)
    (d1 d2 : N) :
  timers w = [] → (d1 < 5000)%N →
  clicksMars w e1 →
  clicksMars (run [Click e1; Elapse d1] w) e2 →
  timers (run [Click e1; Elapse d1; Click e2] w)
    = [(now w + 5000)%N; (now w + d1 + 5000)%N] ∧
  overlayVisible (run [Click e1; Elapse d1; Click e2] w) = true ∧
  ((d1 + d2 < 5000)%N →
     overlayVisible (run [Click e1; Elapse d1; Click e2; Elapse d2] w) = true) ∧
  ((5000 ≤ d1 + d2)%N →
     overlayVisible (run [Click e1; Elapse d1; Click e2; Elapse d2] w) = false).
Proof.
  intros Hnone Hd1 Hmars1 Hmars2. unfold run in *. simpl in *.
  destruct (step_Click_clicksMars w e1 Hmars1) as (_ & Ht1 & Hn1).
  rewrite Hnone in Ht1. simpl in Ht1.
  destruct (step_Elapse (step w (Click e1)) d1) as (_ & Ht2 & Hn2).
  rewrite Ht1, Hn1 in Ht2. simpl in Ht2. rewrite Hn1 in Hn2.
  destruct (N.leb_spec (now w + 5000) (now w + d1)) as [Hle|_]; [lia|].
  simpl in Ht2.
  destruct (step_Click_clicksMars _ e2 Hmars2) as (Hg3 & Ht3 & Hn3).
  rewrite Ht2, Hn2 in Ht3. simpl in Ht3. rewrite Hn2 in Hn3.
  split; [exact Ht3|]. unfold overlayVisible. rewrite Hg3.
  split; [done|].
  destruct (step_Elapse (step (step (step w (Click e1)) (Elapse d1)) (Click e2)) d2)
    as (Hg4 & _ & _).
  rewrite Hg4, Ht3, Hn3, Hg3. simpl.
  split; intros Hd2.
  - destruct (N.leb_spec (now w + 5000) (now w + d1 + d2)) as [Hle|_]; [lia|].
    destruct (N.leb_spec (now w + d1 + 5000) (now w + d1 + d2)) as [Hle|_];
      [lia|]. reflexivity.
  - destruct (N.leb_spec (now w + 5000) (now w + d1 + d2)) as [_|Hgt]; [|lia].
    reflexivity.
Qed.

End Frame.

(** ** Two frames against one, in exact arithmetic *)

Section Linearity.
Context {num : Type} {NUM : JsNumber num} {THREE : Three num}.
Hypothesis exact : ExactArith num.
Local Open Scope num_scope.

Lemma increment_add (s t1 t2 : num) :
  s ⊗ (t1 ⊕ t2) ⊗ lit 60 = s ⊗ t1 ⊗ lit 60 ⊕ s ⊗ t2 ⊗ lit 60.
Proof.
  rewrite (SRmul_comm exact s (t1 ⊕ t2)), (SRdistr_l exact).
  rewrite (SRmul_comm exact t1 s), (SRmul_comm exact t2 s).
  apply (SRdistr_l exact).
Qed.

Lemma spin_spin (item : OrbitItem num) (t1 t2 : num) (o : Object3D num) :
  spin item t2 (spin item t1 o) = spin item (t1 ⊕ t2) o.
Proof.
  unfold spin, rotation_set. simpl. do 2 f_equal.
  by rewrite increment_add, (SRadd_assoc exact).
Qed.

Lemma spin_commute (a b : OrbitItem num) (t1 t2 : num) (o : Object3D num) :
  spin a t1 (spin b t2 o) = spin b t2 (spin a t1 o).
Proof.
  unfold spin, rotation_set. simpl. do 2 f_equal.
  rewrite <- !(SRadd_assoc exact). f_equal. apply (SRadd_comm exact).
Qed.

Lemma alter_spin_commute (a b : OrbitItem num) (t1 t2 : num)
    (h : gmap nat (Object3D num)) :
  alter (spin a t1) (group a) (alter (spin b t2) (group b) h)
  = alter (spin b t2) (group b) (alter (spin a t1) (group a) h).
Proof.
  destruct (decide (group a = group b)) as [Heq|Hne].
  - rewrite Heq, !alter_alter_eq. apply alter_ext.
    intros o _. apply spin_commute.
  - by apply alter_alter_ne.
Qed.

Lemma spinAll_alter_commute items (a : OrbitItem num) (t1 t2 : num)
    (h : gmap nat (Object3D num)) :
  spinAll items t2 (alter (spin a t1) (group a) h)
  = alter (spin a t1) (group a) (spinAll items t2 h).
Proof.
  revert h. induction items as [|b items IH]; intros h; [done|].
  simpl. rewrite <- IH. f_equal. apply alter_spin_commute.
Qed.

Lemma spinAll_spinAll items (t1 t2 : num) (h : gmap nat (Object3D num)) :
  spinAll items t2 (spinAll items t1 h) = spinAll items (t1 ⊕ t2) h.
Proof.
  revert h. induction items as [|a items IH]; intros h; [done|].
  simpl. rewrite (spinAll_alter_commute items a t1 t1), alter_alter_eq.
  rewrite (alter_ext _ (spin a (t1 ⊕ t2))) by (intros o _; apply spin_spin).
  rewrite !spinAll_alter_commute. by rewrite IH.
Qed.

(** In an arithmetic that is a commutative semiring (the rationals, the
    reals), a running frame of [t1] seconds followed by one of [t2] seconds
    leaves every node at the rotation angle one frame of [t1 + t2] seconds
    gives it. *)
Theorem advance_linear_exact (w : World num) (t1 t2 : num) :
  animationActive w = true →
  ∀ id, rotation_y (exec (animate t2) (exec (animate t1) w)) id
        = rotation_y (exec (animate (t1 ⊕ t2)) w) id.
Proof.
  intros Hact id. unfold rotation_y.
  rewrite (animate_running t1 w Hact).
  rewrite (animate_running (t1 ⊕ t2) w Hact).
  rewrite animate_running by done. simpl.
  by rewrite spinAll_spinAll.
Qed.

End Linearity.

(** ** C10: rotation angles never decrease *)

Section Monotone.
Context {num : Type} {NUM : JsNumber num} {THREE : Three num}.
Hypothesis ordered : OrderedArith num.
Local Open Scope num_scope.

Lemma spin_mono (item : OrbitItem num) (delta a : num) (o : Object3D num) :
  nonnegSpeed item → nltb delta (lit 0) = false →
  nltb (vy (rotation o)) a = false →
  nltb (vy (rotation (spin item delta o))) a = false.
Proof.
  intros Hs Hd Ha. simpl. apply (nadd_not_below _ ordered); [done|].
  apply (nmul_not_negative _ ordered).
  - by apply (nmul_not_negative _ ordered).
  - by apply (lit_not_negative _ ordered).
Qed.

Lemma spinAll_mono items (delta a : num) (h : gmap nat (Object3D num)) id o :
  Forall nonnegSpeed items → nltb delta (lit 0) = false →
  h !! id = Some o → nltb (vy (rotation o)) a = false →
  ∃ o', spinAll items delta h !! id = Some o' ∧
        nltb (vy (rotation o')) a = false.
Proof.
  intros Hitems Hd. revert h o.
  induction Hitems as [|item items Hitem _ IH]; intros h o Hid Ha.
  - by exists o.
  - simpl. destruct (decide (group item = id)) as [->|Hne].
    + apply (IH _ (spin item delta o)).
      * by rewrite lookup_alter_eq, Hid.
      * by apply spin_mono.
    + apply (IH _ o); [|done]. by rewrite lookup_alter_ne.
Qed.

Lemma stock_speeds_nonneg (iw ih : num) :
  Forall nonnegSpeed (planetOrbits (setup planetsData iw ih)).
Proof.
  assert (speed <$> planetOrbits (setup planetsData iw ih)
          = lit <$> [0.02; 0.015; 0.01; 0.05; 0.008; 0.005; 0.003; 0.002; 0.001]%Q)
    as Hspeeds by (vm_compute; reflexivity).
  change (Forall ((λ s, nltb s (lit 0) = false) ∘ speed)
            (planetOrbits (setup planetsData iw ih))).
  apply Forall_fmap. rewrite Hspeeds. apply Forall_fmap, Forall_forall.
  intros q Hq. apply (lit_not_negative _ ordered).
  revert q Hq. apply Forall_forall. repeat constructor; discriminate.
Qed.

(** C10.  In an arithmetic whose order [+] and [*] respect (binary64 and
    the rationals alike, [float_ordered] and [Qc_ordered] below): none of the nine speeds the stock catalog puts
    into the animation entries is negative, and in every state the page can
    reach, running or paused, a frame with [delta >= 0] leaves no node's
    rotation angle below its earlier value. *)
Theorem rotation_monotone (iw ih : num) :
  Forall (λ item, nltb (speed item) (lit 0) = false)
         (planetOrbits (setup planetsData iw ih)) ∧
  ∀ (evs : list (Event num)) (delta : num) (id : nat) (a : num),
    nleb (lit 0) delta = true →
    rotation_y (run evs (setup planetsData iw ih)) id = Some a →
    ∃ b, rotation_y (step (run evs (setup planetsData iw ih)) (Frame delta)) id
         = Some b ∧ nltb b a = false.
Proof.
  split; [apply stock_speeds_nonneg|].
  intros evs delta id a Hd%(nleb_not_below _ ordered) Ha.
  set (w := run evs (setup planetsData iw ih)) in *.
  assert (Forall nonnegSpeed (planetOrbits w)) as Hitems.
  { unfold w. rewrite planetOrbits_run. apply stock_speeds_nonneg. }
  unfold rotation_y in *.
  destruct (heap w !! id) as [o|] eqn:Hid; [|done].
  injection Ha as <-.
  change (step w (Frame delta))
    with (exec (animate delta)
            (set_camera (controlsEvent (Frame delta) (camera w)) w)).
  destruct (animationActive w) eqn:Hact.
  - rewrite animate_running by done. simpl.
    destruct (spinAll_mono (planetOrbits w) delta (vy (rotation o))
                (heap w) id o) as (o' & -> & Hle); try done.
    { apply (not_below_self _ ordered). }
    by exists (vy (rotation o')).
  - rewrite animate_paused by done. simpl. rewrite Hid.
    exists (vy (rotation o)). split; [done|apply (not_below_self _ ordered)].
Qed.

End Monotone.

(** ** The catalog loop *)

Section Build.
Context {num : Type} {NUM : JsNumber num} {THREE : Three num}.

Lemma has_insert_eq id (P : Object3D num → Prop) o h :
  P o → has id P (<[id:=o]> h).
Proof. intros HP. exists o. by rewrite lookup_insert_eq. Qed.

Lemma has_insert_ne id k (P : Object3D num → Prop) o h :
  id ≠ k → has id P h → has id P (<[k:=o]> h).
Proof. intros Hne (o' & Hid & HP). exists o'. by rewrite lookup_insert_ne. Qed.

Lemma has_alter_ne id k (P : Object3D num → Prop) f h :
  id ≠ k → has id P h → has id P (alter f k h).
Proof. intros Hne (o' & Hid & HP). exists o'. by rewrite lookup_alter_ne. Qed.

Lemma has_alter id k (P Q : Object3D num → Prop) f h :
  (∀ o, P o → Q (f o)) → (∀ o, P o → Q o) → has id P h → has id Q (alter f k h).
Proof.
  intros Hf HPQ (o & Hid & HP). destruct (decide (k = id)) as [->|Hne].
  - exists (f o). rewrite lookup_alter_eq, Hid. auto.
  - exists o. rewrite lookup_alter_ne by done. auto.
Qed.

Lemma has_alter_eq id (P Q : Object3D num → Prop) f h :
  (∀ o, P o → Q (f o)) → has id P h → has id Q (alter f id h).
Proof.
  intros Hf (o & Hid & HP). exists (f o). rewrite lookup_alter_eq, Hid. auto.
Qed.

Lemma rigid_push_child (P : Object3D num → Prop) c o :
  rigid P → P o → P (push_child c o).
Proof. intros HP Ho. by apply HP. Qed.

Lemma rigid_planetBuilt planetData : rigid (planetBuilt planetData).
Proof. by intros o c r (?&?&?). Qed.

Lemma has_push_child id k c (P : Object3D num → Prop) h :
  rigid P → has id P h → has id P (alter (push_child c) k h).
Proof.
  intros HP. apply has_alter; [|done]. intros o. by apply rigid_push_child.
Qed.

Ltac keep_has :=
  repeat first
    [ apply has_insert_ne; [lia|]
    | apply has_alter_ne; [lia|]
    | apply has_push_child; [assumption|] ].

(** What one turn of the loop does to the registries. *)
Lemma buildPlanet_registries (planetData : PlanetData num) (w : World num) :
  hoverablePlanets (exec (buildPlanet planetData) w)
    = hoverablePlanets w ++ [nextId w] ∧
  speed <$> planetOrbits (exec (buildPlanet planetData) w)
    = (speed <$> planetOrbits w) ++ entrySpeeds planetData ∧
  nextId (exec (buildPlanet planetData) w) = nextId w + allocated planetData ∧
  scene (exec (buildPlanet planetData) w) = scene w ∧
  sun (exec (buildPlanet planetData) w) = sun w.
Proof.
  destruct planetData as [nm orad prad col spd tex ff moon rings].
  unfold buildPlanet, exec, allocated, entrySpeeds.
  destruct moon, rings; cbn -[insert alter lookup];
    rewrite ?fmap_app, <- ?(assoc_L (++)); repeat split; try done; lia.
Qed.

(** Objects that existed before a turn keep their rigid properties. *)
Lemma buildPlanet_keeps (planetData : PlanetData num) (w : World num) id P :
  rigid P → id < nextId w → has id P (heap w) →
  has id P (heap (exec (buildPlanet planetData) w)).
Proof.
  intros HP Hid Hhas.
  destruct planetData as [nm orad prad col spd tex ff moon rings].
  unfold buildPlanet, exec.
  destruct moon, rings; cbn -[insert alter lookup]; keep_has; done.
Qed.

(** The mesh a turn creates is the entry's planet. *)
Lemma buildPlanet_mesh (planetData : PlanetData num) (w : World num) :
  has (nextId w) (planetBuilt planetData)
      (heap (exec (buildPlanet planetData) w)).
Proof.
  pose proof (rigid_planetBuilt planetData) as HP.
  unfold buildPlanet, exec.
  destruct (hasMoon planetData), (hasRings planetData);
    cbn -[insert alter lookup]; keep_has.
  all: apply (has_alter_eq _
         (λ o, kind o = KMesh (SphereGeometry (planetRadius planetData) 32 32)
                              (planetMaterial planetData) ∧
               userData o = Some (mkUserData (name planetData)
                                             (funFact planetData))));
    [by intros o [? ?]|].
  all: apply has_insert_ne; [lia|].
  all: apply (has_alter_eq _
         (λ o, kind o = KMesh (SphereGeometry (planetRadius planetData) 32 32)
                              (planetMaterial planetData)));
    [by intros o ?|].
  all: by apply has_insert_eq.
Qed.


Lemma exec_buildSystem_cons planetData catalog (w : World num) :
  exec (buildSystem (planetData :: catalog)) w
  = exec (buildSystem catalog) (exec (buildPlanet planetData) w).
Proof. reflexivity. Qed.

(** The loop, by induction on the catalog: every entry yields one registry
    member, which is its planet; earlier objects keep their rigid
    properties; the speeds are appended entry by entry. *)
Lemma buildSystem_spec (catalog : list (PlanetData num)) (w : World num) :
  ∃ ids,
    hoverablePlanets (exec (buildSystem catalog) w) = hoverablePlanets w ++ ids ∧
    Forall2 (λ id planetData,
               has id (planetBuilt planetData)
                   (heap (exec (buildSystem catalog) w))) ids catalog ∧
    Forall (λ id, nextId w ≤ id) ids ∧
    speed <$> planetOrbits (exec (buildSystem catalog) w)
      = (speed <$> planetOrbits w) ++ flat_map entrySpeeds catalog ∧
    nextId w ≤ nextId (exec (buildSystem catalog) w) ∧
    sun (exec (buildSystem catalog) w) = sun w ∧
    scene (exec (buildSystem catalog) w) = scene w ∧
    (∀ id P, rigid P → id < nextId w → has id P (heap w) →
             has id P (heap (exec (buildSystem catalog) w))).
Proof.
  revert w. induction catalog as [|planetData catalog IH]; intros w.
  - exists []. rewrite !app_nil_r. repeat split; auto.
  - rewrite exec_buildSystem_cons.
    destruct (buildPlanet_registries planetData w)
      as (Hreg & Hspeeds & Hnext & Hscene & Hsun).
    destruct (IH (exec (buildPlanet planetData) w))
      as (ids & Hreg' & Hbuilt & Hids & Hspeeds' & Hnext' & Hsun' & Hscene' & Hkeep).
    assert (0 < allocated planetData) as Halloc by (unfold allocated; lia).
    exists (nextId w :: ids). repeat split.
    + by rewrite Hreg', Hreg, <- (assoc_L (++)).
    + constructor; [|done].
      apply Hkeep; [apply rigid_planetBuilt|lia|apply buildPlanet_mesh].
    + constructor; [done|].
      eapply Forall_impl; [exact Hids|]. intros id Hid. simpl in Hid. lia.
    + rewrite Hspeeds', Hspeeds, <- (assoc_L (++)). done.
    + lia.
    + congruence.
    + congruence.
    + intros id P HP Hid Hhas. apply Hkeep; [done|lia|].
      by apply buildPlanet_keeps.
Qed.

Lemma setup_unfold (catalog : list (PlanetData num)) (iw ih : num) :
  setup catalog iw ih
  = set_animationActive true
      (exec (buildSystem catalog)
         (exec (bind createScene (λ _, createSun)) (blank iw ih))).
Proof. reflexivity. Qed.

Lemma length_entrySpeeds (catalog : list (PlanetData num)) :
  length (flat_map entrySpeeds catalog)
  = length catalog + length (List.filter hasMoon catalog).
Proof.
  induction catalog as [|planetData catalog IH]; [done|].
  simpl. rewrite length_app, IH. unfold entrySpeeds.
  destruct (hasMoon planetData); simpl; lia.
Qed.

(** The registries after setup, for any catalog. *)
Lemma setup_spec (catalog : list (PlanetData num)) (iw ih : num) :
  Forall2 (λ id planetData,
             has id (planetBuilt planetData) (heap (setup catalog iw ih)))
          (hoverablePlanets (setup catalog iw ih)) catalog ∧
  speed <$> planetOrbits (setup catalog iw ih) = flat_map entrySpeeds catalog ∧
  sun (setup catalog iw ih) ∉ hoverablePlanets (setup catalog iw ih).
Proof.
  rewrite setup_unfold.
  destruct (buildSystem_spec catalog
              (exec (bind createScene (λ _, createSun)) (blank iw ih)))
    as (ids & Hreg & Hbuilt & Hids & Hspeeds & _ & Hsun & _ & _).
  cbn [hoverablePlanets heap planetOrbits sun set_animationActive].
  rewrite Hreg, Hspeeds, Hsun. repeat split; try done.
  change (3 ∉ ids). intros Hin.
  rewrite Forall_forall in Hids. apply Hids in Hin. simpl in Hin. lia.
Qed.

(** ** C3: the stock catalog *)

(** C3.  For every catalog the loop registers one pickable mesh per entry
    and records one animation entry per entry plus one for each entry with
    [hasMoon]; for the stock catalog that is 8 orbit nodes under the scene,
    each holding the planet of the same rank, 9 animation entries (the 8
    orbit nodes in order, with the moon's node right after Earth's), and a
    registry of the 8 planet meshes Mercury to Neptune, none of which is the
    sun, the moon or the ring. *)
Theorem buildSystem_stock (iw ih : num) :
  (∀ catalog,
     length (hoverablePlanets (setup catalog iw ih)) = length catalog ∧
     length (planetOrbits (setup catalog iw ih))
       = length catalog + length (List.filter hasMoon catalog)) ∧
  length (rootNodes (setup planetsData iw ih)) = 8 ∧
  Forall2 (λ g m, children <$> heap (setup planetsData iw ih) !! g = Some [m])
          (rootNodes (setup planetsData iw ih))
          (hoverablePlanets (setup planetsData iw ih)) ∧
  length (planetOrbits (setup planetsData iw ih)) = 9 ∧
  List.filter (λ g, bool_decide (g ∈ rootNodes (setup planetsData iw ih)))
              (group <$> planetOrbits (setup planetsData iw ih))
    = rootNodes (setup planetsData iw ih) ∧
  length (hoverablePlanets (setup planetsData iw ih)) = 8 ∧
  userData_name (setup planetsData iw ih)
    <$> hoverablePlanets (setup planetsData iw ih)
    = Some <$> ["Mercury"; "Venus"; "Earth"; "Mars";
                "Jupiter"; "Saturn"; "Uranus"; "Neptune"] ∧
  Forall (λ id, isMesh (setup planetsData iw ih) id = true ∧
                isMoon (setup planetsData iw ih) id = false ∧
                isRing (setup planetsData iw ih) id = false ∧
                id ≠ sun (setup planetsData iw ih))
         (hoverablePlanets (setup planetsData iw ih)).
Proof.
  split.
  { intros catalog. destruct (setup_spec catalog iw ih) as (Hbuilt & Hspeeds & _).
    split.
    - by apply Forall2_length in Hbuilt.
    - rewrite <- length_entrySpeeds, <- Hspeeds. by rewrite length_fmap. }
  assert (rootNodes (setup planetsData iw ih) = [5; 7; 9; 13; 15; 17; 20; 22])
    as -> by (vm_compute; reflexivity).
  assert (hoverablePlanets (setup planetsData iw ih) = [4; 6; 8; 12; 14; 16; 19; 21])
    as -> by (vm_compute; reflexivity).
  assert (group <$> planetOrbits (setup planetsData iw ih)
          = [5; 7; 9; 11; 13; 15; 17; 20; 22]) as Hgroups
    by (vm_compute; reflexivity).
  rewrite <- (length_fmap group), Hgroups.
  split; [done|]. split.
  { repeat constructor; vm_compute; reflexivity. }
  split; [done|]. split; [vm_compute; reflexivity|]. split; [done|]. split.
  { vm_compute; reflexivity. }
  repeat constructor; try (vm_compute; reflexivity);
    vm_compute; intros Heq; discriminate Heq.
Qed.


(** ** C7: no entry is validated *)



End Build.

(** ** C2: what a raycaster that does not descend would pick *)

Section Pick.
Context {num : Type} {NUM : JsNumber num} {THREE : Three num}.

Lemma insert_hit_perm (a : Intersection num) l : insert_hit a l ≡ₚ a :: l.
Proof.
  induction l as [|b l IH]; [done|]. simpl.
  destruct (nltb _ _); [|done]. rewrite IH. apply Permutation_swap.
Qed.

(** Sorting neither adds nor drops a hit. *)
Lemma sort_hits_perm (l : list (Intersection num)) : sort_hits l ≡ₚ l.
Proof.
  induction l as [|a l IH]; [done|]. simpl.
  by rewrite insert_hit_perm, IH.
Qed.

Lemma raycast_object ray (h : gmap nat (Object3D num)) id hit :
  hit ∈ raycast ray h id → object hit = id.
Proof.
  unfold raycast. destruct (h !! id) as [o|]; [|by intros ?%elem_of_nil].
  destruct (kind o); try by intros ?%elem_of_nil.
  intros (d & -> & _)%list_elem_of_fmap. done.
Qed.

Lemma intersect_nonrecursive fuel ray (h : gmap nat (Object3D num)) id :
  intersect fuel ray h false id = raycast ray h id.
Proof. destruct fuel; simpl; apply app_nil_r. Qed.

(** Without the descent, every hit is on a member of the list handed in. *)
Lemma intersectObjects_nonrecursive ray (h : gmap nat (Object3D num)) objects hit :
  hit ∈ intersectObjects ray h objects false → object hit ∈ objects.
Proof.
  unfold intersectObjects. rewrite sort_hits_perm.
  rewrite list_elem_of_In, in_flat_map.
  intros (id & Hid & Hhit). rewrite intersect_nonrecursive in Hhit.
  apply list_elem_of_In in Hid, Hhit.
  by rewrite (raycast_object _ _ _ _ Hhit).
Qed.

(** With or without it, the members themselves are always tested. *)
Lemma intersectObjects_members ray (h : gmap nat (Object3D num)) objects
    recursive id hit :
  id ∈ objects → hit ∈ raycast ray h id →
  hit ∈ intersectObjects ray h objects recursive.
Proof.
  intros Hid Hhit. unfold intersectObjects. rewrite sort_hits_perm.
  rewrite list_elem_of_In, in_flat_map. exists id.
  split; [by apply list_elem_of_In|]. apply list_elem_of_In.
  destruct (size h); simpl; apply elem_of_app; by left.
Qed.

Section Nearest.
Hypothesis order : StrictWeakOrder num.

Lemma nltb_irrefl (a : num) : nltb a a = false.
Proof.
  destruct (nltb a a) eqn:Hlt; [|done].
  by rewrite (nltb_asym _ order a a Hlt) in Hlt.
Qed.

Lemma head_insert_hit (a : Intersection num) l m :
  head l = Some m → nearest m l →
  ∃ m', head (insert_hit a l) = Some m' ∧ nearest m' (a :: l).
Proof.
  destruct l as [|b l]; [done|]. intros [= ->] Hm. simpl.
  unfold ascSort. rewrite (nsub_pos _ order).
  destruct (nltb (distance m) (distance a)) eqn:Hlt.
  - exists m. split; [done|]. intros hit [->|Hhit]%elem_of_cons.
    + by apply (nltb_asym _ order).
    + by apply Hm.
  - exists a. split; [done|]. intros hit [->|Hhit]%elem_of_cons.
    + apply nltb_irrefl.
    + destruct (nltb (distance hit) (distance a)) eqn:Hlt'; [|done].
      destruct (nltb_negtrans _ order _ _ (distance m) Hlt') as [H1|H1].
      * by rewrite (Hm hit Hhit) in H1.
      * by rewrite Hlt in H1.
Qed.

(** The first element of the sorted list is a nearest hit; a list with a
    hit sorts to a list with a first element. *)
Lemma head_sort_hits (l : list (Intersection num)) :
  match head (sort_hits l) with
  | Some m => m ∈ l ∧ nearest m l
  | None => l = []
  end.
Proof.
  induction l as [|a l IH]; [done|]. simpl.
  destruct (head (sort_hits l)) as [m|] eqn:Hhead.
  - destruct IH as [_ Hm].
    destruct (head_insert_hit a (sort_hits l) m Hhead) as (m' & Hm' & Hnear).
    { intros hit Hhit. apply Hm. by rewrite <- (sort_hits_perm l). }
    rewrite Hm'. split.
    + apply head_Some_elem_of in Hm'.
      by rewrite insert_hit_perm, sort_hits_perm in Hm'.
    + intros hit Hhit. apply Hnear.
      by rewrite sort_hits_perm.
  - subst l. simpl. split; [by left|].
    intros hit ->%list_elem_of_singleton. apply nltb_irrefl.
Qed.

(** What the claim C2 says of [pick], valid for a raycaster that does not
    descend into children: the hit handed to the listener is on a registry
    member, it is a nearest one among the hits on members, and there is
    none exactly when no member is hit. *)
Lemma pick_nonrecursive (event : MouseEvent num) (w : World num) :
  recursiveDefault = false →
  match head (pick event w).1 with
  | Some m =>
      object m ∈ hoverablePlanets w ∧ m ∈ memberHits event w ∧
      nearest m (memberHits event w)
  | None => memberHits event w = []
  end.
Proof.
  intros Hrec. rewrite pick_result, Hrec. unfold intersectObjects.
  assert (flat_map (intersect (size (heap w))
                      (setFromCamera (normalized w event) (camera w))
                      (heap w) false) (hoverablePlanets w)
          = memberHits event w) as ->.
  { unfold memberHits. apply flat_map_ext. intros id.
    apply intersect_nonrecursive. }
  pose proof (head_sort_hits (memberHits event w)) as Hhead.
  destruct (head (sort_hits (memberHits event w))) as [m|]; [|done].
  destruct Hhead as [Hin Hnear]. repeat split; try done.
  unfold memberHits in Hin.
  apply list_elem_of_In, in_flat_map in Hin as (id & Hid & Hhit).
  apply list_elem_of_In in Hid, Hhit.
  by rewrite (raycast_object _ _ _ _ Hhit).
Qed.

End Nearest.

End Pick.

(** * Further properties of the script *)

Section Events.
Context {num : Type} {NUM : JsNumber num} {THREE : Three num}.

(** ** Only the frame callback writes to the scene graph *)

Lemma sameButRotationY_trans (o1 o2 o3 : Object3D num) :
  sameButRotationY o1 o2 → sameButRotationY o2 o3 → sameButRotationY o1 o3.
Proof.
  intros (?&?&?&?&?&?) (?&?&?&?&?&?). repeat split; congruence.
Qed.

Lemma exec_onMouseMove_heap e (w : World num) :
  heap (exec (onMouseMove e) w) = heap w.
Proof.
  unfold onMouseMove, exec, bind. simpl.
  by destruct (intersectObjects _ _ _ _).
Qed.

Lemma exec_onClick_heap e (w : World num) :
  heap (exec (onClick e) w) = heap w.
Proof.
  unfold onClick, exec, bind. simpl.
  destruct (intersectObjects _ _ _ _) as [|hit hits]; [done|].
  unfold when. case_bool_decide; [|done].
  unfold showGifOverlay, bind. simpl. by destruct (gifOverlay _).
Qed.

Lemma step_listener_heap (w : World num) (ev : Event num) :
  match ev with
  | Frame _ => True
  | _ => heap (step w ev) = heap w
  end.
Proof.
  destruct ev as [| |e|e|iw ih|delta|ms]; try done.
  - apply (exec_onMouseMove_heap e (delivered (MouseMove e) w)).
  - apply (exec_onClick_heap e (delivered (Click e) w)).
  - change (step w (Elapse ms))
      with (exec (runTimers (now w + ms)) (delivered (Elapse ms) w)).
    rewrite runTimers_unfold. by destruct (List.filter _ _).
Qed.

Lemma step_structure (w : World num) (ev : Event num) :
  (∀ id, heap w !! id = None → heap (step w ev) !! id = None) ∧
  (∀ id o, heap w !! id = Some o →
     ∃ o', heap (step w ev) !! id = Some o' ∧ sameButRotationY o o') ∧
  (∀ id, id ∉ group <$> planetOrbits w → heap (step w ev) !! id = heap w !! id).
Proof.
  pose proof (step_listener_heap w ev) as Hsame.
  destruct ev as [| |e|e|iw ih|delta|ms];
    try (rewrite Hsame; repeat split; try done;
         intros id o Hid; exists o; split; [done|apply sameButRotationY_refl]).
  clear Hsame.
  change (step w (Frame delta))
    with (exec (animate delta) (delivered (Frame delta) w)).
  destruct (animationActive w) eqn:Hact.
  - rewrite animate_running by done. simpl. repeat split.
    + intros id Hid. by apply spinAll_lookup_None.
    + intros id o Hid. by apply spinAll_lookup_Some.
    + intros id Hid. by apply spinAll_lookup_other.
  - rewrite animate_paused by done. simpl. repeat split; try done.
    intros id o Hid. exists o. split; [done|apply sameButRotationY_refl].
Qed.

Lemma run_structure (evs : list (Event num)) (w : World num) :
  (∀ id, heap w !! id = None → heap (run evs w) !! id = None) ∧
  (∀ id o, heap w !! id = Some o →
     ∃ o', heap (run evs w) !! id = Some o' ∧ sameButRotationY o o') ∧
  (∀ id, id ∉ group <$> planetOrbits w → heap (run evs w) !! id = heap w !! id).
Proof.
  revert w. induction evs as [|ev evs IH]; intros w.
  - repeat split; try done.
    intros id o Hid. exists o. split; [done|apply sameButRotationY_refl].
  - change (run (ev :: evs) w) with (run evs (step w ev)).
    destruct (step_structure w ev) as (Hnone & Hsome & Hother).
    destruct (IH (step w ev)) as (Hnone' & Hsome' & Hother').
    repeat split.
    + intros id Hid. by apply Hnone', Hnone.
    + intros id o Hid.
      destruct (Hsome id o Hid) as (o1 & Hid1 & Hsame1).
      destruct (Hsome' id o1 Hid1) as (o2 & Hid2 & Hsame2).
      exists o2. split; [done|]. by eapply sameButRotationY_trans.
    + intros id Hid. rewrite Hother'; [by apply Hother|].
      pose proof (registries_step w ev) as Hreg. unfold registries in Hreg.
      by replace (planetOrbits (step w ev)) with (planetOrbits w) by congruence.
Qed.

(** X1.  The listeners for [mousedown], [mouseup], [mousemove], [click] and
    [resize] and the timer callback leave every object of the scene graph,
    both registries and the references bound at setup as they are: no event
    but a frame changes the heap, and no event at all changes a registry. *)
Theorem listeners_leave_scene (w : World num) (ev : Event num) :
  registries (step w ev) = registries w ∧
  match ev with
  | Frame _ => True
  | _ => heap (step w ev) = heap w
  end.
Proof.
  split; [apply registries_step|apply step_listener_heap].
Qed.

(** X2.  Whatever events arrive, the scene graph keeps its shape: no object
    appears or disappears, every object keeps its kind, position offset,
    children, user data and its rotation about X and Z, an object no
    animation entry lists does not change at all, and the animation entries
    and the pickable registry stay as setup left them. *)
Theorem scene_structure_fixed (evs : list (Event num)) (w : World num) :
  (∀ id, heap w !! id = None → heap (run evs w) !! id = None) ∧
  (∀ id o, heap w !! id = Some o →
     ∃ o', heap (run evs w) !! id = Some o' ∧ sameButRotationY o o') ∧
  (∀ id, id ∉ group <$> planetOrbits w → heap (run evs w) !! id = heap w !! id) ∧
  planetOrbits (run evs w) = planetOrbits w ∧
  hoverablePlanets (run evs w) = hoverablePlanets w.
Proof.
  destruct (run_structure evs w) as (Hnone & Hsome & Hother).
  repeat split; try done.
  - apply planetOrbits_run.
  - apply hoverablePlanets_run.
Qed.


(** ** The tooltip *)

Lemma step_MouseMove_tooltip (w : World num) (e : MouseEvent num) :
  tooltip (step w (MouseMove e))
  = match picked e (delivered (MouseMove e) w) with
    | Some id =>
        mkTooltip display_block
          ("<strong>" +:+ interpolate (userData_name w id) +:+
           "</strong><br>" +:+ interpolate (userData_funFact w id))
          (nadd (clientX e) (lit 10)) (nadd (clientY e) (lit 10))
    | None =>
        mkTooltip display_none (tt_innerHTML (tooltip w))
          (tt_left (tooltip w)) (tt_top (tooltip w))
    end.
Proof.
  unfold step, dispatch, exec, onMouseMove, picked, pick, bind, delivered. simpl.
  by destruct (intersectObjects _ _ _ _).
Qed.

(** ** Clicks and the overlay *)

Lemma step_Click_cases (w : World num) (e : MouseEvent num) :
  (clicksMars w e ∧
   gifOverlay (step w (Click e)) = Some display_block ∧
   timers (step w (Click e)) = timers w ++ [(now w + 5000)%N] ∧
   now (step w (Click e)) = now w) ∨
  (¬ clicksMars w e ∧
   gifOverlay (step w (Click e)) = gifOverlay w ∧
   timers (step w (Click e)) = timers w ∧
   now (step w (Click e)) = now w).
Proof.
  unfold clicksMars.
  unfold step, dispatch, exec, onClick, pick, bind. simpl.
  destruct (intersectObjects _ _ _ _) as [|hit hits] eqn:Hhits.
  - right. split; [|done]. by intros (hit & Hhead & _).
  - unfold when.
    change (userData_name _ (object hit)) with (userData_name w (object hit)).
    case_bool_decide as Hname.
    + left. split.
      * by exists hit.
      * unfold showGifOverlay, bind. simpl. by destruct (gifOverlay w).
    + right. split; [|done]. intros (hit' & Hhead & Hname').
      injection Hhead as <-. done.
Qed.

Lemma step_overlay_other (w : World num) (ev : Event num) :
  match ev with
  | Click _ | Elapse _ => True
  | _ => gifOverlay (step w ev) = gifOverlay w ∧
         timers (step w ev) = timers w ∧ now (step w ev) = now w
  end.
Proof.
  destruct ev as [| |e|e|iw ih|delta|ms]; try done.
  - unfold step, dispatch, exec, onMouseMove, pick, bind. simpl.
    by destruct (intersectObjects _ _ _ _).
  - change (step w (Frame delta))
      with (exec (animate delta) (delivered (Frame delta) w)).
    destruct (animationActive w) eqn:Hact.
    + by rewrite animate_running.
    + by rewrite animate_paused.
Qed.

Lemma filter_none_due (t : N) (l : list N) :
  List.filter (λ d, (d <=? t)%N) l = [] →
  List.filter (λ d, negb (d <=? t)%N) l = l.
Proof.
  induction l as [|d l IH]; [done|]. simpl.
  destruct (d <=? t)%N; [done|]. simpl. intros Hl. by rewrite IH.
Qed.

Lemma overlayInv_step (w : World num) (ev : Event num) :
  overlayInv w → overlayInv (step w ev).
Proof.
  intros [Hdue Hvis]. unfold overlayInv, overlayVisible in *.
  pose proof (step_overlay_other w ev) as Hother.
  destruct ev as [| |e|e|iw ih|delta|ms];
    try (destruct Hother as (-> & -> & ->); done).
  - destruct (step_Click_cases w e)
      as [(_ & -> & -> & ->)|(_ & -> & -> & ->)]; [|done].
    split.
    + intros d [Hd| ->%list_elem_of_singleton]%elem_of_app; [by apply Hdue|lia].
    + intros _ Hnil. by apply app_eq_nil in Hnil as [_ ?].
  - destruct (step_Elapse w ms) as (-> & -> & ->). split.
    + intros d [Hd Hlate]%list_elem_of_In%filter_In.
      apply list_elem_of_In, Hdue in Hd.
      apply negb_true_iff, N.leb_gt in Hlate. lia.
    + destruct (List.filter (λ d, (d <=? now w + ms)%N) (timers w)) eqn:Hfilter;
        [|done].
      rewrite filter_none_due by done. exact Hvis.
Qed.

Lemma overlayInv_run (evs : list (Event num)) (w : World num) :
  overlayInv w → overlayInv (run evs w).
Proof.
  revert w. induction evs as [|ev evs IH]; intros w Hinv; [done|].
  change (run (ev :: evs) w) with (run evs (step w ev)).
  by apply IH, overlayInv_step.
Qed.

Lemma overlayInv_elapse (w : World num) (ms : N) :
  overlayInv w → (5000 ≤ ms)%N →
  overlayVisible (step w (Elapse ms)) = false ∧ timers (step w (Elapse ms)) = [].
Proof.
  intros [Hdue Hvis] Hms. unfold overlayVisible in *.
  destruct (step_Elapse w ms) as (-> & -> & _).
  assert (List.filter (λ d, negb (d <=? now w + ms)%N) (timers w) = []) as ->.
  { destruct (List.filter _ (timers w)) as [|d l] eqn:Hfilter; [done|].
    assert (In d (d :: l)) as Hin by by left.
    rewrite <- Hfilter in Hin. apply filter_In in Hin as [Hd Hlate].
    apply list_elem_of_In, Hdue in Hd.
    apply negb_true_iff, N.leb_gt in Hlate. lia. }
  split; [|done].
  destruct (List.filter (λ d, (d <=? now w + ms)%N) (timers w)) eqn:Hfilter;
    [|done].
  destruct (gifOverlay w) as [[| |]|]; try done.
  destruct (timers w) as [|d l] eqn:Htimers; [by destruct Hvis|].
  assert (In d (List.filter (λ d, (d <=? now w + ms)%N) (d :: l))) as Hin.
  { apply filter_In. split; [by left|]. apply N.leb_le.
    assert (d ∈ d :: l) as Hd by by left. apply Hdue in Hd. lia. }
  rewrite Hfilter in Hin. destruct Hin.
Qed.

(** X3.  A click that is not on Mars (on another body, or on nothing) shows
    no overlay and queues no dismissal: overlay, pending dismissals and the
    scene graph are as before. *)
Theorem click_elsewhere (w : World num) (e : MouseEvent num) :
  ¬ clicksMars w e →
  gifOverlay (step w (Click e)) = gifOverlay w ∧
  timers (step w (Click e)) = timers w ∧
  heap (step w (Click e)) = heap w.
Proof.
  intros Hnot.
  destruct (step_Click_cases w e) as [(Hmars & _)|(_ & Hover & Htimers & _)];
    [done|].
  repeat split; try done.
  apply (exec_onClick_heap e (delivered (Click e) w)).
Qed.


(** ** What each listener may write *)

(** X4.  Each part of the page's state has its writers: only [mousedown]
    and [mouseup] set the pause flag, only [mousemove] touches the tooltip,
    only a click and the passing of time touch the overlay and its pending
    dismissals, only a resize changes the window size the pointer is scaled
    by, and only [mousemove] and [click] move the raycaster's [mouse] vector
    and ray. *)
Theorem listener_footprints (w : World num) (ev : Event num) :
  match ev with
  | MouseDown | MouseUp => True
  | _ => animationActive (step w ev) = animationActive w
  end ∧
  match ev with
  | MouseMove _ => True
  | _ => tooltip (step w ev) = tooltip w
  end ∧
  match ev with
  | Click _ | Elapse _ => True
  | _ => gifOverlay (step w ev) = gifOverlay w ∧ timers (step w ev) = timers w
  end ∧
  match ev with
  | Elapse _ => True
  | _ => now (step w ev) = now w
  end ∧
  match ev with
  | Resize _ _ => True
  | _ => innerWidth (step w ev) = innerWidth w ∧
         innerHeight (step w ev) = innerHeight w
  end ∧
  match ev with
  | MouseMove _ | Click _ => True
  | _ => mouse (step w ev) = mouse w ∧ raycaster (step w ev) = raycaster w
  end.
Proof.
  destruct ev as [| |e|e|iw ih|delta|ms]; try done.
  - unfold step, dispatch, exec, onMouseMove, pick, bind. simpl.
    by destruct (intersectObjects _ _ _ _).
  - unfold step, dispatch, exec, onClick, pick, bind. simpl.
    destruct (intersectObjects _ _ _ _) as [|hit hits]; [done|].
    unfold when. case_bool_decide; [|done].
    unfold showGifOverlay, bind. simpl. by destruct (gifOverlay w).
  - change (step w (Frame delta))
      with (exec (animate delta) (delivered (Frame delta) w)).
    destruct (animationActive w) eqn:Hact.
    + by rewrite animate_running.
    + by rewrite animate_paused.
  - change (step w (Elapse ms))
      with (exec (runTimers (now w + ms)) (delivered (Elapse ms) w)).
    rewrite runTimers_unfold. by destruct (List.filter _ _).
Qed.

(** X5.  Nothing but a click on Mars brings the overlay up: if it shows
    after an event and did not show before, the event was a click whose
    listener was handed the mesh named Mars. *)
Theorem overlay_only_by_mars_click (w : World num) (ev : Event num) :
  overlayVisible w = false → overlayVisible (step w ev) = true →
  ∃ e, ev = Click e ∧ clicksMars w e.
Proof.
  intros Hbefore Hafter. unfold overlayVisible in *.
  pose proof (step_overlay_other w ev) as Hother.
  destruct ev as [| |e|e|iw ih|delta|ms];
    try (destruct Hother as (Heq & _); rewrite Heq, Hbefore in Hafter; done).
  - destruct (step_Click_cases w e) as [(Hmars & _)|(_ & Heq & _)].
    + by exists e.
    + by rewrite Heq, Hbefore in Hafter.
  - destruct (step_Elapse w ms) as (Heq & _). rewrite Heq in Hafter.
    destruct (List.filter _ _); [|done]. by rewrite Hbefore in Hafter.
Qed.


(** ** While the button is held *)

Lemma step_held (w : World num) (ev : Event num) :
  ev ≠ MouseUp → animationActive w = false →
  heap (step w ev) = heap w ∧ animationActive (step w ev) = false.
Proof.
  intros Hev Hact.
  destruct ev as [| |e|e|iw ih|delta|ms]; try done.
  - split; [apply (exec_onMouseMove_heap e (delivered (MouseMove e) w))|].
    change (step w (MouseMove e))
      with (exec (onMouseMove e) (delivered (MouseMove e) w)).
    by rewrite animationActive_onMouseMove.
  - split; [apply (exec_onClick_heap e (delivered (Click e) w))|].
    change (step w (Click e)) with (exec (onClick e) (delivered (Click e) w)).
    by rewrite animationActive_onClick.
  - by apply step_Frame_paused.
  - change (step w (Elapse ms))
      with (exec (runTimers (now w + ms)) (delivered (Elapse ms) w)).
    rewrite runTimers_unfold. by destruct (List.filter _ _).
Qed.

(** X6.  While the button is held nothing in the scene moves, whatever
    else happens: from a paused state, any sequence of events without a
    [mouseup] (frames, pointer moves, clicks, resizes, further presses, time
    passing) leaves every object as it is and the animation paused. *)
Theorem held_button_freezes_scene (w : World num) (evs : list (Event num)) :
  animationActive w = false → MouseUp ∉ evs →
  heap (run evs w) = heap w ∧ animationActive (run evs w) = false.
Proof.
  revert w. induction evs as [|ev evs IH]; intros w Hact Hevs; [done|].
  apply not_elem_of_cons in Hevs as [Hev Hevs].
  destruct (step_held w ev) as [Hheap Hact']; [done|done|].
  change (run (ev :: evs) w) with (run evs (step w ev)).
  destruct (IH (step w ev) Hact' Hevs) as [-> ->]. by rewrite Hheap.
Qed.

(** ** Pending dismissals *)

Lemma now_step (w : World num) (ev : Event num) :
  (now w ≤ now (step w ev))%N.
Proof.
  pose proof (step_overlay_other w ev) as Hother.
  destruct ev as [| |e|e|iw ih|delta|ms];
    try (destruct Hother as (_ & _ & ->); done).
  - by destruct (step_Click_cases w e)
      as [(_ & _ & _ & ->)|(_ & _ & _ & ->)].
  - destruct (step_Elapse w ms) as (_ & _ & ->). lia.
Qed.

Lemma now_run (evs : list (Event num)) (w : World num) :
  (now w ≤ now (run evs w))%N.
Proof.
  revert w. induction evs as [|ev evs IH]; intros w; [done|].
  change (run (ev :: evs) w) with (run evs (step w ev)).
  pose proof (now_step w ev). pose proof (IH (step w ev)). lia.
Qed.

Lemma timers_step (w : World num) (ev : Event num) (d : N) :
  d ∈ timers w → (now (step w ev) < d)%N → d ∈ timers (step w ev).
Proof.
  intros Hd Hnow.
  pose proof (step_overlay_other w ev) as Hother.
  destruct ev as [| |e|e|iw ih|delta|ms];
    try (destruct Hother as (_ & -> & _); done).
  - destruct (step_Click_cases w e)
      as [(_ & _ & -> & _)|(_ & _ & -> & _)]; [|done].
    apply elem_of_app. by left.
  - destruct (step_Elapse w ms) as (_ & Htimers & Hnow').
    rewrite Htimers. rewrite Hnow' in Hnow.
    apply list_elem_of_In, filter_In. split; [by apply list_elem_of_In|].
    apply negb_true_iff, N.leb_gt. done.
Qed.

(** X7.  A dismissal, once queued, is never cancelled: whatever events
    follow, it stays pending for as long as the clock has not reached its
    due time (the script never calls [clearTimeout]). *)
Theorem dismissal_never_cancelled (w : World num) (evs : list (Event num))
    (d : N) :
  d ∈ timers w → (now (run evs w) < d)%N → d ∈ timers (run evs w).
Proof.
  revert w. induction evs as [|ev evs IH]; intros w Hd Hnow; [done|].
  change (run (ev :: evs) w) with (run evs (step w ev)) in *.
  apply IH; [|done]. apply timers_step; [done|].
  pose proof (now_run evs (step w ev)). lia.
Qed.


(** ** The window size *)

Lemma window_step (w : World num) (ev : Event num) :
  isResize ev = false →
  innerWidth (step w ev) = innerWidth w ∧
  innerHeight (step w ev) = innerHeight w.
Proof.
  intros Hev. destruct ev as [| |e|e|iw ih|delta|ms]; try done.
  - unfold step, dispatch, exec, onMouseMove, pick, bind. simpl.
    by destruct (intersectObjects _ _ _ _).
  - unfold step, dispatch, exec, onClick, pick, bind. simpl.
    destruct (intersectObjects _ _ _ _) as [|hit hits]; [done|].
    unfold when. case_bool_decide; [|done].
    unfold showGifOverlay, bind. simpl. by destruct (gifOverlay w).
  - change (step w (Frame delta))
      with (exec (animate delta) (delivered (Frame delta) w)).
    destruct (animationActive w) eqn:Hact.
    + by rewrite animate_running.
    + by rewrite animate_paused.
  - change (step w (Elapse ms))
      with (exec (runTimers (now w + ms)) (delivered (Elapse ms) w)).
    rewrite runTimers_unfold. by destruct (List.filter _ _).
Qed.

Lemma window_run (evs : list (Event num)) (w : World num) :
  Forall (λ ev, isResize ev = false) evs →
  innerWidth (run evs w) = innerWidth w ∧
  innerHeight (run evs w) = innerHeight w.
Proof.
  revert w. induction evs as [|ev evs IH]; intros w Hevs; [done|].
  apply Forall_cons in Hevs as [Hev Hevs].
  change (run (ev :: evs) w) with (run evs (step w ev)).
  destruct (IH (step w ev) Hevs) as [-> ->]. by apply window_step.
Qed.

(** X8.  The pointer is scaled by the size of the window as the latest
    resize left it: after a resize to [iw] by [ih] and any events other than
    a resize, a pointer at (x, y) is mapped to (x / iw * 2 - 1,
    -(y / ih) * 2 + 1), whatever the size was before. *)
Theorem pointer_scaled_by_latest_size (w : World num)
    (evs evs' : list (Event num)) (iw ih : num) (e : MouseEvent num) :
  Forall (λ ev, isResize ev = false) evs' →
  normalized (run (evs ++ Resize iw ih :: evs') w) e
  = mkVector2 (nsub (nmul (ndiv (clientX e) iw) (lit 2)) (lit 1))
              (nadd (nmul (nneg (ndiv (clientY e) ih)) (lit 2)) (lit 1)).
Proof.
  intros Hevs. unfold run. rewrite foldl_app.
  change (foldl step (foldl step w evs) (Resize iw ih :: evs'))
    with (run evs' (step (run evs w) (Resize iw ih))).
  unfold normalized.
  by destruct (window_run evs' (step (run evs w) (Resize iw ih)) Hevs)
    as [-> ->].
Qed.

End Events.

(** ** What the catalog loop leaves in the heap *)

Section Structure.
Context {num : Type} {NUM : JsNumber num} {THREE : Three num}.

Ltac lookup_chain :=
  repeat first
    [ rewrite lookup_alter_eq
    | rewrite lookup_insert_eq
    | rewrite lookup_alter_ne by lia
    | rewrite lookup_insert_ne by lia ].

(** A turn of the loop leaves every earlier object but the scene alone. *)
Lemma buildPlanet_old (planetData : PlanetData num) (w : World num) id :
  id < nextId w → id ≠ scene w →
  heap (exec (buildPlanet planetData) w) !! id = heap w !! id.
Proof.
  intros Hid Hscene. unfold buildPlanet, exec.
  destruct (hasMoon planetData), (hasRings planetData);
    cbn -[insert alter lookup]; by lookup_chain.
Qed.

(** It creates nothing beyond the ids it allocates. *)
Lemma buildPlanet_fresh (planetData : PlanetData num) (w : World num) id :
  scene w < nextId w → nextId w + allocated planetData ≤ id →
  heap (exec (buildPlanet planetData) w) !! id = heap w !! id.
Proof.
  intros Hscene Hid. unfold allocated in Hid. unfold buildPlanet, exec.
  destruct (hasMoon planetData), (hasRings planetData);
    cbn -[insert alter lookup]; by lookup_chain.
Qed.

(** It appends the orbit node to the scene. *)
Lemma buildPlanet_scene (planetData : PlanetData num) (w : World num) :
  scene w < nextId w →
  heap (exec (buildPlanet planetData) w) !! scene w
  = push_child (orbitOf (nextId w)) <$> heap w !! scene w.
Proof.
  intros Hscene. unfold buildPlanet, exec, orbitOf.
  rewrite Nat.add_1_r.
  destruct (hasMoon planetData), (hasRings planetData);
    cbn -[insert alter lookup]; by lookup_chain.
Qed.

Lemma buildPlanet_entry (planetData : PlanetData num) (w : World num) :
  scene w < nextId w →
  entryBuilt (heap (exec (buildPlanet planetData) w)) (nextId w) planetData.
Proof.
  intros Hscene.
  unfold entryBuilt, planetObject, satellites, buildPlanet, exec,
    orbitOf, moonOf, moonOrbitOf, ringOf.
  rewrite !Nat.add_succ_r, !Nat.add_0_r.
  destruct (hasMoon planetData), (hasRings planetData);
    cbn -[insert alter lookup]; rewrite ?Nat.add_succ_r, ?Nat.add_0_r;
    repeat split; intros; try done; by lookup_chain.
Qed.

Lemma buildPlanet_items (planetData : PlanetData num) (w : World num) :
  planetOrbits (exec (buildPlanet planetData) w)
  = planetOrbits w ++ entryItems planetData (nextId w).
Proof.
  unfold buildPlanet, exec, entryItems, orbitOf, moonOrbitOf.
  rewrite !Nat.add_succ_r, !Nat.add_0_r.
  destruct (hasMoon planetData), (hasRings planetData);
    cbn -[insert alter lookup]; by rewrite <- ?(assoc_L (++)).
Qed.

Lemma buildPlanet_page (planetData : PlanetData num) (w : World num) :
  page (exec (buildPlanet planetData) w) = page w.
Proof.
  unfold buildPlanet, exec, page.
  by destruct (hasMoon planetData), (hasRings planetData).
Qed.


Lemma entryBuilt_ext (h h' : gmap nat (Object3D num)) planetMesh planetData :
  (∀ id, planetMesh ≤ id < planetMesh + allocated planetData →
         h' !! id = h !! id) →
  entryBuilt h planetMesh planetData → entryBuilt h' planetMesh planetData.
Proof.
  unfold entryBuilt, allocated, orbitOf, moonOf, moonOrbitOf, ringOf.
  intros Hsame (Hmesh & Horbit & Hmoon & Hring).
  destruct (hasMoon planetData), (hasRings planetData);
    repeat split; intros; rewrite ?Hsame by lia; try done;
    first [by apply Hmoon | by apply Hring].
Qed.

Lemma meshIds_cons first planetData (catalog : list (PlanetData num)) :
  meshIds first (planetData :: catalog)
  = first :: meshIds (first + allocated planetData) catalog.
Proof. reflexivity. Qed.

(** The loop, by induction on the catalog: where every object of every
    entry lies, and what stays as it was. *)
Lemma buildSystem_layout (catalog : list (PlanetData num)) (w : World num) :
  scene w < nextId w →
  hoverablePlanets (exec (buildSystem catalog) w)
    = hoverablePlanets w ++ meshIds (nextId w) catalog ∧
  planetOrbits (exec (buildSystem catalog) w)
    = planetOrbits w
      ++ concat (zip_with entryItems catalog (meshIds (nextId w) catalog)) ∧
  nextId (exec (buildSystem catalog) w)
    = nextId w + sum_list (allocated <$> catalog) ∧
  scene (exec (buildSystem catalog) w) = scene w ∧
  sun (exec (buildSystem catalog) w) = sun w ∧
  page (exec (buildSystem catalog) w) = page w ∧
  Forall2 (entryBuilt (heap (exec (buildSystem catalog) w)))
          (meshIds (nextId w) catalog) catalog ∧
  heap (exec (buildSystem catalog) w) !! scene w
    = (λ sc, foldl (λ o planetMesh, push_child (orbitOf planetMesh) o) sc
               (meshIds (nextId w) catalog)) <$> heap w !! scene w ∧
  (∀ id, id < nextId w → id ≠ scene w →
         heap (exec (buildSystem catalog) w) !! id = heap w !! id) ∧
  (∀ id, nextId (exec (buildSystem catalog) w) ≤ id →
         heap (exec (buildSystem catalog) w) !! id = heap w !! id).
Proof.
  revert w. induction catalog as [|planetData catalog IH]; intros w Hscene.
  - simpl. rewrite !app_nil_r, Nat.add_0_r. repeat split; try done.
    change (exec (buildSystem []) w) with w. by destruct (heap w !! scene w).
  - rewrite exec_buildSystem_cons, meshIds_cons.
    destruct (buildPlanet_registries planetData w)
      as (Hreg & _ & Hnext & Hsc & Hsun).
    destruct (IH (exec (buildPlanet planetData) w))
      as (Hreg' & Hitems' & Hnext' & Hsc' & Hsun' & Hpage' & Hbuilt' &
          Hscene' & Hold' & Hfresh').
    { rewrite Hsc, Hnext. lia. }
    rewrite Hnext in *. rewrite Hsc in *.
    assert (0 < allocated planetData) as Halloc by (unfold allocated; lia).
    repeat split.
    + by rewrite Hreg', Hreg, <- (assoc_L (++)).
    + rewrite Hitems', buildPlanet_items. simpl.
      by rewrite <- !(assoc_L (++)).
    + rewrite Hnext'.
      change (sum_list (allocated <$> planetData :: catalog))
        with (allocated planetData + sum_list (allocated <$> catalog)).
      lia.
    + congruence.
    + congruence.
    + by rewrite Hpage', buildPlanet_page.
    + constructor; [|done].
      apply (entryBuilt_ext (heap (exec (buildPlanet planetData) w))).
      * intros id Hid. apply Hold'; lia.
      * by apply buildPlanet_entry.
    + rewrite Hscene', buildPlanet_scene by done. simpl.
      by destruct (heap w !! scene w).
    + intros id Hid Hne. rewrite Hold' by lia. by apply buildPlanet_old.
    + intros id Hid. rewrite Hfresh' by done.
      apply buildPlanet_fresh; [done|]. rewrite Hnext' in Hid. lia.
Qed.

Lemma children_foldl_push (sc : Object3D num) (ids : list nat) :
  children (foldl (λ o planetMesh, push_child (orbitOf planetMesh) o) sc ids)
    = children sc ++ (orbitOf <$> ids) ∧
  kind (foldl (λ o planetMesh, push_child (orbitOf planetMesh) o) sc ids)
    = kind sc.
Proof.
  revert sc. induction ids as [|m ids IH]; intros sc; simpl.
  - by rewrite app_nil_r.
  - destruct (IH (push_child (orbitOf m) sc)) as [-> ->].
    simpl. by rewrite <- (assoc_L (++)).
Qed.

(** The state when the loop starts: scene, two lights and the sun. *)
Lemma prelude_layout (iw ih : num) :
  let w0 := exec (bind createScene (λ _, createSun)) (blank iw ih) in
  nextId w0 = 4 ∧ scene w0 = 0 ∧ sun w0 = 3 ∧
  hoverablePlanets w0 = [] ∧ planetOrbits w0 = [] ∧
  page w0 = (true, blankTooltip, None, [], 0%N, (iw, ih)) ∧
  heap w0 !! 0 = Some (mkObject3D KScene zero3 zero3 [1; 2; 3] None) ∧
  heap w0 !! 1 = Some ambientLightObject ∧
  heap w0 !! 2 = Some directionalLightObject ∧
  heap w0 !! 3 = Some sunObject ∧
  (∀ id, 4 ≤ id → heap w0 !! id = None).
Proof.
  split_and!; try done.
  intros id Hid. cbn -[insert alter lookup].
  by repeat first [rewrite lookup_alter_ne by lia
                  |rewrite lookup_insert_ne by lia].
Qed.

(** The state the script is in once setup is through, for any catalog. *)
Lemma setup_layout (catalog : list (PlanetData num)) (iw ih : num) :
  hoverablePlanets (setup catalog iw ih) = meshIds 4 catalog ∧
  planetOrbits (setup catalog iw ih)
    = concat (zip_with entryItems catalog (meshIds 4 catalog)) ∧
  nextId (setup catalog iw ih) = 4 + sum_list (allocated <$> catalog) ∧
  scene (setup catalog iw ih) = 0 ∧
  sun (setup catalog iw ih) = 3 ∧
  page (setup catalog iw ih)
    = (true, blankTooltip, None, [], 0%N, (iw, ih)) ∧
  Forall2 (entryBuilt (heap (setup catalog iw ih))) (meshIds 4 catalog) catalog ∧
  (∃ sc, heap (setup catalog iw ih) !! 0 = Some sc ∧ kind sc = KScene ∧
         children sc = [1; 2; 3] ++ (orbitOf <$> meshIds 4 catalog)) ∧
  (heap (setup catalog iw ih) !! 1 = Some ambientLightObject ∧
   heap (setup catalog iw ih) !! 2 = Some directionalLightObject ∧
   heap (setup catalog iw ih) !! 3 = Some sunObject) ∧
  (∀ id, nextId (setup catalog iw ih) ≤ id →
         heap (setup catalog iw ih) !! id = None).
Proof.
  rewrite setup_unfold.
  destruct (prelude_layout iw ih)
    as (Hnext0 & Hsc0 & Hsun0 & Hreg0 & Hitems0 & Hpage0 & Hscene0 &
        Hambient0 & Hdirectional0 & Hsunobj0 & Hfresh0).
  destruct (buildSystem_layout catalog
              (exec (bind createScene (λ _, createSun)) (blank iw ih)))
    as (Hreg & Hitems & Hnext & Hsc & Hsun & Hpage & Hbuilt &
        Hscene & Hold & Hfresh).
  { rewrite Hnext0, Hsc0. lia. }
  set (w0 := exec (bind createScene (λ _, createSun)) (blank iw ih)) in *.
  set (w1 := exec (buildSystem catalog) w0) in *.
  change (page (set_animationActive true w1))
    with (true, tooltip w1, gifOverlay w1, timers w1, now w1,
          (innerWidth w1, innerHeight w1)).
  cbn [hoverablePlanets heap planetOrbits sun scene nextId set_animationActive].
  rewrite Hnext0, ?Hsc0, ?Hsun0, ?Hreg0, ?Hitems0, ?Hpage0 in *.
  rewrite Hreg, Hitems, Hnext, Hsc, Hsun.
  split_and!; try done.
  - unfold page in Hpage. congruence.
  - rewrite Hscene, Hscene0. eexists. split; [reflexivity|].
    destruct (children_foldl_push
                (mkObject3D KScene zero3 zero3 [1; 2; 3] None) (meshIds 4 catalog))
      as [Hchildren Hkind].
    split; [exact Hkind|exact Hchildren].
  - by rewrite Hold by lia.
  - by rewrite Hold by lia.
  - by rewrite Hold by lia.
  - intros id Hid. rewrite Hfresh by (rewrite Hnext; lia). apply Hfresh0. lia.
Qed.


(** ** The animation entries *)

Lemma entryItems_groups (planetData : PlanetData num) (planetMesh : nat) :
  Forall (λ item, planetMesh ≤ group item < planetMesh + allocated planetData)
         (entryItems planetData planetMesh) ∧
  NoDup (group <$> entryItems planetData planetMesh).
Proof.
  unfold entryItems, allocated, orbitOf, moonOrbitOf.
  destruct (hasMoon planetData); simpl; split.
  - repeat constructor; simpl; lia.
  - apply NoDup_cons. split; [|apply NoDup_singleton].
    rewrite list_elem_of_singleton. lia.
  - repeat constructor; simpl; lia.
  - apply NoDup_singleton.
Qed.

(** The nodes the entries name lie in their planets' blocks of ids, so no
    two entries name the same node. *)
Lemma items_groups (catalog : list (PlanetData num)) (first : nat) :
  Forall (λ item,
            first ≤ group item < first + sum_list (allocated <$> catalog))
         (concat (zip_with entryItems catalog (meshIds first catalog))) ∧
  NoDup (group <$> concat (zip_with entryItems catalog (meshIds first catalog))).
Proof.
  revert first. induction catalog as [|planetData catalog IH]; intros first.
  - split; constructor.
  - rewrite meshIds_cons.
    change (concat (zip_with entryItems (planetData :: catalog)
                      (first :: meshIds (first + allocated planetData) catalog)))
      with (entryItems planetData first
            ++ concat (zip_with entryItems catalog
                         (meshIds (first + allocated planetData) catalog))).
    change (sum_list (allocated <$> planetData :: catalog))
      with (allocated planetData + sum_list (allocated <$> catalog)).
    destruct (IH (first + allocated planetData)) as [Hbounds Hnodup].
    destruct (entryItems_groups planetData first) as [Hbounds0 Hnodup0].
    split.
    + apply Forall_app. split.
      * eapply Forall_impl; [exact Hbounds0|]. cbv beta. intros item ?. lia.
      * eapply Forall_impl; [exact Hbounds|]. cbv beta. intros item ?. lia.
    + rewrite fmap_app. apply NoDup_app. split_and!; [done| |done].
      intros g (item & -> & Hitem)%list_elem_of_fmap
               (item' & Heq & Hitem')%list_elem_of_fmap.
      rewrite Forall_forall in Hbounds0, Hbounds.
      apply Hbounds0 in Hitem. apply Hbounds in Hitem'. lia.
Qed.

(** Every entry names an orbit node the loop has built. *)
Lemma items_exist (h : gmap nat (Object3D num)) ids
    (catalog : list (PlanetData num)) :
  Forall2 (entryBuilt h) ids catalog →
  Forall (λ item, ∃ child, h !! group item = Some (orbitObject child))
         (concat (zip_with entryItems catalog ids)).
Proof.
  induction 1 as [|planetMesh planetData ids catalog Hbuilt _ IH];
    [constructor|].
  change (concat (zip_with entryItems (planetData :: catalog) (planetMesh :: ids)))
    with (entryItems planetData planetMesh
          ++ concat (zip_with entryItems catalog ids)).
  apply Forall_app. split; [|done].
  destruct Hbuilt as (_ & Horbit & Hmoon & _). unfold entryItems.
  destruct (hasMoon planetData).
  - destruct Hmoon as [_ Hmoon]; [done|].
    repeat constructor; simpl; by eexists.
  - repeat constructor; simpl; by eexists.
Qed.

(** With no node named twice, the loop of [animate] turns each entry's node
    by that entry's step and by nothing else. *)
Lemma spinAll_lookup_item items (item : OrbitItem num) delta
    (h : gmap nat (Object3D num)) :
  NoDup (group <$> items) → item ∈ items →
  spinAll items delta h !! group item = spin item delta <$> h !! group item.
Proof.
  revert h. induction items as [|item' items IH]; intros h Hnodup Hitem.
  - by apply elem_of_nil in Hitem.
  - rewrite fmap_cons in Hnodup. apply NoDup_cons in Hnodup as [Hnotin Hnodup].
    change (spinAll (item' :: items) delta h)
      with (spinAll items delta (alter (spin item' delta) (group item') h)).
    apply elem_of_cons in Hitem as [->|Hitem].
    + rewrite spinAll_lookup_other by done. by rewrite lookup_alter_eq.
    + rewrite IH by done. rewrite lookup_alter_ne; [done|].
      intros Heq. apply Hnotin. rewrite Heq.
      apply list_elem_of_fmap. by exists item.
Qed.

(** ** States the page can reach *)

(** Whatever the events, the registries are those of setup and every object
    of setup is still there, changed at most in [rotation.y]. *)
Lemma reachable_layout (catalog : list (PlanetData num)) (iw ih : num)
    (evs : list (Event num)) :
  registries (run evs (setup catalog iw ih)) = registries (setup catalog iw ih) ∧
  (∀ id o, heap (setup catalog iw ih) !! id = Some o →
     ∃ o', heap (run evs (setup catalog iw ih)) !! id = Some o' ∧
           sameButRotationY o o') ∧
  (∀ id, heap (setup catalog iw ih) !! id = None →
         heap (run evs (setup catalog iw ih)) !! id = None).
Proof.
  destruct (run_structure evs (setup catalog iw ih)) as (Hnone & Hsome & _).
  split_and!; [apply registries_run|done|done].
Qed.


Lemma filter_all {A} (f : A → bool) (l : list A) :
  Forall (λ x, f x = true) l → List.filter f l = l.
Proof.
  induction 1 as [|x l Hx _ IH]; [done|]. simpl. by rewrite Hx, IH.
Qed.

Lemma page_eq (w : World num) a t g ts n x y :
  page w = (a, t, g, ts, n, (x, y)) →
  animationActive w = a ∧ tooltip w = t ∧ gifOverlay w = g ∧ timers w = ts ∧
  now w = n ∧ innerWidth w = x ∧ innerHeight w = y.
Proof. unfold page. by intros [= -> -> -> -> -> -> ->]. Qed.

Lemma registries_eq (w w' : World num) :
  registries w' = registries w →
  planetOrbits w' = planetOrbits w ∧ hoverablePlanets w' = hoverablePlanets w ∧
  scene w' = scene w ∧ sun w' = sun w ∧ nextId w' = nextId w.
Proof. unfold registries. by intros [= -> -> -> -> ->]. Qed.

Lemma setup_overlayInv (catalog : list (PlanetData num)) (iw ih : num) :
  overlayInv (setup catalog iw ih).
Proof.
  destruct (setup_layout catalog iw ih) as (_ & _ & _ & _ & _ & Hpage & _).
  apply page_eq in Hpage as (_ & _ & Hoverlay & Htimers & _).
  unfold overlayInv, overlayVisible. rewrite Hoverlay, Htimers.
  split; [by intros d ?%elem_of_nil|done].
Qed.

(** X9.  Whatever the catalog and whatever happened since the page loaded,
    once 5000 ms pass without further events the overlay is not showing and
    no dismissal is left pending. *)
Theorem overlay_gone_after_5s (catalog : list (PlanetData num)) (iw ih : num)
    (evs : list (Event num)) (ms : N) :
  (5000 ≤ ms)%N →
  overlayVisible (step (run evs (setup catalog iw ih)) (Elapse ms)) = false ∧
  timers (step (run evs (setup catalog iw ih)) (Elapse ms)) = [].
Proof.
  intros Hms. apply overlayInv_elapse; [|done].
  apply overlayInv_run, setup_overlayInv.
Qed.

(** X10.  For any catalog, setup leaves in the heap, for each entry in
    catalog order, exactly what the loop body made of it: the planet's mesh
    with its sphere, material, offset and user data, whose children are the
    moon's orbit node (if [hasMoon]) and then the ring (if [hasRings]); the
    planet's orbit node holding the mesh; the moon of radius 0.27 at
    (2, 0, 0) under its own orbit node; the ring from 1.2 to 1.8 planet
    radii turned a quarter turn about X.  Later turns of the loop leave the
    objects of earlier entries alone, and nothing lies beyond the last id
    handed out. *)
Theorem setup_builds_every_satellite (catalog : list (PlanetData num))
    (iw ih : num) :
  Forall2 (entryBuilt (heap (setup catalog iw ih)))
          (hoverablePlanets (setup catalog iw ih)) catalog ∧
  nextId (setup catalog iw ih) = 4 + sum_list (allocated <$> catalog) ∧
  (∀ id, nextId (setup catalog iw ih) ≤ id →
         heap (setup catalog iw ih) !! id = None).
Proof.
  destruct (setup_layout catalog iw ih)
    as (Hreg & _ & Hnext & _ & _ & _ & Hbuilt & _ & _ & Hfresh).
  rewrite Hreg. done.
Qed.

(** X11.  For any catalog and in every state the page can reach, the
    scene's children are, in this order, the ambient light, the directional
    light at (50, 50, 50), the sun (a sphere of radius 4, with no children)
    and then the planets' orbit nodes: one plain Object3D per catalog entry,
    in catalog order, each holding exactly one child, the mesh the pickable
    registry lists at the same place. *)
Theorem scene_top_level (catalog : list (PlanetData num)) (iw ih : num)
    (evs : list (Event num)) :
  ∃ sc ambientLight directionalLight,
    heap (run evs (setup catalog iw ih))
      !! scene (run evs (setup catalog iw ih)) = Some sc ∧
    kind sc = KScene ∧
    children sc
      = ambientLight :: directionalLight :: sun (run evs (setup catalog iw ih))
        :: rootNodes (run evs (setup catalog iw ih)) ∧
    heap (run evs (setup catalog iw ih)) !! ambientLight
      = Some ambientLightObject ∧
    heap (run evs (setup catalog iw ih)) !! directionalLight
      = Some directionalLightObject ∧
    heap (run evs (setup catalog iw ih)) !! sun (run evs (setup catalog iw ih))
      = Some sunObject ∧
    Forall2 (λ node planetMesh,
               ∃ o, heap (run evs (setup catalog iw ih)) !! node = Some o ∧
                    kind o = KObject3D ∧ children o = [planetMesh])
            (rootNodes (run evs (setup catalog iw ih)))
            (hoverablePlanets (run evs (setup catalog iw ih))) ∧
    length (rootNodes (run evs (setup catalog iw ih))) = length catalog.
Proof.
  destruct (setup_layout catalog iw ih)
    as (Hreg & Hitems & _ & Hsc & Hsun & _ & Hbuilt &
        (sc & Hscene & Hkind & Hchildren) &
        (Hambient & Hdirectional & Hsunobj) & _).
  destruct (reachable_layout catalog iw ih evs) as (Hregs & Hsome & _).
  destruct (run_structure evs (setup catalog iw ih)) as (_ & _ & Hother).
  apply registries_eq in Hregs as (_ & Hreg' & Hsc' & Hsun' & _).
  assert (∀ id, id < 4 →
            heap (run evs (setup catalog iw ih)) !! id
            = heap (setup catalog iw ih) !! id) as Hfixed.
  { intros id Hid. apply Hother. rewrite Hitems.
    intros (item & -> & Hitem)%list_elem_of_fmap.
    destruct (items_groups catalog 4) as [Hbounds _].
    rewrite Forall_forall in Hbounds. apply Hbounds in Hitem. lia. }
  assert (∀ planetMesh, planetMesh ∈ meshIds 4 catalog →
            ∃ o, heap (run evs (setup catalog iw ih)) !! orbitOf planetMesh
                   = Some o ∧
                 kind o = KObject3D ∧ children o = [planetMesh]) as Horbits.
  { intros planetMesh (i & Hi)%list_elem_of_lookup.
    destruct (Forall2_lookup_l _ _ _ _ _ Hbuilt Hi)
      as (planetData & _ & _ & Horbit & _).
    destruct (Hsome _ _ Horbit) as (o' & Ho' & Hkind' & _ & Hch & _).
    exists o'. by rewrite Hkind', Hch. }
  assert (rootNodes (run evs (setup catalog iw ih))
          = orbitOf <$> meshIds 4 catalog) as Hroots.
  { unfold rootNodes. rewrite Hsc', Hsc, Hfixed, Hscene by lia. simpl.
    rewrite Hchildren, List.filter_app.
    assert (List.filter (isOrbitNode (run evs (setup catalog iw ih))) [1; 2; 3]
            = []) as ->.
    { unfold isOrbitNode. simpl.
      by rewrite !Hfixed, Hambient, Hdirectional, Hsunobj by lia. }
    apply filter_all, Forall_fmap, Forall_forall.
    intros planetMesh (o & Ho & Hkind' & _)%Horbits.
    unfold isOrbitNode. simpl. by rewrite Ho; simpl; rewrite Hkind'. }
  exists sc, 1, 2.
  rewrite Hroots, Hreg', Hreg, Hsc', Hsc, Hsun', Hsun, !Hfixed by lia.
  split_and!; try done.
  - apply Forall2_fmap_l, Forall_Forall2_diag, Forall_forall. exact Horbits.
  - rewrite length_fmap. exact (Forall2_length _ _ _ Hbuilt).
Qed.

(** X12.  For any catalog and in every state the page can reach, no two
    animation entries name the same node, and a frame that finds the
    animation running turns the node of every entry by exactly that entry's
    [speed * delta * 60], once. *)
Theorem frame_turns_each_entry_once (catalog : list (PlanetData num))
    (iw ih : num) (evs : list (Event num)) (delta : num) :
  animationActive (run evs (setup catalog iw ih)) = true →
  NoDup (group <$> planetOrbits (run evs (setup catalog iw ih))) ∧
  Forall (λ item,
            ∃ a, rotation_y (run evs (setup catalog iw ih)) (group item)
                   = Some a ∧
                 rotation_y (step (run evs (setup catalog iw ih)) (Frame delta))
                            (group item)
                   = Some (nadd a (nmul (nmul (speed item) delta) (lit 60))))
         (planetOrbits (run evs (setup catalog iw ih))).
Proof.
  intros Hact.
  destruct (setup_layout catalog iw ih)
    as (_ & Hitems & _ & _ & _ & _ & Hbuilt & _).
  destruct (reachable_layout catalog iw ih evs) as (Hregs & Hsome & _).
  apply registries_eq in Hregs as (Hitems' & _).
  destruct (items_groups catalog 4) as [_ Hnodup].
  pose proof (items_exist _ _ _ Hbuilt) as Hexist.
  rewrite <- Hitems, <- Hitems' in Hnodup, Hexist.
  split; [done|].
  apply Forall_forall. intros item Hitem.
  rewrite Forall_forall in Hexist.
  destruct (Hexist item Hitem) as (child & Hnode).
  destruct (Hsome _ _ Hnode) as (o & Ho & _).
  exists (vy (rotation o)). unfold rotation_y. rewrite Ho. split; [done|].
  change (step (run evs (setup catalog iw ih)) (Frame delta))
    with (exec (animate delta)
            (delivered (Frame delta) (run evs (setup catalog iw ih)))).
  rewrite animate_running by done. simpl.
  rewrite spinAll_lookup_item by done. by rewrite Ho.
Qed.

End Structure.

(** ** What a pick can return *)

Section Targets.
Context {num : Type} {NUM : JsNumber num} {THREE : Three num}.

Lemma raycast_mesh ray (h : gmap nat (Object3D num)) id hit :
  hit ∈ raycast ray h id →
  object hit = id ∧ ∃ o g m, h !! id = Some o ∧ kind o = KMesh g m.
Proof.
  unfold raycast. destruct (h !! id) as [o|]; [|by intros ?%elem_of_nil].
  destruct (kind o) as [| | |g m] eqn:Hkind; try by intros ?%elem_of_nil.
  intros (d & -> & _)%list_elem_of_fmap. split; [done|]. by exists o, g, m.
Qed.

Lemma raycast_node ray (h : gmap nat (Object3D num)) id o :
  h !! id = Some o → kind o = KObject3D → raycast ray h id = [].
Proof. intros Hid Hkind. unfold raycast. by rewrite Hid, Hkind. Qed.

Lemma intersect_0 ray (h : gmap nat (Object3D num)) recursive id :
  intersect 0 ray h recursive id = raycast ray h id.
Proof. destruct recursive; simpl; apply app_nil_r. Qed.

Lemma intersect_S fuel ray (h : gmap nat (Object3D num)) id o :
  h !! id = Some o →
  intersect (S fuel) ray h true id
  = raycast ray h id ++ flat_map (intersect fuel ray h true) (children o).
Proof. intros Hid. simpl. by rewrite Hid. Qed.

Lemma intersect_leaf fuel ray (h : gmap nat (Object3D num)) recursive id o :
  h !! id = Some o → children o = [] →
  intersect fuel ray h recursive id = raycast ray h id.
Proof.
  intros Hid Hchildren.
  destruct fuel, recursive; simpl; rewrite ?Hid, ?Hchildren; apply app_nil_r.
Qed.

(** An orbit node with a single leaf under it yields that leaf's hits, if
    the descent has a level left for it. *)
Lemma intersect_orbit fuel ray (h : gmap nat (Object3D num)) id o child o' :
  h !! id = Some o → kind o = KObject3D → children o = [child] →
  h !! child = Some o' → children o' = [] →
  intersect fuel ray h true id
  = match fuel with 0 => [] | S _ => raycast ray h child end.
Proof.
  intros Hid Hkind Hchildren Hchild Hleaf. destruct fuel as [|fuel].
  - rewrite intersect_0. by apply (raycast_node _ _ _ o).
  - rewrite (intersect_S _ _ _ _ o) by done.
    rewrite (raycast_node _ _ _ o), Hchildren by done. simpl.
    rewrite (intersect_leaf _ _ _ _ _ o') by done. apply app_nil_r.
Qed.

Lemma size_ge_2 (h : gmap nat (Object3D num)) a b :
  a ≠ b → is_Some (h !! a) → is_Some (h !! b) → 2 ≤ size h.
Proof.
  intros Hne Ha [y Hb].
  pose proof (map_size_delete_Some a h Ha) as Hsize.
  assert (size (delete a h) ≠ 0) as Hpos.
  { intros Hempty%map_size_empty_inv.
    assert (delete a h !! b = Some y) as Hb'
      by by rewrite lookup_delete_ne.
    by rewrite Hempty, lookup_empty in Hb'. }
  lia.
Qed.


(** ** The descent below a planet *)

Lemma intersect_entry (h0 h : gmap nat (Object3D num)) planetMesh planetData
    fuel ray :
  entryBuilt h0 planetMesh planetData → kept h0 h →
  intersect (S (S fuel)) ray h true planetMesh
  = entryHits ray h planetData planetMesh.
Proof.
  intros (Hmesh & _ & Hmoon & Hring) Hkept.
  destruct (Hkept _ _ Hmesh) as (o & Ho & _ & _ & Hch & _). simpl in Hch.
  rewrite (intersect_S _ _ _ _ o) by done.
  rewrite Hch. unfold entryHits, satellites. f_equal.
  rewrite flat_map_app. f_equal.
  - destruct (hasMoon planetData); [|done].
    destruct Hmoon as [Hm Hmo]; [done|].
    destruct (Hkept _ _ Hm) as (om & Hom & _ & _ & Hchm & _).
    destruct (Hkept _ _ Hmo) as (oo & Hoo & Hkoo & _ & Hchoo & _).
    cbn [flat_map]. rewrite (intersect_orbit _ _ _ _ oo (moonOf planetMesh) om) by done.
    apply app_nil_r.
  - destruct (hasRings planetData); [|done].
    destruct (Hkept _ _ (Hring eq_refl)) as (or & Hor & _ & _ & Hchr & _).
    cbn [flat_map]. rewrite (intersect_leaf _ _ _ _ _ or) by done. apply app_nil_r.
Qed.

(** Whatever the depth allowed and with or without the descent, a hit below
    a planet is on the planet, on its moon or on its ring. *)
Lemma intersect_entry_sub (h0 h : gmap nat (Object3D num)) planetMesh planetData
    fuel ray recursive hit :
  entryBuilt h0 planetMesh planetData → kept h0 h →
  hit ∈ intersect fuel ray h recursive planetMesh →
  hit ∈ entryHits ray h planetData planetMesh.
Proof.
  intros Hbuilt Hkept Hhit.
  destruct recursive; [|rewrite intersect_nonrecursive in Hhit;
                         unfold entryHits; apply elem_of_app; by left].
  destruct fuel as [|[|fuel]].
  - rewrite intersect_0 in Hhit. unfold entryHits. apply elem_of_app. by left.
  - destruct Hbuilt as (Hmesh & _ & Hmoon & Hring).
    destruct (Hkept _ _ Hmesh) as (o & Ho & _ & _ & Hch & _). simpl in Hch.
    rewrite (intersect_S _ _ _ _ o), Hch in Hhit by done.
    unfold entryHits. unfold satellites in Hhit.
    apply elem_of_app in Hhit as [Hhit|Hhit]; [apply elem_of_app; by left|].
    rewrite flat_map_app in Hhit.
    apply elem_of_app in Hhit as [Hhit|Hhit].
    + destruct (hasMoon planetData); [|by apply elem_of_nil in Hhit].
      destruct Hmoon as [_ Hmo]; [done|].
      destruct (Hkept _ _ Hmo) as (oo & Hoo & Hkoo & _).
      cbn [flat_map] in Hhit. rewrite intersect_0, (raycast_node _ _ _ oo) in Hhit by done.
      by apply elem_of_nil in Hhit.
    + destruct (hasRings planetData); [|by apply elem_of_nil in Hhit].
      cbn [flat_map] in Hhit. rewrite intersect_0, app_nil_r in Hhit.
      apply elem_of_app. right. apply elem_of_app. by right.
  - by rewrite (intersect_entry h0 h _ planetData) in Hhit.
Qed.

Lemma registry_hits (h0 h : gmap nat (Object3D num)) ids
    (catalog : list (PlanetData num)) fuel ray :
  Forall2 (entryBuilt h0) ids catalog → kept h0 h →
  flat_map (intersect (S (S fuel)) ray h true) ids
  = concat (zip_with (entryHits ray h) catalog ids).
Proof.
  intros Hbuilt Hkept.
  induction Hbuilt as [|planetMesh planetData ids catalog Hentry _ IH]; [done|].
  cbn [flat_map zip_with concat].
  by rewrite IH, (intersect_entry h0 h _ planetData).
Qed.

Lemma registry_hits_sub (h0 h : gmap nat (Object3D num)) ids
    (catalog : list (PlanetData num)) fuel ray recursive hit :
  Forall2 (entryBuilt h0) ids catalog → kept h0 h →
  hit ∈ flat_map (intersect fuel ray h recursive) ids →
  ∃ i planetMesh planetData,
    ids !! i = Some planetMesh ∧ catalog !! i = Some planetData ∧
    hit ∈ entryHits ray h planetData planetMesh.
Proof.
  intros Hbuilt Hkept (planetMesh & Hin & Hhit)%list_elem_of_In%in_flat_map.
  apply list_elem_of_In, list_elem_of_lookup in Hin as (i & Hi).
  destruct (Forall2_lookup_l _ _ _ _ _ Hbuilt Hi) as (planetData & Hpd & Hentry).
  exists i, planetMesh, planetData. split_and!; [done|done|].
  apply list_elem_of_In in Hhit. by eapply intersect_entry_sub.
Qed.

Lemma meshIds_ge (catalog : list (PlanetData num)) first :
  Forall (λ planetMesh, first ≤ planetMesh) (meshIds first catalog).
Proof.
  revert first. induction catalog as [|planetData catalog IH]; intros first;
    [constructor|].
  rewrite meshIds_cons. constructor; [done|].
  eapply Forall_impl; [apply IH|]. cbv beta. intros planetMesh ?. lia.
Qed.

(** The targets of a hit among an entry's hits, and what the heap holds
    there. *)
Lemma entryHits_cases (h0 h : gmap nat (Object3D num)) planetMesh planetData
    ray hit :
  entryBuilt h0 planetMesh planetData → kept h0 h →
  hit ∈ entryHits ray h planetData planetMesh →
  ∃ o o', h !! object hit = Some o' ∧ sameButRotationY o o' ∧
    ((object hit = planetMesh ∧ o = planetObject planetData planetMesh) ∨
     (object hit = moonOf planetMesh ∧ o = moonObject) ∨
     (object hit = ringOf planetData planetMesh ∧ o = ringObject planetData)).
Proof.
  intros (Hmesh & _ & Hmoon & Hring) Hkept. unfold entryHits.
  intros [Hhit|[Hhit|Hhit]%elem_of_app]%elem_of_app.
  - apply raycast_mesh in Hhit as [-> _].
    destruct (Hkept _ _ Hmesh) as (o' & Ho' & Hsame).
    exists (planetObject planetData planetMesh), o'. split_and!; try done.
    by left.
  - destruct (hasMoon planetData); [|by apply elem_of_nil in Hhit].
    destruct Hmoon as [Hm _]; [done|].
    apply raycast_mesh in Hhit as [-> _].
    destruct (Hkept _ _ Hm) as (o' & Ho' & Hsame).
    exists moonObject, o'. split_and!; try done. right. by left.
  - destruct (hasRings planetData); [|by apply elem_of_nil in Hhit].
    apply raycast_mesh in Hhit as [-> _].
    destruct (Hkept _ _ (Hring eq_refl)) as (o' & Ho' & Hsame).
    exists (ringObject planetData), o'. split_and!; try done. right. by right.
Qed.


(** ** Picks in the states the page can reach *)

Lemma reachable_entries (catalog : list (PlanetData num)) (iw ih : num)
    (evs : list (Event num)) :
  hoverablePlanets (run evs (setup catalog iw ih)) = meshIds 4 catalog ∧
  sun (run evs (setup catalog iw ih)) = 3 ∧
  Forall2 (entryBuilt (heap (setup catalog iw ih)))
          (hoverablePlanets (run evs (setup catalog iw ih))) catalog ∧
  kept (heap (setup catalog iw ih)) (heap (run evs (setup catalog iw ih))) ∧
  2 ≤ size (heap (run evs (setup catalog iw ih))).
Proof.
  destruct (setup_layout catalog iw ih)
    as (Hreg & _ & _ & _ & Hsun & _ & Hbuilt & (sc & Hscene & _) &
        (Hambient & _) & _).
  destruct (reachable_layout catalog iw ih evs) as (Hregs & Hkept & _).
  apply registries_eq in Hregs as (_ & Hreg' & _ & Hsun' & _).
  rewrite Hreg', Hsun', Hreg, Hsun. split_and!; try done.
  destruct (Hkept _ _ Hscene) as (sc' & Hscene' & _).
  destruct (Hkept _ _ Hambient) as (o1' & H1' & _).
  by apply (size_ge_2 _ 0 1).
Qed.

(** Where a hit the listeners are handed lies: on the mesh of some catalog
    entry, on its moon or on its ring. *)
Lemma pick_target (catalog : list (PlanetData num)) (iw ih : num)
    (evs : list (Event num)) (e : MouseEvent num) (ev : Event num) hit :
  hit ∈ (pick e (delivered ev (run evs (setup catalog iw ih)))).1 →
  ∃ i planetMesh planetData o o',
    hoverablePlanets (run evs (setup catalog iw ih)) !! i = Some planetMesh ∧
    catalog !! i = Some planetData ∧ 4 ≤ planetMesh ∧
    heap (run evs (setup catalog iw ih)) !! object hit = Some o' ∧
    sameButRotationY o o' ∧
    ((object hit = planetMesh ∧ o = planetObject planetData planetMesh) ∨
     (object hit = moonOf planetMesh ∧ o = moonObject) ∨
     (object hit = ringOf planetData planetMesh ∧ o = ringObject planetData)).
Proof.
  destruct (reachable_entries catalog iw ih evs)
    as (Hreg & _ & Hbuilt & Hkept & _).
  rewrite pick_result. unfold intersectObjects. rewrite sort_hits_perm.
  change (heap (delivered ev ?w)) with (heap w).
  change (hoverablePlanets (delivered ev ?w)) with (hoverablePlanets w).
  intros Hhit.
  destruct (registry_hits_sub _ _ _ _ _ _ _ _ Hbuilt Hkept Hhit)
    as (i & planetMesh & planetData & Hi & Hpd & Hentry).
  destruct (Forall2_lookup_l _ _ _ _ _ Hbuilt Hi)
    as (planetData' & Hpd' & Hentry').
  assert (planetData' = planetData) as -> by congruence.
  destruct (entryHits_cases _ _ _ _ _ _ Hentry' Hkept Hentry)
    as (o & o' & Ho' & Hsame & Hcases).
  exists i, planetMesh, planetData, o, o'. split_and!; try done.
  pose proof (meshIds_ge catalog 4) as Hge.
  rewrite Forall_forall in Hge. apply Hge. rewrite <- Hreg.
  apply list_elem_of_lookup. by exists i.
Qed.

(** X13.  With the descent into children that [intersectObjects] makes by
    default, in every state the page can reach and for any catalog, the
    hits a pick collects are, entry by entry in catalog order, those on the
    planet, then those on its moon, then those on its ring: the moon and the
    ring are tested although the registry does not list them, and the depth
    the descent is allowed never cuts it short. *)
Theorem descent_tests_moon_and_ring (catalog : list (PlanetData num))
    (iw ih : num) (evs : list (Event num)) (e : MouseEvent num) :
  recursiveDefault = true →
  candidateHits e (run evs (setup catalog iw ih))
  = concat (zip_with
              (entryHits
                 (setFromCamera
                    (normalized (run evs (setup catalog iw ih)) e)
                    (camera (run evs (setup catalog iw ih))))
                 (heap (run evs (setup catalog iw ih))))
              catalog (hoverablePlanets (run evs (setup catalog iw ih)))).
Proof.
  intros Hrec.
  destruct (reachable_entries catalog iw ih evs)
    as (_ & _ & Hbuilt & Hkept & Hsize).
  unfold candidateHits. rewrite Hrec.
  destruct (size (heap (run evs (setup catalog iw ih)))) as [|[|fuel]];
    [lia|lia|].
  by apply (registry_hits (heap (setup catalog iw ih))).
Qed.

(** X14.  For any catalog, in every state the page can reach and whether or
    not the raycaster descends, the object a listener is handed is a mesh
    and is never the sun: it is a registered planet, a moon or a ring. *)
Theorem pick_targets (catalog : list (PlanetData num)) (iw ih : num)
    (evs : list (Event num)) (e : MouseEvent num) (ev : Event num) (id : nat) :
  picked e (delivered ev (run evs (setup catalog iw ih))) = Some id →
  isMesh (run evs (setup catalog iw ih)) id = true ∧
  id ≠ sun (run evs (setup catalog iw ih)) ∧
  (id ∈ hoverablePlanets (run evs (setup catalog iw ih)) ∨
   isMoon (run evs (setup catalog iw ih)) id = true ∨
   isRing (run evs (setup catalog iw ih)) id = true).
Proof.
  unfold picked.
  destruct (head _) as [hit|] eqn:Hhead; [|done].
  intros [= <-]. apply head_Some_elem_of in Hhead.
  destruct (pick_target _ _ _ _ _ _ _ Hhead)
    as (i & planetMesh & planetData & o & o' & Hi & Hpd & Hge & Ho' &
        (Hkind & _) & Hcases).
  destruct (reachable_entries catalog iw ih evs) as (_ & -> & _).
  unfold isMesh, isMoon, isRing, ringOf, moonOf in *. rewrite Ho'. simpl.
  rewrite Hkind.
  destruct Hcases as [[Hid ->]|[[Hid ->]|[Hid ->]]]; simpl.
  - split_and!; [done|lia|]. left. rewrite Hid.
    apply list_elem_of_lookup. by exists i.
  - split_and!; [done|lia|]. right. by left.
  - split_and!; [done|lia|]. right. by right.
Qed.

(** What [userData.name] reads on the object a listener is handed. *)
Lemma picked_name (catalog : list (PlanetData num)) (iw ih : num)
    (evs : list (Event num)) (e : MouseEvent num) (ev : Event num) (id : nat) :
  picked e (delivered ev (run evs (setup catalog iw ih))) = Some id →
  (∀ i planetData,
     hoverablePlanets (run evs (setup catalog iw ih)) !! i = Some id →
     catalog !! i = Some planetData →
     userData_name (run evs (setup catalog iw ih)) id
       = Some (name planetData) ∧
     userData_funFact (run evs (setup catalog iw ih)) id
       = Some (funFact planetData)) ∧
  (id ∉ hoverablePlanets (run evs (setup catalog iw ih)) →
     userData_name (run evs (setup catalog iw ih)) id = None ∧
     userData_funFact (run evs (setup catalog iw ih)) id = None).
Proof.
  intros Hpick. split.
  - intros i planetData Hi Hpd.
    destruct (reachable_entries catalog iw ih evs)
      as (_ & _ & Hbuilt & Hkept & _).
    destruct (Forall2_lookup_l _ _ _ _ _ Hbuilt Hi)
      as (planetData' & Hpd' & Hmesh & _).
    assert (planetData' = planetData) as -> by congruence.
    destruct (Hkept _ _ Hmesh) as (o' & Ho' & _ & _ & _ & Hud & _).
    unfold userData_name, userData_funFact. rewrite Ho'. simpl.
    by rewrite Hud.
  - intros Hnotin. unfold picked in Hpick.
    destruct (head _) as [hit|] eqn:Hhead; [|done].
    injection Hpick as <-. apply head_Some_elem_of in Hhead.
    destruct (pick_target _ _ _ _ _ _ _ Hhead)
      as (i & planetMesh & planetData & o & o' & Hi & Hpd & Hge & Ho' &
          (_ & _ & _ & Hud & _) & Hcases).
    unfold userData_name, userData_funFact. rewrite Ho'. simpl. rewrite Hud.
    destruct Hcases as [[Hid ->]|[[Hid ->]|[Hid ->]]]; try done.
    destruct Hnotin. rewrite Hid. apply list_elem_of_lookup. by exists i.
Qed.

(** X15.  Hovering in any state the page can reach, for any catalog.  When
    the listener is handed the mesh of the i-th catalog entry, the tooltip
    shows that entry's name in bold and its fun fact, ten pixels right of and
    below the pointer.  When it is handed an object the registry does not
    list (a moon or a ring, reached by the descent), the tooltip shows
    "undefined" twice.  When it is handed nothing, the tooltip is hidden and
    keeps its text and place. *)
Theorem hover_tooltip (catalog : list (PlanetData num)) (iw ih : num)
    (evs : list (Event num)) (e : MouseEvent num) :
  match picked e (delivered (MouseMove e) (run evs (setup catalog iw ih))) with
  | Some id =>
      tt_display (tooltip (step (run evs (setup catalog iw ih)) (MouseMove e)))
        = display_block ∧
      tt_left (tooltip (step (run evs (setup catalog iw ih)) (MouseMove e)))
        = nadd (clientX e) (lit 10) ∧
      tt_top (tooltip (step (run evs (setup catalog iw ih)) (MouseMove e)))
        = nadd (clientY e) (lit 10) ∧
      (∀ i planetData,
         hoverablePlanets (run evs (setup catalog iw ih)) !! i = Some id →
         catalog !! i = Some planetData →
         tt_innerHTML
           (tooltip (step (run evs (setup catalog iw ih)) (MouseMove e)))
         = "<strong>" +:+ name planetData +:+ "</strong><br>"
             +:+ funFact planetData) ∧
      (id ∉ hoverablePlanets (run evs (setup catalog iw ih)) →
         tt_innerHTML
           (tooltip (step (run evs (setup catalog iw ih)) (MouseMove e)))
         = "<strong>undefined</strong><br>undefined")
  | None =>
      tooltip (step (run evs (setup catalog iw ih)) (MouseMove e))
      = mkTooltip display_none
          (tt_innerHTML (tooltip (run evs (setup catalog iw ih))))
          (tt_left (tooltip (run evs (setup catalog iw ih))))
          (tt_top (tooltip (run evs (setup catalog iw ih))))
  end.
Proof.
  rewrite step_MouseMove_tooltip.
  pose proof (picked_name catalog iw ih evs e (MouseMove e)) as Hname.
  destruct (picked _ _) as [id|] eqn:Hpick; [|done].
  destruct (Hname id eq_refl) as [Hmember Hother].
  split_and!; try done.
  - intros i planetData Hi Hpd. simpl.
    by destruct (Hmember i planetData Hi Hpd) as [-> ->].
  - intros Hnotin. simpl. by destruct (Hother Hnotin) as [-> ->].
Qed.


(** X16.  Clicking in any state the page can reach, for any catalog.  When
    the listener is handed the mesh of a catalog entry named "Mars", the
    overlay is shown and one dismissal is queued 5000 ms ahead, behind those
    already pending.  When it is handed the mesh of an entry with another
    name, a moon or a ring, or nothing, overlay and pending dismissals stay
    as they are. *)
Theorem click_overlay (catalog : list (PlanetData num)) (iw ih : num)
    (evs : list (Event num)) (e : MouseEvent num) :
  match picked e (delivered (Click e) (run evs (setup catalog iw ih))) with
  | Some id =>
      (∀ i planetData,
         hoverablePlanets (run evs (setup catalog iw ih)) !! i = Some id →
         catalog !! i = Some planetData →
         if bool_decide (name planetData = "Mars")
         then
           gifOverlay (step (run evs (setup catalog iw ih)) (Click e))
             = Some display_block ∧
           timers (step (run evs (setup catalog iw ih)) (Click e))
             = timers (run evs (setup catalog iw ih))
               ++ [(now (run evs (setup catalog iw ih)) + 5000)%N]
         else
           gifOverlay (step (run evs (setup catalog iw ih)) (Click e))
             = gifOverlay (run evs (setup catalog iw ih)) ∧
           timers (step (run evs (setup catalog iw ih)) (Click e))
             = timers (run evs (setup catalog iw ih))) ∧
      (id ∉ hoverablePlanets (run evs (setup catalog iw ih)) →
         gifOverlay (step (run evs (setup catalog iw ih)) (Click e))
           = gifOverlay (run evs (setup catalog iw ih)) ∧
         timers (step (run evs (setup catalog iw ih)) (Click e))
           = timers (run evs (setup catalog iw ih)))
  | None =>
      gifOverlay (step (run evs (setup catalog iw ih)) (Click e))
        = gifOverlay (run evs (setup catalog iw ih)) ∧
      timers (step (run evs (setup catalog iw ih)) (Click e))
        = timers (run evs (setup catalog iw ih))
  end.
Proof.
  pose proof (picked_name catalog iw ih evs e (Click e)) as Hname.
  destruct (step_Click_cases (run evs (setup catalog iw ih)) e)
    as [((hit & Hhead & Hmars) & Hover & Htimers & _)
       |(Hnot & Hover & Htimers & _)].
  - unfold picked, delivered in *. rewrite Hhead in *. simpl in *.
    destruct (Hname _ eq_refl) as [Hmember Hother]. split.
    + intros i planetData Hi Hpd.
      destruct (Hmember i planetData Hi Hpd) as [Hn _].
      rewrite Hn in Hmars. injection Hmars as Hmars.
      by rewrite bool_decide_eq_true_2.
    + intros Hnotin. destruct (Hother Hnotin) as [Hn _].
      by rewrite Hn in Hmars.
  - destruct (picked _ _) as [id|] eqn:Hpick; [|done].
    destruct (Hname _ eq_refl) as [Hmember _]. split; [|done].
    intros i planetData Hi Hpd.
    destruct (Hmember i planetData Hi Hpd) as [Hn _].
    case_bool_decide as Hmars; [|done].
    destruct Hnot. unfold picked, delivered in Hpick.
    destruct (head _) as [hit|] eqn:Hhead; [|done].
    injection Hpick as Hid. exists hit. split; [done|].
    by rewrite Hid, Hn, Hmars.
Qed.

Lemma number_irrefl (order : NumberOrder num) (a : num) : nltb a a = false.
Proof.
  destruct (nltb a a) eqn:Hlt; [|done].
  by rewrite (number_asym _ order a a Hlt) in Hlt.
Qed.

(** Between numbers, [insert_hit] keeps a nearest hit at the head. *)
Lemma head_insert_hit_numbers (order : NumberOrder num)
    (a : Intersection num) l m :
  isNumber (distance a) = true →
  Forall (λ hit, isNumber (distance hit) = true) l →
  head l = Some m → nearest m l →
  ∃ m', head (insert_hit a l) = Some m' ∧ nearest m' (a :: l).
Proof.
  intros Ha Hl Hhead Hnear. destruct l as [|b l]; [done|].
  injection Hhead as ->. apply Forall_cons in Hl as [Hm Hl]. simpl.
  unfold ascSort. rewrite (number_sub_pos _ order) by done.
  destruct (nltb (distance m) (distance a)) eqn:Hlt.
  - exists m. split; [done|]. intros hit [->|Hhit]%elem_of_cons.
    + by apply (number_asym _ order).
    + by apply Hnear.
  - exists a. split; [done|]. intros hit [->|Hhit]%elem_of_cons.
    + apply (number_irrefl order).
    + destruct (nltb (distance hit) (distance a)) eqn:Hlt'; [|done].
      destruct (number_negtrans _ order _ _ (distance m) Hm Hlt')
        as [Hhm|Hma].
      * by rewrite (Hnear hit Hhit) in Hhm.
      * by rewrite Hlt in Hma.
Qed.

Lemma head_sort_hits_numbers (order : NumberOrder num)
    (l : list (Intersection num)) :
  Forall (λ hit, isNumber (distance hit) = true) l →
  match head (sort_hits l) with
  | Some m => m ∈ l ∧ nearest m l
  | None => l = []
  end.
Proof.
  induction 1 as [|a l Ha Hl IH]; [done|].
  change (sort_hits (a :: l)) with (insert_hit a (sort_hits l)).
  assert (Forall (λ hit, isNumber (distance hit) = true) (sort_hits l))
    as Hsorted by (by rewrite sort_hits_perm).
  destruct (head (sort_hits l)) as [m|] eqn:Hhead.
  - destruct IH as [Hin Hm].
    destruct (head_insert_hit_numbers order a (sort_hits l) m Ha Hsorted Hhead)
      as (m' & Hm' & Hnear).
    { intros hit Hhit. apply Hm. by rewrite <- (sort_hits_perm l). }
    rewrite Hm'. split.
    + apply head_Some_elem_of in Hm'.
      by rewrite insert_hit_perm, sort_hits_perm in Hm'.
    + intros hit Hhit. apply Hnear. revert Hhit. rewrite !elem_of_cons.
      by rewrite sort_hits_perm.
  - subst l. simpl. split; [by left|].
    intros hit ->%list_elem_of_singleton. apply (number_irrefl order).
Qed.

(** What [pick_nonrecursive] says, on binary64 as well: between distances
    that are numbers, a raycaster that does not descend hands the listener
    a nearest hit on a registry member. *)
Lemma pick_nonrecursive_numbers (order : NumberOrder num)
    (event : MouseEvent num) (w : World num) :
  recursiveDefault = false →
  Forall (λ hit, isNumber (distance hit) = true) (memberHits event w) →
  match head (pick event w).1 with
  | Some m =>
      object m ∈ hoverablePlanets w ∧ m ∈ memberHits event w ∧
      nearest m (memberHits event w)
  | None => memberHits event w = []
  end.
Proof.
  intros Hrec Hnumbers. rewrite pick_result, Hrec. unfold intersectObjects.
  assert (flat_map (intersect (size (heap w))
                      (setFromCamera (normalized w event) (camera w))
                      (heap w) false) (hoverablePlanets w)
          = memberHits event w) as ->.
  { unfold memberHits. apply flat_map_ext. intros id.
    apply intersect_nonrecursive. }
  pose proof (head_sort_hits_numbers order (memberHits event w) Hnumbers)
    as Hhead.
  destruct (head (sort_hits (memberHits event w))) as [m|]; [|done].
  destruct Hhead as [Hin Hnear]. repeat split; try done.
  unfold memberHits in Hin.
  apply list_elem_of_In, in_flat_map in Hin as (id & Hid & Hhit).
  apply list_elem_of_In in Hid, Hhit.
  by rewrite (raycast_object _ _ _ _ Hhit).
Qed.

(** X17.  Where [<] orders the numbers as a strict weak order and between
    numbers the sign of a difference tells the order (as binary64 and the
    rationals do), and every hit collected lies at a distance that is a
    number, the hit the listeners use is one of the hits collected and none
    of them is strictly nearer; there is none exactly when nothing was hit.
    This holds for any scene and either setting of the descent. *)
Theorem pick_nearest_candidate (order : NumberOrder num)
    (e : MouseEvent num) (w : World num) :
  Forall (λ hit, isNumber (distance hit) = true) (candidateHits e w) →
  (∀ m, head (pick e w).1 = Some m →
        m ∈ candidateHits e w ∧ nearest m (candidateHits e w)) ∧
  (head (pick e w).1 = None → candidateHits e w = []).
Proof.
  intros Hnumbers.
  rewrite pick_result. unfold intersectObjects.
  pose proof (head_sort_hits_numbers order (candidateHits e w) Hnumbers) as Hhead.
  unfold candidateHits in *.
  destruct (head (sort_hits _)) as [m'|].
  - split; [|done]. by intros m [= <-].
  - by split.
Qed.

End Targets.

(** ** C5: two frames against one, in any arithmetic *)

Section TwoFrames.
Context {num : Type} {NUM : JsNumber num} {THREE : Three num}.
Local Open Scope num_scope.




End TwoFrames.

(** ** The rationals obey the laws *)

Lemma Qc_exact : ExactArith Qc.
Proof.
  unfold ExactArith. simpl. constructor; intros; simpl; ring.
Qed.

Lemma Qc_leb_le (a b : Qc) : Qc_leb a b = true ↔ (a <= b)%Qc.
Proof.
  unfold Qc_leb. rewrite Qcle_alt.
  destruct (a ?= b)%Qc; split; intros; congruence.
Qed.

Lemma Qc_ltb_lt (a b : Qc) : Qc_ltb a b = true ↔ (a < b)%Qc.
Proof.
  unfold Qc_ltb. rewrite Qclt_alt.
  destruct (a ?= b)%Qc; split; intros; congruence.
Qed.

Lemma Qc_ltb_ge (a b : Qc) : Qc_ltb a b = false ↔ (b <= a)%Qc.
Proof.
  rewrite <- not_true_iff_false, Qc_ltb_lt. split.
  - apply Qcnot_lt_le.
  - intros Hle Hlt. exact (Qclt_not_le _ _ Hlt Hle).
Qed.

Lemma Qc_ordered : OrderedArith Qc.
Proof.
  constructor; simpl; intros *; rewrite ?Qc_leb_le, ?Qc_ltb_ge.
  - apply Qcle_refl.
  - done.
  - intros Hq. unfold Qcle. simpl. by rewrite !Qred_correct.
  - unfold Qcle. simpl. rewrite !Qred_correct. apply Qmult_le_0_compat.
  - unfold Qcle. simpl. rewrite !Qred_correct. intros Hr Ha.
    rewrite <- (Qplus_0_r r). by apply Qplus_le_compat.
Qed.

Lemma Qc_strict : StrictWeakOrder Qc.
Proof.
  constructor; simpl.
  - intros a b Hab%Qc_ltb_lt. apply not_true_is_false.
    intros Hba%Qc_ltb_lt. exact (Qclt_not_le _ _ Hab (Qclt_le_weak _ _ Hba)).
  - intros a b c Hab%Qc_ltb_lt. rewrite !Qc_ltb_lt.
    destruct (Qclt_le_dec a c) as [Hac|Hca]; [by left|right].
    eapply Qcle_lt_trans; eauto.
  - intros a b. apply eq_true_iff_eq. rewrite !Qc_ltb_lt.
    rewrite (Qclt_minus_iff b a). done.
Qed.

Lemma Qc_number_order : NumberOrder Qc.
Proof.
  constructor; intros *.
  - apply (nltb_asym _ Qc_strict).
  - intros _. apply (nltb_negtrans _ Qc_strict).
  - intros _ _. apply (nsub_pos _ Qc_strict).
Qed.

(** ** Binary64 obeys the laws of order

    Every finite binary64 number is a whole number of units of 2^-1074, so
    the order of two numbers is the order of two integers, and rounding to
    nearest keeps a sum on the same side of every representable number. *)

Section Binary64.
Local Open Scope Z_scope.

(** *** The order is the order of the values *)

Lemma digits2_size (m : positive) : digits2_pos m = Pos.size m.
Proof. induction m as [m IH|m IH|]; simpl; by rewrite ?IH. Qed.

Lemma digits2_log2 (m : positive) : Zpos (digits2_pos m) = Z.log2 (Zpos m) + 1.
Proof.
  induction m as [m IH|m IH|]; simpl; try done.
  - rewrite Pos2Z.inj_succ, IH. destruct m; simpl; lia.
  - rewrite Pos2Z.inj_succ, IH. destruct m; simpl; lia.
Qed.

Lemma digits2_bounds (m : positive) :
  2 ^ (Zpos (digits2_pos m) - 1) ≤ Zpos m < 2 ^ Zpos (digits2_pos m).
Proof.
  rewrite digits2_log2.
  replace (Z.log2 (Zpos m) + 1 - 1) with (Z.log2 (Zpos m)) by lia.
  apply (Z.log2_spec (Zpos m)). lia.
Qed.

Lemma canonical_spec (m : positive) (e : Z) :
  canonical_mantissa 53 1024 m e = true ↔
  -1074 ≤ e ∧ Zpos (digits2_pos m) ≤ 53 ∧
  (-1074 < e → Zpos (digits2_pos m) = 53).
Proof.
  unfold canonical_mantissa, fexp, SpecFloat.emin.
  rewrite Z.eqb_eq. lia.
Qed.

Lemma units_pos m e : -1074 ≤ e → 0 < units m e.
Proof. intros He. unfold units. apply Z.mul_pos_pos; [lia|]. apply Z.pow_pos_nonneg; lia. Qed.

(** On canonical mantissas, the order on (exponent, mantissa) is the order
    on values. *)
Lemma canonical_lt_exp m1 e1 m2 e2 :
  canonical_mantissa 53 1024 m1 e1 = true →
  canonical_mantissa 53 1024 m2 e2 = true →
  e1 < e2 → units m1 e1 < units m2 e2.
Proof.
  intros (He1 & Hd1 & _)%canonical_spec (He2 & Hd2 & Hn2)%canonical_spec Hlt.
  pose proof (digits2_bounds m1) as [_ Hm1].
  pose proof (digits2_bounds m2) as [Hm2 _].
  rewrite Hn2 in Hm2 by lia. unfold units.
  assert (Zpos m1 < 2 ^ 53) as Hm1'.
  { eapply Z.lt_le_trans; [exact Hm1|]. apply Z.pow_le_mono_r; lia. }
  replace (e2 + 1074) with ((e2 - e1 - 1) + 1 + (e1 + 1074)) by lia.
  rewrite (Z.pow_add_r 2 (e2 - e1 - 1 + 1) (e1 + 1074)) by lia.
  rewrite (Z.pow_add_r 2 (e2 - e1 - 1) 1) by lia.
  assert (0 < 2 ^ (e1 + 1074)) as HA by (apply Z.pow_pos_nonneg; lia).
  assert (1 ≤ 2 ^ (e2 - e1 - 1)) as HB by (apply (Z.pow_le_mono_r 2 0); lia).
  set (A := 2 ^ (e1 + 1074)) in *. set (B := 2 ^ (e2 - e1 - 1)) in *.
  change (2 ^ (53 - 1)) with 4503599627370496 in Hm2.
  change (2 ^ 53) with 9007199254740992 in Hm1'.
  change (2 ^ 1) with 2.
  assert (Zpos m1 * A < 9007199254740992 * A) by nia.
  assert (9007199254740992 * A ≤ Zpos m2 * (2 * A)) by nia.
  assert (Zpos m2 * (2 * A) ≤ Zpos m2 * (B * (2 * A))) by nia.
  lia.
Qed.

Lemma canonical_compare m1 e1 m2 e2 :
  canonical_mantissa 53 1024 m1 e1 = true →
  canonical_mantissa 53 1024 m2 e2 = true →
  match e1 ?= e2 with
  | Lt => Lt
  | Gt => Gt
  | Eq => Pos.compare_cont Eq m1 m2
  end = (units m1 e1 ?= units m2 e2).
Proof.
  intros H1 H2. destruct (Z.compare_spec e1 e2) as [->|Hlt|Hgt].
  - change (Pos.compare_cont Eq m1 m2) with (Zpos m1 ?= Zpos m2).
    unfold units.
    assert (0 < 2 ^ (e2 + 1074)) as HA.
    { apply Z.pow_pos_nonneg; [lia|]. apply canonical_spec in H2. lia. }
    destruct (Z.compare_spec (Zpos m1) (Zpos m2)) as [->|Hlt|Hgt]; symmetry.
    + apply Z.compare_refl.
    + apply Z.compare_lt_iff. nia.
    + apply Z.compare_gt_iff. nia.
  - symmetry. apply Z.compare_lt_iff. by apply canonical_lt_exp.
  - symmetry. apply Z.compare_gt_iff. by apply canonical_lt_exp.
Qed.

Lemma bounded_canonical m e :
  bounded 53 1024 m e = true →
  canonical_mantissa 53 1024 m e = true ∧ e ≤ 971.
Proof. unfold bounded. intros [H1 H2%Z.leb_le]%andb_true_iff. by split. Qed.

Lemma bounded_units m e :
  bounded 53 1024 m e = true → 0 < units m e < 2 ^ 2098.
Proof.
  intros [(He & Hd & _)%canonical_spec Hmax]%bounded_canonical.
  split; [by apply units_pos|]. unfold units.
  pose proof (digits2_bounds m) as [_ Hm].
  assert (Zpos m < 2 ^ 53) as Hm'.
  { eapply Z.lt_le_trans; [exact Hm|]. apply Z.pow_le_mono_r; lia. }
  assert (2 ^ (e + 1074) ≤ 2 ^ 2045) by (apply Z.pow_le_mono_r; lia).
  assert (0 < 2 ^ (e + 1074)) by (apply Z.pow_pos_nonneg; lia).
  replace (2 ^ 2098) with (2 ^ 53 * 2 ^ 2045) by (rewrite <- Z.pow_add_r; lia).
  nia.
Qed.

Lemma Some_Lt a b : a < b → Some Lt = Some (a ?= b).
Proof. intros H. f_equal. symmetry. by apply Z.compare_lt_iff. Qed.

Lemma Some_Gt a b : b < a → Some Gt = Some (a ?= b).
Proof. intros H. f_equal. symmetry. by apply Z.compare_gt_iff. Qed.

Lemma Some_Eq a b : a = b → Some Eq = Some (a ?= b).
Proof. intros ->. f_equal. symmetry. apply Z.compare_refl. Qed.

(** The comparison of two valid numbers is the comparison of their values. *)
Lemma SFcompare_val (x y : spec_float) :
  valid_binary x = true → valid_binary y = true →
  SFnan x = false → SFnan y = false →
  SFcompare x y = Some (SFval x ?= SFval y).
Proof.
  intros Hx Hy Hnx Hny.
  destruct x as [sx|sx| |sx mx ex], y as [sy|sy| |sy my ey];
    try discriminate;
    cbn -[Z.compare units Z.pow Z.opp] in *;
    try (pose proof (bounded_units _ _ Hx) as Hbx);
    try (pose proof (bounded_units _ _ Hy) as Hby).
  9: { destruct (bounded_canonical _ _ Hx) as [Hcx _].
       destruct (bounded_canonical _ _ Hy) as [Hcy _].
       destruct sx, sy; cbn -[Z.compare units Z.pow Z.opp].
       - rewrite Z.compare_opp.
         rewrite <- (canonical_compare my ey mx ex) by done.
         rewrite (Z.compare_antisym ex ey).
         destruct (ex ?= ey); simpl; try done.
         change (Pos.compare_cont Eq mx my) with (mx ?= my)%positive.
         change (Pos.compare_cont Eq my mx) with (my ?= mx)%positive.
         by rewrite (Pos.compare_antisym mx my).
       - apply Some_Lt. lia.
       - apply Some_Gt. lia.
       - f_equal. by apply canonical_compare. }
  all: try destruct sx; try destruct sy; cbn -[Z.compare units Z.pow Z.opp];
    first [by apply Some_Eq | apply Some_Lt; lia | apply Some_Gt; lia].
Qed.


(** *** Shifting right *)

Lemma pow2_pos n : 0 ≤ n → 0 < 2 ^ n.
Proof. intros. by apply Z.pow_pos_nonneg. Qed.

Lemma shr_1_spec (mrs : shr_record) :
  0 ≤ shr_m mrs →
  shr_m (shr_1 mrs) = Z.div (shr_m mrs) 2 ∧
  (Z.modulo (shr_m mrs) 2 = 0 → shr_r mrs = false → shr_s mrs = false →
   shr_r (shr_1 mrs) = false ∧ shr_s (shr_1 mrs) = false).
Proof.
  destruct mrs as [m r s]. cbn [shr_m shr_r shr_s shr_1]. intros Hm.
  destruct m as [|[p|p|]|]; cbn [shr_m shr_r shr_s];
    [split; [done|by intros _ -> ->]| | | |lia].
  - rewrite Pos2Z.inj_xI.
    split; [Z.div_mod_to_equations; lia|]. intros H.
    Z.div_mod_to_equations. lia.
  - rewrite Pos2Z.inj_xO.
    split; [Z.div_mod_to_equations; lia|]. by intros _ -> ->.
  - split; [done|]. intros H. done.
Qed.

Lemma shifted_1 mrs : 0 ≤ shr_m mrs → shifted 1 mrs (shr_1 mrs).
Proof. intros Hm. by apply shr_1_spec. Qed.

Lemma shifted_trans n1 n2 mrs1 mrs2 mrs3 :
  0 ≤ n1 → 0 ≤ n2 → 0 ≤ shr_m mrs1 →
  shifted n1 mrs1 mrs2 → shifted n2 mrs2 mrs3 → shifted (n1 + n2) mrs1 mrs3.
Proof.
  intros Hn1 Hn2 Hm [Hm2 Hx2] [Hm3 Hx3].
  pose proof (pow2_pos n1 Hn1). pose proof (pow2_pos n2 Hn2).
  unfold shifted. rewrite Z.pow_add_r by done. split.
  - rewrite Hm3, Hm2. by rewrite Z.div_div by lia.
  - intros Hmod Hr Hs.
    assert (shr_m mrs1 `mod` 2 ^ n1 = 0) as Hmod1.
    { apply Z.mod_divide; [lia|]. apply Z.mod_divide in Hmod; [|lia].
      destruct Hmod as [c Hc]. exists (c * 2 ^ n2). lia. }
    destruct (Hx2 Hmod1 Hr Hs) as [Hr2 Hs2].
    apply Hx3; [|done|done]. rewrite Hm2.
    apply Z.mod_divide in Hmod; [|lia]. destruct Hmod as [c Hc].
    rewrite Hc. replace (c * (2 ^ n1 * 2 ^ n2)) with (c * 2 ^ n2 * 2 ^ n1) by lia.
    rewrite Z.div_mul by lia. by rewrite Z.mod_mul by lia.
Qed.

Lemma shifted_nonneg n mrs mrs' :
  0 ≤ n → 0 ≤ shr_m mrs → shifted n mrs mrs' → 0 ≤ shr_m mrs'.
Proof.
  intros Hn Hm [-> _]. apply Z.div_pos; [done|by apply pow2_pos].
Qed.

Lemma iter_pos_shifted (p : positive) (mrs : shr_record) :
  0 ≤ shr_m mrs → shifted (Zpos p) mrs (SpecFloat.iter_pos shr_1 p mrs).
Proof.
  revert mrs. induction p as [p IH|p IH|]; intros mrs Hm; simpl.
  - rewrite Pos2Z.inj_xI.
    replace (2 * Zpos p + 1) with (1 + (Zpos p + Zpos p)) by lia.
    pose proof (shifted_1 mrs Hm) as H1.
    pose proof (shifted_nonneg 1 _ _ ltac:(lia) Hm H1) as Hm1.
    pose proof (IH _ Hm1) as H2.
    pose proof (shifted_nonneg (Zpos p) _ _ ltac:(lia) Hm1 H2) as Hm2.
    pose proof (IH _ Hm2) as H3.
    apply (shifted_trans 1 (Zpos p + Zpos p) mrs (shr_1 mrs));
      [lia|lia|done|done|].
    apply (shifted_trans (Zpos p) (Zpos p) _
             (SpecFloat.iter_pos shr_1 p (shr_1 mrs))); [lia|lia|done|done|done].
  - rewrite Pos2Z.inj_xO.
    replace (2 * Zpos p) with (Zpos p + Zpos p) by lia.
    pose proof (IH _ Hm) as H2.
    pose proof (shifted_nonneg (Zpos p) _ _ ltac:(lia) Hm H2) as Hm2.
    apply (shifted_trans (Zpos p) (Zpos p) _ (SpecFloat.iter_pos shr_1 p mrs));
      [lia|lia|done|done|]. by apply IH.
  - by apply shifted_1.
Qed.

Lemma shr_spec (m e n : Z) :
  0 ≤ m → 0 ≤ n →
  ∃ mrs, shr (shr_record_of_loc m loc_Exact) e n = (mrs, e + n) ∧
         shr_m mrs = Z.div m (2 ^ n) ∧
         (Z.modulo m (2 ^ n) = 0 → loc_of_shr_record mrs = loc_Exact).
Proof.
  intros Hm Hn. destruct n as [|p|p]; [| |lia].
  - exists (shr_record_of_loc m loc_Exact). simpl.
    rewrite Z.add_0_r, Z.div_1_r. done.
  - exists (SpecFloat.iter_pos shr_1 p (shr_record_of_loc m loc_Exact)).
    destruct (iter_pos_shifted p (shr_record_of_loc m loc_Exact) Hm)
      as [Hm' Hx].
    split; [done|]. split; [exact Hm'|].
    intros Hmod. destruct (Hx Hmod eq_refl eq_refl) as [Hr Hs].
    destruct (SpecFloat.iter_pos shr_1 p _) as [m' r' s']. simpl in *. by subst.
Qed.

Lemma round_nearest_even_spec (m : Z) (l : location) :
  m ≤ round_nearest_even m l ≤ m + 1 ∧
  (l = loc_Exact → round_nearest_even m l = m).
Proof.
  destruct l as [|[| |]]; simpl; try destruct (Z.even m); split; try done; lia.
Qed.

(** *** Rounding to 53 bits *)

Lemma Zdigits2_unique (q D : Z) :
  1 ≤ D → 2 ^ (D - 1) ≤ q < 2 ^ D → Zdigits2 q = D.
Proof.
  intros HD [Hlo Hhi].
  assert (0 < q) as Hq by (pose proof (pow2_pos (D - 1)); lia).
  destruct q as [|p|p]; try lia. simpl. rewrite digits2_log2.
  rewrite (Z.log2_unique (Zpos p) (D - 1)); [lia|lia|].
  by replace (Z.succ (D - 1)) with D by lia.
Qed.

Lemma fexp_eq x : fexp 53 1024 x = Z.max (x - 53) (-1074).
Proof. reflexivity. Qed.

(** The second shift of [binary_round_aux] puts a mantissa that rounding
    carried to 2^53 back in range. *)
Lemma normalize_spec (q fx D : Z) :
  -1074 ≤ fx → 1 ≤ D ≤ 53 → (-1074 < fx → D = 53) →
  2 ^ (D - 1) ≤ q ≤ 2 ^ D → (q = 2 ^ D → D = 53) →
  ∃ mrs e'' m'',
    shr_fexp 53 1024 q fx loc_Exact = (mrs, e'') ∧ shr_m mrs = Zpos m'' ∧
    canonical_mantissa 53 1024 m'' e'' = true ∧
    units m'' e'' = q * 2 ^ (fx + 1074) ∧
    (971 < e'' → 2 ^ 2098 ≤ q * 2 ^ (fx + 1074)).
Proof.
  intros Hfx HD Hnorm [Hlo Hhi] Hcarry.
  pose proof (pow2_pos (D - 1) ltac:(lia)) as Hpos.
  pose proof (pow2_pos (fx + 1074) ltac:(lia)) as Hpos'.
  unfold shr_fexp. rewrite fexp_eq.
  destruct (Z.eq_dec q (2 ^ D)) as [Hq|Hq].
  - (* carry *)
    specialize (Hcarry Hq). subst D.
    assert (Zdigits2 q = 54) as ->.
    { apply Zdigits2_unique; [lia|]. rewrite Hq.
      change (2 ^ (54 - 1)) with (2 ^ 53). split; [lia|].
      apply Z.pow_lt_mono_r; lia. }
    replace (Z.max (54 + fx - 53) (-1074) - fx) with 1 by lia.
    destruct (shr_spec q fx 1) as (mrs & Hshr & Hm & _); [lia|lia|].
    exists mrs, (fx + 1), (Z.to_pos (Z.div q (2 ^ 1))).
    assert (Z.div q (2 ^ 1) = 2 ^ 52) as Hhalf.
    { rewrite Hq. change (2 ^ 53) with (2 ^ 52 * 2 ^ 1).
      by rewrite Z.div_mul by done. }
    rewrite Hhalf in *. split; [done|]. split; [by rewrite Hm|].
    split; [|split].
    + apply canonical_spec. change (Z.to_pos (2 ^ 52)) with 4503599627370496%positive.
      simpl. lia.
    + unfold units. rewrite Z2Pos.id by done. rewrite Hq.
      replace (fx + 1 + 1074) with (1 + (fx + 1074)) by lia.
      rewrite Z.pow_add_r by lia. change (2 ^ 53) with (2 ^ 52 * 2 ^ 1). lia.
    + intros He. rewrite Hq.
      replace 2098 with (53 + 2045) by lia. rewrite Z.pow_add_r by lia.
      apply Z.mul_le_mono_nonneg_l; [lia|]. apply Z.pow_le_mono_r; lia.
  - (* no carry *)
    assert (Zdigits2 q = D) as -> by (apply Zdigits2_unique; lia).
    replace (Z.max (D + fx - 53) (-1074) - fx) with 0 by lia.
    assert (0 < q) as Hq0 by lia.
    destruct q as [|p|p]; try lia.
    exists (shr_record_of_loc (Zpos p) loc_Exact), fx, p.
    split; [done|]. split; [done|].
    assert (Zpos (digits2_pos p) = D) as Hdig.
    { change (Zdigits2 (Zpos p) = D). apply Zdigits2_unique; lia. }
    split; [|split].
    + apply canonical_spec. lia.
    + done.
    + intros He. rewrite (Hnorm ltac:(lia)) in *.
      replace 2098 with (52 + 2046) by lia. rewrite Z.pow_add_r by lia.
      change (2 ^ (53 - 1)) with (2 ^ 52) in Hlo.
      assert (2 ^ 2046 ≤ 2 ^ (fx + 1074)) by (apply Z.pow_le_mono_r; lia).
      pose proof (pow2_pos 2046 ltac:(lia)). pose proof (pow2_pos 52 ltac:(lia)).
      nia.
Qed.

Lemma units_log2 m e : -1074 ≤ e →
  Z.log2 (units m e) + 1 = Zpos (digits2_pos m) + e + 1074.
Proof.
  intros He. unfold units. rewrite Z.log2_mul_pow2 by lia.
  rewrite digits2_log2. lia.
Qed.

Lemma div_pow2_bounds (m d n : Z) :
  0 ≤ n → n < d → 2 ^ (d - 1) ≤ m < 2 ^ d →
  2 ^ (d - n - 1) ≤ Z.div m (2 ^ n) < 2 ^ (d - n).
Proof.
  intros Hn Hd [Hlo Hhi]. pose proof (pow2_pos n Hn). split.
  - apply Z.div_le_lower_bound; [done|].
    rewrite <- Z.pow_add_r by lia. by replace (n + (d - n - 1)) with (d - 1) by lia.
  - apply Z.div_lt_upper_bound; [done|].
    rewrite <- Z.pow_add_r by lia. by replace (n + (d - n)) with d by lia.
Qed.

Lemma binary_round_aux_spec (s : bool) (mz : positive) (ez : Z) :
  -1074 ≤ ez → ez ≤ fexp 53 1024 (Zpos (digits2_pos mz) + ez) →
  rounded s (units mz ez) (binary_round_aux 53 1024 s (Zpos mz) ez loc_Exact).
Proof.
  intros Hez Hfexp. rewrite fexp_eq in Hfexp.
  set (d := Zpos (digits2_pos mz)) in *.
  set (fx := Z.max (d + ez - 53) (-1074)) in *.
  set (n1 := fx - ez).
  assert (0 ≤ n1) as Hn1 by (unfold n1; lia).
  assert (n1 < d) as Hn1d by (unfold n1, fx, d; lia).
  pose proof (pow2_pos n1 Hn1) as Hpn1.
  pose proof (pow2_pos (ez + 1074) ltac:(lia)) as Hpez.
  (* the first shift *)
  unfold binary_round_aux.
  change (shr_fexp 53 1024 (Zpos mz) ez loc_Exact)
    with (shr (shr_record_of_loc (Zpos mz) loc_Exact) ez n1).
  destruct (shr_spec (Zpos mz) ez n1) as (mrs' & -> & Hm1 & Hexact1);
    [lia|done|].
  replace (ez + n1) with fx by (unfold n1; lia).
  destruct (round_nearest_even_spec (shr_m mrs') (loc_of_shr_record mrs'))
    as [Hq Hqexact].
  set (q := round_nearest_even (shr_m mrs') (loc_of_shr_record mrs')) in *.
  rewrite Hm1 in Hq, Hqexact.
  pose proof (div_pow2_bounds (Zpos mz) d n1 Hn1 Hn1d (digits2_bounds mz))
    as Hm1b.
  (* the second shift *)
  destruct (normalize_spec q fx (d - n1)) as (mrs'' & e'' & m'' & -> & -> &
                                              Hcanon & Hunits & Hover).
  { unfold fx. lia. }
  { unfold n1, fx. lia. }
  { unfold n1, fx. lia. }
  { replace (d - n1 - 1) with (d - n1 - 1) in Hm1b by done. lia. }
  { intros Hcarry.
    destruct (Z.eq_dec (Zpos mz `mod` 2 ^ n1) 0) as [Hmod|Hmod].
    - rewrite (Hqexact (Hexact1 Hmod)) in Hcarry. lia.
    - destruct (Z.eq_dec n1 0) as [Hz|Hz].
      + rewrite Hz in Hmod. simpl in Hmod. by rewrite Z.mod_1_r in Hmod.
      + unfold n1, fx in *. lia. }
  (* the result *)
  assert (rshift (units mz ez) = fx + 1074) as Hk.
  { unfold rshift. rewrite units_log2 by done. fold d. unfold fx. lia. }
  assert (Z.div (units mz ez) (2 ^ (fx + 1074)) = Z.div (Zpos mz) (2 ^ n1))
    as Hdiv.
  { unfold units. replace (fx + 1074) with (n1 + (ez + 1074)) by (unfold n1; lia).
    rewrite (Z.pow_add_r 2 n1 (ez + 1074)) by lia.
    by rewrite Z.div_mul_cancel_r by lia. }
  assert (Z.modulo (units mz ez) (2 ^ (fx + 1074)) = 0 →
          Z.modulo (Zpos mz) (2 ^ n1) = 0) as Hmod.
  { unfold units. replace (fx + 1074) with (n1 + (ez + 1074)) by (unfold n1; lia).
    rewrite (Z.pow_add_r 2 n1 (ez + 1074)) by lia.
    rewrite Z.mul_mod_distr_r by lia. nia. }
  exists q. rewrite Hk, Hdiv. split; [done|]. split.
  { intros H. apply Hqexact, Hexact1, Hmod, H. }
  destruct (Z.leb_spec e'' (1024 - 53)) as [Hle|Hgt].
  - right. exists m'', e''. split; [done|]. split; [|done].
    unfold bounded. rewrite Hcanon. simpl. apply Z.leb_le. lia.
  - left. split; [done|]. apply Hover. lia.
Qed.

Lemma iter_xO (m d : positive) :
  Zpos (Pos.iter xO m d) = Zpos m * 2 ^ Zpos d.
Proof.
  induction d as [|d IH] using Pos.peano_ind.
  - simpl. lia.
  - rewrite Pos.iter_succ, Pos2Z.inj_xO, IH, Pos2Z.inj_succ.
    rewrite Z.pow_succ_r by lia. lia.
Qed.

Lemma digits2_shift (m d : positive) :
  Zpos (digits2_pos (Pos.iter xO m d)) = Zpos (digits2_pos m) + Zpos d.
Proof.
  rewrite !digits2_log2, iter_xO, Z.log2_mul_pow2 by lia. lia.
Qed.

Lemma binary_round_spec (s : bool) (m : positive) (e : Z) :
  -1074 ≤ e → rounded s (units m e) (binary_round 53 1024 s m e).
Proof.
  intros He. unfold binary_round, shl_align.
  set (fx := fexp 53 1024 (Zpos (digits2_pos m) + e)).
  assert (-1074 ≤ fx) as Hfx by (unfold fx; rewrite fexp_eq; lia).
  destruct (fx - e) as [|dd|dd] eqn:Hd.
  - apply binary_round_aux_spec; [done|]. fold fx. lia.
  - apply binary_round_aux_spec; [done|]. fold fx. lia.
  - assert (units (Pos.iter xO m dd) fx = units m e) as <-.
    { unfold units. rewrite iter_xO.
      replace (e + 1074) with (Zpos dd + (fx + 1074)) by lia.
      rewrite (Z.pow_add_r 2 (Zpos dd)) by lia. lia. }
    apply binary_round_aux_spec; [done|]. rewrite digits2_shift.
    replace (Zpos (digits2_pos m) + Zpos dd + fx)
      with (Zpos (digits2_pos m) + e) by lia.
    fold fx. lia.
Qed.

(** Rounding does not pass a number that is representable. *)
Lemma canonical_divides my ey k :
  canonical_mantissa 53 1024 my ey = true →
  0 ≤ k → k ≤ rshift (units my ey) → ∃ c, units my ey = c * 2 ^ k.
Proof.
  intros (He & Hd & Hn)%canonical_spec Hk Hle.
  unfold rshift in Hle. rewrite units_log2 in Hle by done.
  assert (k ≤ ey + 1074) as Hkj by lia.
  exists (Zpos my * 2 ^ (ey + 1074 - k)). unfold units.
  rewrite <- Z.mul_assoc, <- Z.pow_add_r by lia.
  by replace (ey + 1074 - k + k) with (ey + 1074) by lia.
Qed.

Lemma rshift_nonneg X : 0 ≤ rshift X.
Proof. unfold rshift. lia. Qed.

Lemma rshift_mono X Y : 0 < X → X ≤ Y → rshift X ≤ rshift Y.
Proof.
  intros HX HXY. unfold rshift. pose proof (Z.log2_le_mono X Y HXY). lia.
Qed.

Lemma floor_multiple X k c :
  0 ≤ k → c * 2 ^ k ≤ X → c * 2 ^ k ≤ Z.div X (2 ^ k) * 2 ^ k.
Proof.
  intros Hk Hle. pose proof (pow2_pos k Hk).
  apply Z.mul_le_mono_nonneg_r; [lia|].
  apply Z.div_le_lower_bound; lia.
Qed.

Lemma rounded_lo (s : bool) (X : Z) (z : spec_float) my ey :
  rounded s X z → 0 < X →
  canonical_mantissa 53 1024 my ey = true → units my ey ≤ X →
  z = S754_infinity s ∨
  ∃ m e, z = S754_finite s m e ∧ bounded 53 1024 m e = true ∧
         units my ey ≤ units m e.
Proof.
  intros (q & Hq & _ & Hz) HX Hcanon HY.
  pose proof (rshift_nonneg X) as Hk. set (k := rshift X) in *.
  pose proof (pow2_pos k Hk) as Hpk.
  assert (units my ey ≤ Z.div X (2 ^ k) * 2 ^ k) as Hfloor.
  { destruct (Z.le_gt_cases k (rshift (units my ey))) as [Hle|Hgt].
    - destruct (canonical_divides my ey k Hcanon Hk Hle) as [c Hc].
      rewrite Hc in *. by apply floor_multiple.
    - (* [X] has more bits: the power of two below it lies between *)
      pose proof Hcanon as (He & Hd & Hn)%canonical_spec.
      unfold rshift in Hgt. rewrite units_log2 in Hgt by done.
      assert (k = Z.log2 X + 1 - 53) as Hkx by (unfold k, rshift in *; lia).
      pose proof (Z.log2_spec X HX) as [Hlog _].
      assert (units my ey < 2 ^ Z.log2 X) as Hlt.
      { apply Z.log2_lt_pow2; [by apply units_pos|].
        pose proof (units_log2 my ey He). lia. }
      assert (2 ^ Z.log2 X = 2 ^ (Z.log2 X - k) * 2 ^ k) as Hpow.
      { rewrite <- Z.pow_add_r by lia. f_equal. lia. }
      rewrite Hpow in Hlog, Hlt.
      pose proof (floor_multiple X k _ Hk Hlog). lia. }
  assert (units my ey ≤ q * 2 ^ k) as Hle by nia.
  destruct Hz as [[-> _]|(m & e & -> & Hb & Hu)]; [by left|].
  right. exists m, e. split; [done|]. split; [done|]. by rewrite Hu.
Qed.

Lemma rounded_hi (s : bool) (X : Z) (z : spec_float) my ey :
  rounded s X z → 0 < X →
  bounded 53 1024 my ey = true → X ≤ units my ey →
  ∃ m e, z = S754_finite s m e ∧ bounded 53 1024 m e = true ∧
         units m e ≤ units my ey.
Proof.
  intros (q & Hq & Hexact & Hz) HX Hb HY.
  destruct (bounded_canonical _ _ Hb) as [Hcanon _].
  pose proof (rshift_nonneg X) as Hk.
  pose proof (rshift_mono X _ HX HY) as Hmono. set (k := rshift X) in *.
  pose proof (pow2_pos k Hk) as Hpk.
  destruct (canonical_divides my ey k Hcanon Hk Hmono) as [c Hc].
  assert (q ≤ c) as Hqc.
  { destruct (Z.eq_dec (X `mod` 2 ^ k) 0) as [Hmod|Hmod].
    - rewrite (Hexact Hmod). apply Z.div_le_upper_bound; lia.
    - assert (X ≠ c * 2 ^ k) as Hne.
      { intros Heq. apply Hmod. rewrite Heq at 1. apply Z.mod_mul. lia. }
      assert (Z.div X (2 ^ k) < c) by (apply Z.div_lt_upper_bound; lia).
      lia. }
  assert (q * 2 ^ k ≤ units my ey) as Hle by (rewrite Hc; nia).
  destruct Hz as [[_ Hover]|(m & e & -> & Hb' & Hu)].
  - pose proof (bounded_units _ _ Hb). lia.
  - exists m, e. split; [done|]. split; [done|]. by rewrite Hu.
Qed.

Lemma rounded_sign (s : bool) (X : Z) (z : spec_float) :
  rounded s X z →
  z = S754_infinity s ∨
  ∃ m e, z = S754_finite s m e ∧ bounded 53 1024 m e = true.
Proof.
  intros (q & _ & _ & [[-> _]|(m & e & -> & Hb & _)]); [by left|].
  right. by exists m, e.
Qed.

(** *** Sums and differences *)

Lemma shl_align_fst (mx : positive) (ex ez : Z) :
  ez ≤ ex → Zpos (fst (shl_align mx ex ez)) = Zpos mx * 2 ^ (ex - ez).
Proof.
  intros Hle. unfold shl_align. destruct (ez - ex) as [|d|d] eqn:Hd; simpl.
  - replace (ex - ez) with 0 by lia. simpl. lia.
  - lia.
  - rewrite iter_xO. f_equal. f_equal. lia.
Qed.

Lemma aligned_units (mx : positive) (ex ez : Z) :
  -1074 ≤ ez → ez ≤ ex →
  Zpos (fst (shl_align mx ex ez)) * 2 ^ (ez + 1074) = units mx ex.
Proof.
  intros Hez Hle. rewrite shl_align_fst by done. unfold units.
  rewrite <- Z.mul_assoc, <- Z.pow_add_r by lia. do 2 f_equal. lia.
Qed.

Lemma cond_Zopp_mul s a b : cond_Zopp s a * b = cond_Zopp s (a * b).
Proof. destruct s; simpl; lia. Qed.

Lemma binary_normalize_spec (M e : Z) :
  -1074 ≤ e →
  match M with
  | 0 => binary_normalize 53 1024 M e false = S754_zero false
  | Zpos _ => rounded false (M * 2 ^ (e + 1074))
                (binary_normalize 53 1024 M e false)
  | Zneg _ => rounded true (- M * 2 ^ (e + 1074))
                (binary_normalize 53 1024 M e false)
  end.
Proof.
  intros He. destruct M as [|p|p]; simpl binary_normalize.
  - done.
  - by apply binary_round_spec.
  - change (- Zneg p) with (Zpos p). by apply binary_round_spec.
Qed.

Lemma valid_exp s m e : valid_binary (S754_finite s m e) = true → -1074 ≤ e.
Proof.
  intros [(He & _)%canonical_spec _]%bounded_canonical. done.
Qed.

(** The sum of two finite numbers, and their difference, is the rounded
    sum, or difference, of their values. *)
Lemma finite_sum_spec (op : Z → Z → Z) sx mx ex sy my ey :
  (∀ a b c, op a b * c = op (a * c) (b * c)) →
  valid_binary (S754_finite sx mx ex) = true →
  valid_binary (S754_finite sy my ey) = true →
  let V := op (cond_Zopp sx (units mx ex)) (cond_Zopp sy (units my ey)) in
  let z := binary_normalize 53 1024
             (op (cond_Zopp sx (Zpos (fst (shl_align mx ex (Z.min ex ey)))))
                 (cond_Zopp sy (Zpos (fst (shl_align my ey (Z.min ex ey))))))
             (Z.min ex ey) false in
  (V = 0 ∧ z = S754_zero false) ∨
  (0 < V ∧ rounded false V z) ∨
  (V < 0 ∧ rounded true (- V) z).
Proof.
  intros Hop Hx Hy V z.
  pose proof (valid_exp _ _ _ Hx) as Hex. pose proof (valid_exp _ _ _ Hy) as Hey.
  set (ez := Z.min ex ey) in *.
  set (M := op (cond_Zopp sx (Zpos (fst (shl_align mx ex ez))))
               (cond_Zopp sy (Zpos (fst (shl_align my ey ez))))) in *.
  assert (M * 2 ^ (ez + 1074) = V) as HV.
  { unfold M, V. rewrite Hop, !cond_Zopp_mul.
    by rewrite !aligned_units by (unfold ez; lia). }
  pose proof (pow2_pos (ez + 1074) ltac:(unfold ez; lia)) as Hpos.
  pose proof (binary_normalize_spec M ez ltac:(unfold ez; lia)) as Hspec.
  fold z in Hspec.
  destruct M as [|p|p].
  - left. split; [lia|done].
  - right. left. rewrite HV in Hspec. split; [lia|done].
  - right. right. rewrite Z.mul_opp_l, HV in Hspec. split; [lia|done].
Qed.

Lemma rounded_valid s X z : rounded s X z → valid_binary z = true.
Proof.
  intros [->|(m & e & -> & Hb)]%rounded_sign; done.
Qed.

(** Adding a number that is not negative gives a NaN or a number that is
    not smaller. *)
Lemma SFadd_not_below (x a : spec_float) :
  valid_binary x = true → valid_binary a = true →
  SFnan x = false → SFnan a = false → 0 ≤ SFval a →
  SFnan (SFadd 53 1024 x a) = true ∨
  (valid_binary (SFadd 53 1024 x a) = true ∧
   SFnan (SFadd 53 1024 x a) = false ∧
   SFval x ≤ SFval (SFadd 53 1024 x a)).
Proof.
  intros Hx Ha Hnx Hna Hpos.
  destruct x as [sx|sx| |sx mx ex], a as [sa|sa| |sa ma ea];
    try discriminate.
  1-8: pose proof (pow2_pos 2098 ltac:(lia));
       try (pose proof (bounded_units _ _ Hx));
       try (pose proof (bounded_units _ _ Ha));
       try destruct sx; try destruct sa;
       cbn -[Z.pow units] in *; first [by left | right; split_and!; [done|done|lia]].
  pose proof (bounded_units _ _ Hx) as Hbx.
  pose proof (bounded_units _ _ Ha) as Hba.
  destruct sa; [simpl in Hpos; lia|].
  destruct (finite_sum_spec Z.add sx mx ex false ma ea ltac:(intros; lia) Hx Ha)
    as [[HV Hz]|[[HV Hz]|[HV Hz]]]; right;
    change (SFadd 53 1024 (S754_finite sx mx ex) (S754_finite false ma ea))
      with (binary_normalize 53 1024
              (cond_Zopp sx (Zpos (fst (shl_align mx ex (Z.min ex ea)))) +
               cond_Zopp false (Zpos (fst (shl_align ma ea (Z.min ex ea)))))
              (Z.min ex ea) false);
    simpl cond_Zopp in *.
  - rewrite Hz. split_and!; [done|done|]. destruct sx; simpl in *; lia.
  - split; [by eapply rounded_valid|].
    destruct sx.
    + destruct (rounded_sign _ _ _ Hz) as [->|(m & e & -> & Hb)];
        (split; [done|]).
      * simpl. lia.
      * pose proof (bounded_units _ _ Hb). simpl. lia.
    + destruct (bounded_canonical _ _ Hx) as [Hcx _].
      destruct (rounded_lo _ _ _ mx ex Hz HV Hcx ltac:(simpl in *; lia))
        as [->|(m & e & -> & Hb & Hle)]; (split; [done|]).
      * simpl. lia.
      * simpl. lia.
  - destruct sx; [|simpl in *; lia].
    destruct (rounded_hi _ _ _ mx ex Hz ltac:(lia) Hx ltac:(simpl in *; lia))
      as (m & e & -> & Hb & Hle).
    split_and!; [done|done|]. simpl. lia.
Qed.

(** The sign of a difference tells the order. *)
Lemma SFsub_sign (a b : spec_float) :
  valid_binary a = true → valid_binary b = true →
  SFnan a = false → SFnan b = false →
  (SFnan (SFsub 53 1024 a b) = true ∧ SFval a = SFval b) ∨
  (valid_binary (SFsub 53 1024 a b) = true ∧
   SFnan (SFsub 53 1024 a b) = false ∧
   (0 < SFval (SFsub 53 1024 a b) ↔ SFval b < SFval a)).
Proof.
  intros Ha Hb Hna Hnb.
  destruct a as [sa|sa| |sa ma ea], b as [sb|sb| |sb mb eb];
    try discriminate.
  1-8: pose proof (pow2_pos 2098 ltac:(lia));
       try (pose proof (bounded_units _ _ Ha));
       try (pose proof (bounded_units _ _ Hb));
       try destruct sa; try destruct sb;
       cbn -[Z.pow units] in *;
       first [by left | right; split_and!; [done|done|lia]].
  destruct (finite_sum_spec Z.sub sa ma ea sb mb eb ltac:(intros; lia) Ha Hb)
    as [[HV Hz]|[[HV Hz]|[HV Hz]]]; right;
    change (SFsub 53 1024 (S754_finite sa ma ea) (S754_finite sb mb eb))
      with (binary_normalize 53 1024
              (cond_Zopp sa (Zpos (fst (shl_align ma ea (Z.min ea eb)))) -
               cond_Zopp sb (Zpos (fst (shl_align mb eb (Z.min ea eb)))))
              (Z.min ea eb) false);
    change (SFval (S754_finite sa ma ea)) with (cond_Zopp sa (units ma ea));
    change (SFval (S754_finite sb mb eb)) with (cond_Zopp sb (units mb eb)).
  - rewrite Hz. split_and!; [done|done|]. simpl. lia.
  - split; [by eapply rounded_valid|].
    destruct (rounded_sign _ _ _ Hz) as [->|(m & e & -> & Hbd)];
      (split; [done|]).
    + pose proof (pow2_pos 2098 ltac:(lia)). simpl. lia.
    + pose proof (bounded_units _ _ Hbd). simpl. lia.
  - split; [by eapply rounded_valid|].
    destruct (rounded_sign _ _ _ Hz) as [->|(m & e & -> & Hbd)];
      (split; [done|]).
    + pose proof (pow2_pos 2098 ltac:(lia)). simpl. lia.
    + pose proof (bounded_units _ _ Hbd). simpl. lia.
Qed.

(** *** The primitive comparisons *)

Lemma SFltb_val (x y : spec_float) :
  valid_binary x = true → valid_binary y = true →
  SFltb x y = true ↔ SFnan x = false ∧ SFnan y = false ∧ SFval x < SFval y.
Proof.
  intros Hx Hy. unfold SFltb.
  destruct (SFnan x) eqn:Hnx; [destruct x; try done; split; [done|by intros []]|].
  destruct (SFnan y) eqn:Hny.
  { destruct y; try done. destruct x; split; try done; by intros (? & ? & ?). }
  rewrite SFcompare_val by done.
  destruct (Z.compare_spec (SFval x) (SFval y)); split; try done;
    intros (_ & _ & ?); lia.
Qed.

Lemma SFleb_val (x y : spec_float) :
  valid_binary x = true → valid_binary y = true →
  SFleb x y = true ↔ SFnan x = false ∧ SFnan y = false ∧ SFval x ≤ SFval y.
Proof.
  intros Hx Hy. unfold SFleb.
  destruct (SFnan x) eqn:Hnx; [destruct x; try done; split; [done|by intros []]|].
  destruct (SFnan y) eqn:Hny.
  { destruct y; try done. destruct x; split; try done; by intros (? & ? & ?). }
  rewrite SFcompare_val by done.
  destruct (Z.compare_spec (SFval x) (SFval y)); split; try done;
    try (intros (_ & _ & ?); lia); intros _; split_and!; try done; lia.
Qed.

Lemma ltb_val (x y : float) :
  PrimFloat.ltb x y = true ↔
  SFnan (Prim2SF x) = false ∧ SFnan (Prim2SF y) = false ∧
  SFval (Prim2SF x) < SFval (Prim2SF y).
Proof. rewrite ltb_spec. apply SFltb_val; apply Prim2SF_valid. Qed.

Lemma leb_val (x y : float) :
  PrimFloat.leb x y = true ↔
  SFnan (Prim2SF x) = false ∧ SFnan (Prim2SF y) = false ∧
  SFval (Prim2SF x) ≤ SFval (Prim2SF y).
Proof. rewrite leb_spec. apply SFleb_val; apply Prim2SF_valid. Qed.

Lemma ltb_false (x y : float) :
  PrimFloat.ltb x y = false ↔
  SFnan (Prim2SF x) = true ∨ SFnan (Prim2SF y) = true ∨
  SFval (Prim2SF y) ≤ SFval (Prim2SF x).
Proof.
  pose proof (ltb_val x y) as H.
  destruct (PrimFloat.ltb x y); split; try done.
  - destruct H as [H _]. destruct (H eq_refl) as (-> & -> & ?).
    intros [?|[?|?]]; try done. lia.
  - intros _. destruct (SFnan (Prim2SF x)); [by left|].
    destruct (SFnan (Prim2SF y)); [by right; left|]. right. right.
    destruct (Z.le_gt_cases (SFval (Prim2SF y)) (SFval (Prim2SF x))); [done|].
    destruct H as [_ H]. by discriminate H.
Qed.

(** *** Signs *)

Lemma binary_round_aux_signed s m e l :
  SFsigned s (binary_round_aux 53 1024 s m e l).
Proof.
  unfold binary_round_aux.
  destruct (shr_fexp 53 1024 m e l) as [mrs' e'].
  destruct (shr_fexp 53 1024 _ e' loc_Exact) as [mrs'' e''].
  destruct (shr_m mrs''); [done| |done]. by destruct (_ <=? _).
Qed.

Lemma SFnotneg_ltb (x : spec_float) :
  SFltb x (S754_zero false) = false ↔ SFnotneg x.
Proof. by destruct x as [[]|[]| |[] m e]. Qed.

Lemma SFsigned_notneg (x : spec_float) : SFsigned false x → SFnotneg x.
Proof. by destruct x as [[]|[]| |[] m e]. Qed.

Lemma SFmul_notneg (x y : spec_float) :
  SFnotneg x → SFnotneg y → SFnotneg (SFmul 53 1024 x y).
Proof.
  destruct x as [[]|[]| |[] mx ex], y as [[]|[]| |[] my ey]; try done.
  intros _ _. apply SFsigned_notneg. apply binary_round_aux_signed.
Qed.

Lemma SFdiv_signed (x y : spec_float) :
  SFsigned false x → SFsigned false y → SFsigned false (SFdiv 53 1024 x y).
Proof.
  destruct x as [sx|sx| |sx mx ex], y as [sy|sy| |sy my ey]; try done;
    simpl; intros -> ->; try done.
  destruct (SFdiv_core_binary _ _ _ _ _ _) as [[mz ez] lz].
  apply binary_round_aux_signed.
Qed.

Lemma Z2F_signed (z : Z) : 0 ≤ z → SFsigned false (Prim2SF (Z2F z)).
Proof.
  intros Hz. destruct z as [|p|p]; [done| |lia]. unfold Z2F.
  rewrite of_uint63_spec.
  pose proof (Uint63.to_Z_bounded (Uint63.of_Z (Zpos p))) as [Hpos _].
  destruct (Uint63.to_Z _) as [|n|n]; [done| |lia].
  unfold binary_normalize, binary_round.
  destruct (shl_align _ _ _) as [mz ez]. apply binary_round_aux_signed.
Qed.

Lemma float_lit_notneg (q : Q) : (0 <= q)%Q → SFnotneg (Prim2SF (float_lit q)).
Proof.
  intros Hq. unfold float_lit. rewrite div_spec.
  apply SFsigned_notneg, SFdiv_signed; apply Z2F_signed; [|done].
  unfold Qle in Hq. simpl in Hq. lia.
Qed.

Lemma Prim2SF_zero : Prim2SF (float_lit 0) = S754_zero false.
Proof. reflexivity. Qed.

Lemma ltb_zero_notneg (x : float) :
  PrimFloat.ltb x (float_lit 0) = false ↔ SFnotneg (Prim2SF x).
Proof. rewrite ltb_spec, Prim2SF_zero. apply SFnotneg_ltb. Qed.

Lemma SFnotneg_val (x : spec_float) :
  valid_binary x = true → SFnotneg x → 0 ≤ SFval x.
Proof.
  intros Hx Hn. destruct x as [s|[]| |[] m e]; try done;
    cbn -[Z.pow units].
  pose proof (bounded_units _ _ Hx). lia.
Qed.

Lemma SFadd_nan_r x : SFadd 53 1024 x S754_nan = S754_nan.
Proof. by destruct x. Qed.

(** *** The laws of order *)

(** Binary64's [+] and [*], rounding to nearest, respect its order on the
    nonnegative side: NaN, the infinities, the signed zeros and the
    subnormals included. *)
Lemma float_ordered : OrderedArith float.
Proof.
  split; simpl.
  - intros a. apply ltb_false. destruct (SFnan (Prim2SF a)); [by left|].
    right. right. done.
  - intros a b (Hna & Hnb & Hle)%leb_val. apply ltb_false. by right; right.
  - intros q Hq. apply ltb_zero_notneg. by apply float_lit_notneg.
  - intros a b Ha%ltb_zero_notneg Hb%ltb_zero_notneg.
    apply ltb_zero_notneg. rewrite mul_spec. by apply SFmul_notneg.
  - intros r r' a Hr Ha%ltb_zero_notneg.
    apply ltb_false. apply ltb_false in Hr.
    rewrite add_spec. unfold SF64add.
    destruct (SFnan (Prim2SF r)) eqn:Hnr; [by right; left|].
    destruct (SFnan (Prim2SF r')) eqn:Hnr'.
    { left. by destruct (Prim2SF r'). }
    destruct (SFnan (Prim2SF a)) eqn:Hna.
    { left. destruct (Prim2SF a); try done. by rewrite SFadd_nan_r. }
    destruct (SFadd_not_below (Prim2SF r') (Prim2SF a))
      as [Hnan|(_ & _ & Hle)]; try done; try apply Prim2SF_valid.
    { apply SFnotneg_val; [apply Prim2SF_valid|done]. }
    { by left. }
    right. right. destruct Hr as [?|[?|Hr]]; try done.
    exact (Z.le_trans _ _ _ Hr Hle).
Qed.

Lemma SFsub_nan_l y : SFsub 53 1024 S754_nan y = S754_nan.
Proof. done. Qed.

Lemma isNumber_float (x : float) :
  isNumber x = true ↔ SFnan (Prim2SF x) = false.
Proof.
  unfold isNumber. simpl. rewrite leb_val. split; [by intros (? & _)|].
  intros H. split_and!; try done.
Qed.

(** Binary64's [<] orders its numbers, and the sign of a rounded difference
    of two numbers tells their order (a difference of two distinct numbers
    never rounds to zero; that of an infinity and itself is a NaN). *)
Lemma float_number_order : NumberOrder float.
Proof.
  split; simpl.
  - intros a b (Hna & Hnb & Hlt)%ltb_val. apply ltb_false.
    right. right. lia.
  - intros a b c Hc%isNumber_float (Hna & Hnb & Hlt)%ltb_val.
    destruct (Z.lt_ge_cases (SFval (Prim2SF a)) (SFval (Prim2SF c))).
    + left. by apply ltb_val.
    + right. apply ltb_val. split_and!; try done. lia.
  - intros a b Ha%isNumber_float Hb%isNumber_float.
    rewrite !ltb_spec, Prim2SF_zero, sub_spec. unfold SF64sub.
    change (SFsub prec emax) with (SFsub 53 1024).
    destruct (SFsub_sign (Prim2SF a) (Prim2SF b))
      as [[Hnan Heq]|(Hv & Hn & Hiff)]; try done; try apply Prim2SF_valid.
    + destruct (SFsub 53 1024 _ _); try done.
      change (SFltb (S754_zero false) S754_nan) with false. symmetry.
      apply not_true_is_false.
      intros (_ & _ & Hlt)%SFltb_val; try apply Prim2SF_valid. lia.
    + destruct (SFltb (Prim2SF b) (Prim2SF a)) eqn:Hlt.
      * apply SFltb_val in Hlt as (_ & _ & Hlt); try apply Prim2SF_valid.
        apply SFltb_val; [done|done|]. split_and!; try done.
        simpl. by apply Hiff.
      * apply not_true_is_false.
        intros (_ & _ & Hpos)%SFltb_val; [|done|done].
        simpl in Hpos. apply Hiff in Hpos.
        assert (SFltb (Prim2SF b) (Prim2SF a) = true) as Hlt'.
        { apply SFltb_val; try apply Prim2SF_valid. done. }
        by rewrite Hlt in Hlt'.
Qed.

End Binary64.

(** A NaN is below no number and no number is below it, so on binary64
    [<] is not a strict weak order of all the values. *)
Lemma float_not_strict : ¬ StrictWeakOrder float.
Proof.
  intros order.
  destruct (nltb_negtrans _ order (lit 0) (lit 1) (PrimFloat.div (lit 0) (lit 0)))
    as [H|H]; [vm_compute; reflexivity|..]; vm_compute in H; discriminate H.
Qed.

(** ** Concrete runs *)

(** On the rationals, with a raycaster that does not descend and a ray that
    enters the moon and then Earth, [pick] hands Earth to the listeners. *)
Example pick_nonrecursive_earth :
  picked (mkMouseEvent (lit 410) (lit 290))
         (stockQc (hitsMoonThenEarth (lit 60) (lit 65)) false) = Some 8.
Proof. vm_compute. reflexivity. Qed.

(** C4 at a concrete input: the stock scene with the button held down, then
    three frames of 0.016, 0.5 and 1000 seconds. *)
Lemma pause_invariant_witness :
  animationActive (step (stockFloat missesAll true) MouseDown) = false ∧
  ∀ id,
    rotation_y (run (Frame <$> [lit 0.016; lit 0.5; lit 1000])
                    (step (stockFloat missesAll true) MouseDown)) id
    = rotation_y (step (stockFloat missesAll true) MouseDown) id.
Proof.
  split; [reflexivity|].
  apply (pause_invariant (step (stockFloat missesAll true) MouseDown)).
  reflexivity.
Defined.


(** On the rationals the two agree: the stock scene, frames of 0.016 and
    0.017 seconds. *)
Lemma advance_linear_exact_witness :
  animationActive (stockQc missesAll true) = true ∧
  ∀ id,
    rotation_y (exec (animate (lit 0.017))
                  (exec (animate (lit 0.016)) (stockQc missesAll true))) id
    = rotation_y (exec (animate (nadd (lit 0.016) (lit 0.017)))
                    (stockQc missesAll true)) id.
Proof.
  split; [reflexivity|].
  apply (advance_linear_exact Qc_exact (stockQc missesAll true)).
  reflexivity.
Defined.


(** C10 at a concrete input: the stock scene on binary64 after a frame of
    half a second, a pointer move and a press and release of the button,
    then a frame of 0.016 seconds, seen at Mercury's orbit node. *)
Lemma rotation_monotone_witness :
  nleb (lit 0) (lit 0.016 : float) = true ∧
  rotation_y (run [Frame (lit 0.5); MouseMove (mkMouseEvent (lit 400) (lit 300));
                   MouseDown; MouseUp]
                  (stockFloat missesAll true)) 5
    = Some (nadd (lit 0) (nmul (nmul (lit 0.02) (lit 0.5)) (lit 60))) ∧
  ∃ b,
    rotation_y
      (step (run [Frame (lit 0.5); MouseMove (mkMouseEvent (lit 400) (lit 300));
                  MouseDown; MouseUp]
                 (stockFloat missesAll true))
            (Frame (lit 0.016))) 5 = Some b ∧
    nltb b (nadd (lit 0) (nmul (nmul (lit 0.02) (lit 0.5)) (lit 60))) = false.
Proof.
  split; [vm_compute; reflexivity|]. split; [vm_compute; reflexivity|].
  apply (proj2 (@rotation_monotone float _ (oracle float missesAll true)
                  float_ordered (lit 800) (lit 600))
           [Frame (lit 0.5); MouseMove (mkMouseEvent (lit 400) (lit 300));
            MouseDown; MouseUp]
           (lit 0.016) 5
           (nadd (lit 0) (nmul (nmul (lit 0.02) (lit 0.5)) (lit 60)))).
  - vm_compute; reflexivity.
  - vm_compute; reflexivity.
Defined.

(** On binary64 itself none of the nine stock speeds is negative, and each
    is at or above zero. *)
Example stock_speeds_float :
  forallb (λ item, nleb (lit 0) (speed item) && negb (nltb (speed item) (lit 0)))
          (planetOrbits (stockFloat missesAll true)) = true.
Proof. vm_compute. reflexivity. Qed.

(** C8 at a concrete input: the same pointer position picked in the stock
    scene before and after a pointer move elsewhere, a button press and a
    click; neither touches camera, objects or registry. *)
Lemma pick_deterministic_witness :
  picked (mkMouseEvent (lit 410) (lit 290)) (stockFloat (hitsPlanet "Mars" (lit 70)) true)
  = picked (mkMouseEvent (lit 410) (lit 290))
      (run [MouseMove (mkMouseEvent (lit 5) (lit 5)); MouseDown;
            Click (mkMouseEvent (lit 410) (lit 290))]
           (stockFloat (hitsPlanet "Mars" (lit 70)) true)).
Proof.
  apply (pick_deterministic
           (stockFloat (hitsPlanet "Mars" (lit 70)) true)
           (run [MouseMove (mkMouseEvent (lit 5) (lit 5)); MouseDown;
                 Click (mkMouseEvent (lit 410) (lit 290))]
                (stockFloat (hitsPlanet "Mars" (lit 70)) true))
           (mkMouseEvent (lit 410) (lit 290))
           (mkMouseEvent (lit 410) (lit 290)));
    vm_compute; reflexivity.
Defined.


(** C1 as stated fails.  A click on Mars shows the overlay and queues one
    dismissal; a second click 3000 ms later queues another one beside it
    (due at 5000 and at 8000 ms); when the clock reaches 5000 ms the first
    callback runs and hides the overlay, 2000 ms after the second click, and
    it stays hidden through 7999 ms, where the claim has it visible. *)
Lemma overlay_first_timer_hides :
  (userData_name marsWorld <$> picked pointer marsWorld) = Some (Some "Mars") ∧
  overlayVisible (run [Click pointer] marsWorld) = true ∧
  timers (run [Click pointer] marsWorld) = [5000%N] ∧
  overlayVisible (run [Click pointer; Elapse 3000; Click pointer] marsWorld)
    = true ∧
  timers (run [Click pointer; Elapse 3000; Click pointer] marsWorld)
    = [5000%N; 8000%N] ∧
  overlayVisible
    (run [Click pointer; Elapse 3000; Click pointer; Elapse 1999] marsWorld)
    = true ∧
  now (run [Click pointer; Elapse 3000; Click pointer; Elapse 2000] marsWorld)
    = 5000%N ∧
  overlayVisible
    (run [Click pointer; Elapse 3000; Click pointer; Elapse 2000] marsWorld)
    = false ∧
  overlayVisible
    (run [Click pointer; Elapse 3000; Click pointer; Elapse 2000; Elapse 2999]
         marsWorld)
    = false.
Proof.
  repeat split; vm_compute; reflexivity.
Qed.

(** C2 on the script, with the descent into children that three.js makes
    when [recursive] is omitted.  A ray that enters the moon and no planet
    hits no registry member, yet [pick] hands the moon's mesh to the
    listeners and the tooltip shows its missing name; with Earth behind the
    moon the moon is still what is picked; a ray through Saturn's ring alone
    picks the ring. *)
Theorem pick_returns_moon :
  memberHits pointer moonWorld = [] ∧
  picked pointer moonWorld = Some 10 ∧
  (10 ∉ hoverablePlanets moonWorld) ∧
  isMoon moonWorld 10 = true ∧
  tt_display (tooltip (step moonWorld (MouseMove pointer))) = display_block ∧
  tt_innerHTML (tooltip (step moonWorld (MouseMove pointer)))
    = "<strong>undefined</strong><br>undefined"%string ∧
  object <$> memberHits pointer moonEarthWorld = [8] ∧
  picked pointer moonEarthWorld = Some 10 ∧
  memberHits pointer ringWorld = [] ∧
  picked pointer ringWorld = Some 18 ∧
  isRing ringWorld 18 = true.
Proof.
  assert (10 ∉ hoverablePlanets moonWorld) as Hnot.
  { intros Hin. apply (bool_decide_pack _) in Hin. vm_compute in Hin.
    exact Hin. }
  repeat split; try exact Hnot; vm_compute; reflexivity.
Qed.

(** C1, as amended, at a concrete input: two clicks on Mars 3000 ms apart,
    then 2000 ms more. *)
Lemma overlay_timer_not_rearmed_witness :
  timers marsWorld = [] ∧ (3000 < 5000)%N ∧
  clicksMars marsWorld pointer ∧
  clicksMars (run [Click pointer; Elapse 3000] marsWorld) pointer ∧
  timers (run [Click pointer; Elapse 3000; Click pointer] marsWorld)
    = [(now marsWorld + 5000)%N; (now marsWorld + 3000 + 5000)%N] ∧
  ((5000 ≤ 3000 + 2000)%N →
     overlayVisible
       (run [Click pointer; Elapse 3000; Click pointer; Elapse 2000] marsWorld)
     = false).
Proof.
  assert (clicksMars marsWorld pointer) as Hmars1.
  { exists (mkIntersection (lit 70) 12). split; vm_compute; reflexivity. }
  assert (clicksMars (run [Click pointer; Elapse 3000] marsWorld) pointer)
    as Hmars2.
  { exists (mkIntersection (lit 70) 12). split; vm_compute; reflexivity. }
  split; [reflexivity|]. split; [reflexivity|].
  split; [exact Hmars1|]. split; [exact Hmars2|].
  destruct (overlay_timer_not_rearmed marsWorld pointer pointer 3000 2000)
    as (Htimers & _ & _ & Hhidden);
    [reflexivity|reflexivity|exact Hmars1|exact Hmars2|].
  split; [exact Htimers|exact Hhidden].
Defined.

(** ** The further properties at concrete inputs *)

(** X3 at a concrete input: a click on the moon of the stock scene. *)
Lemma click_elsewhere_witness :
  ¬ clicksMars moonWorld pointer ∧
  gifOverlay (step moonWorld (Click pointer)) = gifOverlay moonWorld ∧
  timers (step moonWorld (Click pointer)) = timers moonWorld ∧
  heap (step moonWorld (Click pointer)) = heap moonWorld.
Proof.
  assert (¬ clicksMars moonWorld pointer) as Hnot.
  { intros (hit & Hhead & Hname).
    assert (object <$> head (pick pointer
              (set_camera (controlsEvent (Click pointer) (camera moonWorld))
                          moonWorld)).1 = Some 10)
      as Hobj by (vm_compute; reflexivity).
    rewrite Hhead in Hobj. injection Hobj as Hobj. rewrite Hobj in Hname.
    assert (userData_name moonWorld 10 = None) as Hnone
      by (vm_compute; reflexivity).
    rewrite Hnone in Hname. discriminate Hname. }
  split; [exact Hnot|exact (click_elsewhere moonWorld pointer Hnot)].
Defined.

(** X5 at a concrete input: the first click on Mars in the stock scene. *)
Lemma overlay_only_by_mars_click_witness :
  overlayVisible marsWorld = false ∧
  overlayVisible (step marsWorld (Click pointer)) = true ∧
  ∃ e, Click pointer = Click e ∧ clicksMars marsWorld e.
Proof.
  split; [vm_compute; reflexivity|]. split; [vm_compute; reflexivity|].
  apply (overlay_only_by_mars_click marsWorld (Click pointer));
    vm_compute; reflexivity.
Defined.

(** X6 at a concrete input: the stock scene with the button pressed, then a
    frame, a pointer move over Mars, a click on it, a resize, 100 ms and a
    second press. *)
Lemma held_button_freezes_scene_witness :
  animationActive (step marsWorld MouseDown) = false ∧
  (MouseUp ∉ [Frame (lit 0.016); MouseMove pointer; Click pointer;
              Resize (lit 1024) (lit 768); Elapse 100; MouseDown]) ∧
  heap (run [Frame (lit 0.016); MouseMove pointer; Click pointer;
             Resize (lit 1024) (lit 768); Elapse 100; MouseDown]
            (step marsWorld MouseDown))
    = heap (step marsWorld MouseDown) ∧
  animationActive
    (run [Frame (lit 0.016); MouseMove pointer; Click pointer;
          Resize (lit 1024) (lit 768); Elapse 100; MouseDown]
         (step marsWorld MouseDown)) = false.
Proof.
  assert (MouseUp ∉ [Frame (lit 0.016); MouseMove pointer; Click pointer;
                     Resize (lit 1024) (lit 768); Elapse 100; MouseDown])
    as Hnot.
  { intros Hin.
    repeat (apply elem_of_cons in Hin as [Hin|Hin]; [discriminate Hin|]).
    by apply elem_of_nil in Hin. }
  split; [reflexivity|]. split; [exact Hnot|].
  apply (held_button_freezes_scene (step marsWorld MouseDown)
           [Frame (lit 0.016); MouseMove pointer; Click pointer;
            Resize (lit 1024) (lit 768); Elapse 100; MouseDown]);
    [reflexivity|exact Hnot].
Defined.

(** X7 at a concrete input: a click on Mars queues a dismissal due at
    5000 ms; 3000 ms, a second click and 1999 ms later it is still
    pending. *)
Lemma dismissal_never_cancelled_witness :
  5000%N ∈ timers (run [Click pointer] marsWorld) ∧
  (now (run [Elapse 3000; Click pointer; Elapse 1999]
            (run [Click pointer] marsWorld)) < 5000)%N ∧
  5000%N ∈ timers (run [Elapse 3000; Click pointer; Elapse 1999]
                       (run [Click pointer] marsWorld)).
Proof.
  assert (5000%N ∈ timers (run [Click pointer] marsWorld)) as Hin.
  { apply list_elem_of_lookup. exists 0. vm_compute. reflexivity. }
  assert (now (run [Elapse 3000; Click pointer; Elapse 1999]
                   (run [Click pointer] marsWorld)) < 5000)%N as Hnow.
  { vm_compute. reflexivity. }
  split; [exact Hin|]. split; [exact Hnow|].
  exact (dismissal_never_cancelled (run [Click pointer] marsWorld)
           [Elapse 3000; Click pointer; Elapse 1999] 5000%N Hin Hnow).
Defined.

(** X8 at a concrete input: the stock scene, loaded at 800 x 600, resized to
    1024 x 768 and then to 640 x 480, with a frame and a pointer move
    after. *)
Lemma pointer_scaled_by_latest_size_witness :
  Forall (λ ev, isResize ev = false)
         [Frame (lit 0.016); MouseMove pointer] ∧
  normalized
    (run ([Resize (lit 1024) (lit 768)]
          ++ Resize (lit 640) (lit 480)
             :: [Frame (lit 0.016); MouseMove pointer])
         marsWorld) pointer
  = mkVector2
      (nsub (nmul (ndiv (clientX pointer) (lit 640)) (lit 2)) (lit 1))
      (nadd (nmul (nneg (ndiv (clientY pointer) (lit 480))) (lit 2)) (lit 1)).
Proof.
  assert (Forall (λ ev : Event float, isResize ev = false)
                 [Frame (lit 0.016); MouseMove pointer]) as Hevs
    by (repeat constructor).
  split; [exact Hevs|].
  exact (pointer_scaled_by_latest_size marsWorld
           [Resize (lit 1024) (lit 768)] [Frame (lit 0.016); MouseMove pointer]
           (lit 640) (lit 480) pointer Hevs).
Defined.

(** X9 at a concrete input: a click on Mars in the stock scene, then
    5000 ms. *)
Lemma overlay_gone_after_5s_witness :
  (5000 ≤ 5000)%N ∧
  overlayVisible (step (run [Click pointer] marsWorld) (Elapse 5000)) = false ∧
  timers (step (run [Click pointer] marsWorld) (Elapse 5000)) = [].
Proof.
  split; [done|].
  apply (@overlay_gone_after_5s float _
           (oracle float (hitsPlanet "Mars" (lit 70)) true)
           planetsData (lit 800) (lit 600) [Click pointer] 5000).
  done.
Defined.

(** X12 at a concrete input: the stock scene after a press and a release of
    the button, and a frame of 0.016 seconds. *)
Lemma frame_turns_each_entry_once_witness :
  animationActive (run [MouseDown; MouseUp] (stockFloat missesAll true))
    = true ∧
  NoDup (group <$> planetOrbits
           (run [MouseDown; MouseUp] (stockFloat missesAll true))) ∧
  Forall (λ item,
            ∃ a, rotation_y
                   (run [MouseDown; MouseUp] (stockFloat missesAll true))
                   (group item) = Some a ∧
                 rotation_y
                   (step (run [MouseDown; MouseUp] (stockFloat missesAll true))
                         (Frame (lit 0.016)))
                   (group item)
                 = Some (nadd a (nmul (nmul (speed item) (lit 0.016)) (lit 60))))
         (planetOrbits (run [MouseDown; MouseUp] (stockFloat missesAll true))).
Proof.
  split; [vm_compute; reflexivity|].
  apply (@frame_turns_each_entry_once float _ (oracle float missesAll true)
           planetsData (lit 800) (lit 600) [MouseDown; MouseUp] (lit 0.016)).
  vm_compute. reflexivity.
Defined.

(** X13 at a concrete input: the stock scene after a frame, a ray through
    the moon with Earth behind it. *)
Lemma descent_tests_moon_and_ring_witness :
  @recursiveDefault float
     (oracle float (hitsMoonThenEarth (lit 60) (lit 65)) true) = true ∧
  candidateHits pointer (run [Frame (lit 0.016)] moonEarthWorld)
  = concat (zip_with
              (entryHits
                 (setFromCamera (normalized (run [Frame (lit 0.016)] moonEarthWorld) pointer)
                                (camera (run [Frame (lit 0.016)] moonEarthWorld)))
                 (heap (run [Frame (lit 0.016)] moonEarthWorld)))
              planetsData (hoverablePlanets (run [Frame (lit 0.016)] moonEarthWorld))).
Proof.
  split; [reflexivity|].
  apply (@descent_tests_moon_and_ring float _
           (oracle float (hitsMoonThenEarth (lit 60) (lit 65)) true)
           planetsData (lit 800) (lit 600) [Frame (lit 0.016)] pointer).
  reflexivity.
Defined.

(** X14 at a concrete input: hovering over the moon of the stock scene,
    after a frame and a press of the button. *)
Lemma pick_targets_witness :
  picked pointer (delivered (MouseMove pointer) (run [Frame (lit 0.016); MouseDown] moonWorld)) = Some 10 ∧
  isMesh (run [Frame (lit 0.016); MouseDown] moonWorld) 10 = true ∧
  10 ≠ sun (run [Frame (lit 0.016); MouseDown] moonWorld) ∧
  (10 ∈ hoverablePlanets (run [Frame (lit 0.016); MouseDown] moonWorld) ∨
   isMoon (run [Frame (lit 0.016); MouseDown] moonWorld) 10 = true ∨
   isRing (run [Frame (lit 0.016); MouseDown] moonWorld) 10 = true).
Proof.
  split; [vm_compute; reflexivity|].
  apply (@pick_targets float _ (oracle float (hitsMoonOnly (lit 60)) true)
           planetsData (lit 800) (lit 600) [Frame (lit 0.016); MouseDown] pointer (MouseMove pointer) 10).
  vm_compute. reflexivity.
Defined.

(** X17 at a concrete input: binary64, the stock scene, a ray that enters
    the moon at 60 and Earth, behind it, at 65. *)
Lemma pick_nearest_candidate_witness :
  Forall (λ hit, isNumber (distance hit) = true)
         (candidateHits pointer moonEarthWorld) ∧
  head (pick pointer moonEarthWorld).1 = Some (mkIntersection (lit 60) 10) ∧
  mkIntersection (lit 60) 10 ∈ candidateHits pointer moonEarthWorld ∧
  nearest (mkIntersection (lit 60) 10) (candidateHits pointer moonEarthWorld).
Proof.
  assert (Forall (λ hit, isNumber (distance hit) = true)
                 (candidateHits pointer moonEarthWorld)) as Hnumbers.
  { assert (candidateHits pointer moonEarthWorld
            = [mkIntersection (lit 65) 8; mkIntersection (lit 60) 10]) as ->
      by (vm_compute; reflexivity).
    repeat constructor. }
  split; [exact Hnumbers|]. split; [vm_compute; reflexivity|].
  apply (proj1 (pick_nearest_candidate float_number_order pointer moonEarthWorld
                  Hnumbers)
           (mkIntersection (lit 60) 10)).
  vm_compute. reflexivity.
Defined.
